(** * Fireflies and Forest Flowers: the simulation core of [scene_game.cc]

    A shallow embedding of the tracks, the firefly motion and collision
    update, the interactive drag with its link table, the bellflower
    counters and the run/stop snapshot of [src/scene_game.cc], followed by
    the properties the specification states about them.

    Numbers.  The source computes in C [float], with some intermediate
    values in [double].  The embedding is written once, over an interface
    [FloatOps] that names the arithmetic the source uses (the four
    operations, negation, comparisons, [fabs], [sqrtf], [sinf], [cosf],
    [atan2f], literals and the int-to-float conversion).  Properties of the
    control flow are proved for every interpretation of that interface.
    Properties that rest on the arithmetic are proved for every
    interpretation that has the laws they use, which are stated in the
    classes [SignLaws] (the rule of signs of a rounded product),
    [OrderLaws] (the order of the numbers) and [RoundingLaws] (rounding
    that keeps the order).  There are two
    interpretations: [b32_ops], the format binary32 of IEEE 754 with its
    rounding, in which the source computes, and [R_ops], the real numbers,
    that is the source read with exact arithmetic.  The examples are
    computed in binary32, or in the real numbers on values that binary32
    holds exactly.

    Pointers.  [std::vector<track *> tracks] and the [const track *] of a
    firefly are modelled by a list of tracks and an index into it; the
    pointers [&fireflies[dep]] of the link table are indices into the list
    of fireflies.  An access outside a vector, which the source does not
    check, reads a default and writes nothing.

    Integers.  [int] fields are in [Z]; the one decrement that can leave
    the range of [int], [c--], wraps.  The flags are in [N]. *)

From stdpp Require Import base list.
From Stdlib Require Import ZArith NArith QArith Qreals Reals Lra Lia Psatz.
From Stdlib Require Import RNsatz.
From Stdlib Require Import SpecFloat.

Open Scope Z_scope.

(** ** The arithmetic interface *)

Declare Scope float_scope.
Delimit Scope float_scope with fl.

Class FloatOps (F : Type) : Type := {
  fadd : F -> F -> F;
  fsub : F -> F -> F;
  fmul : F -> F -> F;
  fdiv : F -> F -> F;
  fneg : F -> F;
  fltb : F -> F -> bool;          (* [a < b] *)
  fleb : F -> F -> bool;          (* [a <= b] *)
  f_abs : F -> F;                 (* [fabs] *)
  f_sqrt : F -> F;                (* [sqrtf] *)
  f_sin : F -> F;                 (* [sinf] *)
  f_cos : F -> F;                 (* [cosf] *)
  f_atan2 : F -> F -> F;          (* [atan2f y x] *)
  f_pi : F;                       (* [M_PI] *)
  fint : Z -> F;                  (* conversion of an [int] to [float] *)
  f_to_int : F -> Z;              (* conversion of a [float] to [int] *)
  flit : Q -> F;                  (* a decimal literal *)
}.

Infix "+" := fadd : float_scope.
Infix "-" := fsub : float_scope.
Infix "*" := fmul : float_scope.
Infix "/" := fdiv : float_scope.
Notation "- x" := (fneg x) : float_scope.
Infix "<?" := fltb : float_scope.
Infix "<=?" := fleb : float_scope.
(* [a > b] and [a >= b] of the source are [b < a] and [b <= a] *)
Notation "a >? b" := (fltb b a) (only parsing) : float_scope.
Notation "a >=? b" := (fleb b a) (only parsing) : float_scope.

(** ** Constants of the source *)

Definition STEPS : Z := 480.
Definition TRAIL_N : Z := 20.
Definition TRAIL_I : Z := 8.

(** The [enum] of [struct track]. *)
Definition ATTRACT : N := 1.
Definition RETURN : N := 2.
Definition COLLI : N := N.lor ATTRACT RETURN.
Definition FIXED : N := 16.

(** [flags & m] used as a condition *)
Definition has_flag (flags m : N) : bool := negb (N.land flags m =? 0)%N.

(** [c--] on an [int]: 32 bits, two's complement; it is [c - 1] unless [c]
    is the least [int]. *)
Definition wrap_int (z : Z) : Z := (z + 2 ^ 31) mod 2 ^ 32 - 2 ^ 31.
Definition int_dec (c : Z) : Z := wrap_int (c - 1).

Section Model.
Context {F : Type} {ops : FloatOps F}.
Local Open Scope float_scope.

(** ** [struct vec2] *)

Record vec2 : Type := Vec2 { vx : F; vy : F }.

Definition vadd (a b : vec2) : vec2 := Vec2 (vx a + vx b) (vy a + vy b).
Definition vsub (a b : vec2) : vec2 := Vec2 (vx a - vx b) (vy a - vy b).
Definition vneg (a : vec2) : vec2 := Vec2 (- vx a) (- vy a).
Definition vmul (a : vec2) (k : F) : vec2 := Vec2 (vx a * k) (vy a * k).
Definition vdiv (a : vec2) (k : F) : vec2 := Vec2 (vx a / k) (vy a / k).
Definition dot (a b : vec2) : F := vx a * vx b + vy a * vy b.
Definition det (a b : vec2) : F := vx a * vy b - vy a * vx b.
Definition rot (p : vec2) (a : F) : vec2 :=
  let sin_a := f_sin a in
  let cos_a := f_cos a in
  Vec2 (vx p * cos_a - vy p * sin_a) (vx p * sin_a + vy p * cos_a).
Definition norm (p : vec2) : F := f_sqrt (vx p * vx p + vy p * vy p).

(** [seg_intxn], lines 32-38 *)
Definition seg_intxn (a b c d : vec2) : bool :=
  (det (vsub c a) (vsub b a) * det (vsub d a) (vsub b a) <=? fint 0) &&
  (det (vsub a c) (vsub d c) * det (vsub b c) (vsub d c) <=? fint 0).


(** ** Tracks, lines 57-215

    The two classes derived from [track] are the two constructors of
    [shape]; the fields of the base class are the fields of the record.
    Field names carry a prefix ([tk_len] is [len] of the source). *)

Inductive shape : Type :=
| Cir (r : F) (fix_angle : F) (fix_count : Z)
| Seg (ext : vec2).

Record track : Type := Track {
  tk_o : vec2;
  tk_len : F;
  tk_flags : N;
  tk_sel : bool;
  tk_shape : shape;
}.

(** The constructors [track_cir] and [track_seg]. *)
Definition track_cir (o : vec2) (r : F) (flags : N)
    (fix_angle : F) (fix_count : Z) : track :=
  Track o (fint 2 * f_pi * r) flags false (Cir r fix_angle fix_count).

Definition track_seg (o ext : vec2) (flags : N) : track :=
  Track o (norm ext * fint 2) flags false (Seg (vdiv ext (norm ext))).

Definition local_at (k : track) (t : F) : vec2 :=
  match tk_shape k with
  | Cir r _ _ => rot (Vec2 r (fint 0)) (t / r)
  | Seg ext => vmul ext (t - tk_len k / fint 2)
  end.

Definition track_at (k : track) (t : F) : vec2 := vadd (local_at k t) (tk_o k).

Definition local_nearest (k : track) (p : vec2) : F * F :=
  match tk_shape k with
  | Cir r _ _ =>
      let a := f_atan2 (vy p) (vx p) in
      let a := if a <? fint 0 then a + fint 2 * f_pi else a in
      (a * r, norm (vsub p (rot (Vec2 r (fint 0)) a)))
  | Seg ext =>
      let len := tk_len k in
      let t := dot p ext in
      let t := if t <? - len / fint 2 then - len / fint 2
               else if t >? len / fint 2 then len / fint 2 else t in
      (t + len / fint 2, norm (vsub p (vmul ext t)))
  end.

Definition nearest (k : track) (p : vec2) : F * F :=
  local_nearest k (vsub p (tk_o k)).

(** ** Fireflies, lines 218-329 *)

Record firefly : Type := Firefly {
  ff_tr : nat;          (* [tr], an index into [tracks] *)
  ff_t : F;             (* [t], the phase *)
  ff_v : F;             (* [v], the velocity *)
  ff_sel : bool;
  ff_trail : list vec2; (* [trail[TRAIL_N]] *)
}.

(** What an index outside [tracks] denotes.  A firefly of the source always
    points to a track, so no property below is about this value. *)
Definition no_track : track :=
  Track (Vec2 (fint 0) (fint 0)) (fint 0) 0%N false (Seg (Vec2 (fint 0) (fint 0))).

Definition track_of (tracks : list track) (i : nat) : track :=
  default no_track (tracks !! i).

Definition pos (tracks : list track) (f : firefly) : vec2 :=
  track_at (track_of tracks (ff_tr f)) (ff_t f).

Definition set_t (f : firefly) (t : F) : firefly :=
  Firefly (ff_tr f) t (ff_v f) (ff_sel f) (ff_trail f).
Definition set_v (f : firefly) (v : F) : firefly :=
  Firefly (ff_tr f) (ff_t f) v (ff_sel f) (ff_trail f).
Definition set_tr (f : firefly) (i : nat) : firefly :=
  Firefly i (ff_t f) (ff_v f) (ff_sel f) (ff_trail f).
Definition set_sel (f : firefly) (b : bool) : firefly :=
  Firefly (ff_tr f) (ff_t f) (ff_v f) b (ff_trail f).
Definition set_trail (f : firefly) (l : list vec2) : firefly :=
  Firefly (ff_tr f) (ff_t f) (ff_v f) (ff_sel f) l.

(** Lines 238-240: the step along the current track and its wrap. *)
Definition advance (tracks : list track) (f : firefly) : firefly :=
  let len := tk_len (track_of tracks (ff_tr f)) in
  let t := ff_t f + ff_v f / fint STEPS in
  let t := if t >=? len then t - len else t in
  let t := if t <? fint 0 then t + len else t in
  set_t f t.

(** Lines 244-256: the test of one track [k], at index [i] of [tracks],
    against the displacement [p1 -> p2] of a firefly whose own track has
    index [self].  [Some (t1, t2)] is a detected crossing with the two
    parameters as they are when [seg_intxn] is called, that is after the
    nudge of lines 249-253. *)
Definition crossing (self : nat) (p1 p2 : vec2) (i : nat) (k : track)
    : option (F * F) :=
  if negb (Nat.eqb i self) && has_flag (tk_flags k) COLLI then
    let near := nearest k p1 in
    if near.2 >=? flit (1 # 100) then None else
    let t1 := near.1 in
    let t2 := (nearest k p2).1 in
    let '(t1, t2) :=
      if f_abs (t1 - t2) <? flit (1 # 1000000) then
        let d := if t1 <? fint 1 then flit (1 # 1000000)
                 else t1 * flit (1 # 1000000) in
        (t1 - d, t2 + d)
      else (t1, t2) in
    if seg_intxn p1 p2 (track_at k t1) (track_at k t2) then Some (t1, t2)
    else None
  else None.

(** Lines 258-265, the body of [if (tr->flags & track::ATTRACT)]. *)
Definition attract (i : nat) (t1 t2 : F) (f : firefly) : firefly :=
  let f := set_tr f i in
  let f := set_t f t2 in
  if ff_v f * (t2 - t1) <? fint 0 then set_v f (- ff_v f) else f.

(** Lines 266-275, the body of [if (tr->flags & track::RETURN)]. *)
Definition bounce (t_prev : F) (f : firefly) : firefly :=
  let f := set_t f t_prev in
  set_v f (- ff_v f).

(** Lines 257-276: what is done at a detected crossing. *)
Definition resolve (t_prev : F) (i : nat) (k : track) (t1 t2 : F)
    (f : firefly) : firefly :=
  let f := if has_flag (tk_flags k) ATTRACT then attract i t1 t2 f else f in
  let f := if has_flag (tk_flags k) RETURN then bounce t_prev f else f in
  f.

(** Lines 244-278: the loop over [tracks], from index [i] on; it ends at
    the first detected crossing ([break]). *)
Fixpoint scan (self : nat) (t_prev : F) (p1 p2 : vec2)
    (i : nat) (ks : list track) (f : firefly) : firefly :=
  match ks with
  | [] => f
  | k :: ks' =>
      match crossing self p1 p2 i k with
      | Some (t1, t2) => resolve t_prev i k t1 t2 f
      | None => scan self t_prev p1 p2 (S i) ks' f
      end
  end.

(** [firefly::update], lines 235-279. *)
Definition update (tracks : list track) (f : firefly) : firefly :=
  let t_prev := ff_t f in
  let p1 := pos tracks f in
  let f' := advance tracks f in
  let p2 := pos tracks f' in
  scan (ff_tr f) t_prev p1 p2 0 tracks f'.

(** The crossing that a step resolves: [k], at index [i], is the first
    track of the vector on which [crossing] detects one; [t1] and [t2] are
    the two projected parameters. *)
Definition detected_first (tracks : list track) (f : firefly)
    (i : nat) (k : track) (t1 t2 : F) : Prop :=
  let p1 := pos tracks f in
  let p2 := pos tracks (advance tracks f) in
  tracks !! i = Some k /\
  crossing (ff_tr f) p1 p2 i k = Some (t1, t2) /\
  forall j k', (j < i)%nat -> tracks !! j = Some k' ->
               crossing (ff_tr f) p1 p2 j k' = None.

Definition no_crossing (tracks : list track) (f : firefly) : Prop :=
  let p1 := pos tracks f in
  let p2 := pos tracks (advance tracks f) in
  forall j k, tracks !! j = Some k -> crossing (ff_tr f) p1 p2 j k = None.

(** The part of a firefly that the simulation is about. *)
Definition ff_state (f : firefly) : nat * F * F := (ff_tr f, ff_t f, ff_v f).

(** [firefly::trail_manager], lines 300-328.  The reference [fireflies] of
    the source is the vector of the scene; the operations take and return
    it. *)
Record trail_manager : Type := TrailManager {
  tm_counter : Z;
  tm_pointer : Z;
}.

Definition trail_reset (m : trail_manager) : trail_manager :=
  TrailManager 0 0.

Definition recalc_init (tracks : list track) (fireflies : list firefly)
    : list firefly :=
  map (fun f =>
         set_trail f
           (map (fun i : Z =>
                   track_at (track_of tracks (ff_tr f))
                     (ff_t f - ff_v f * (fint TRAIL_I / fint STEPS) * fint i))
                (seqZ 0 TRAIL_N)))
      fireflies.

Definition trail_step (tracks : list track)
    (m : trail_manager) (fireflies : list firefly)
    : trail_manager * list firefly :=
  let counter := (tm_counter m + 1)%Z in
  if (counter =? TRAIL_I)%Z then
    let pointer := ((tm_pointer m + (TRAIL_N - 1)) mod TRAIL_N)%Z in
    (TrailManager 0 pointer,
     map (fun f =>
            set_trail f (<[Z.to_nat pointer := pos tracks f]> (ff_trail f)))
         fireflies)
  else (TrailManager counter (tm_pointer m), fireflies).

(** ** Bellflowers, lines 332-407

    [bellflower_ord] and [bellflower_delay] are the two constructors of
    [bell_kind]; the second carries its fields [d] and [d0]. *)

Inductive bell_kind : Type :=
| Ord
| Delay (d d0 : Z).

Record bellflower : Type := Bellflower {
  bf_o : vec2;
  bf_r : F;
  bf_c0 : Z;
  bf_c : Z;
  bf_last_on : bool;
  bf_kind : bell_kind;
}.

(** The virtual [reset]: [bellflower::reset], and for the delayed one
    [bellflower_delay::reset], which adds [d = d0]. *)
Definition bf_reset (b : bellflower) : bellflower :=
  Bellflower (bf_o b) (bf_r b) (bf_c0 b) (bf_c0 b) false
    match bf_kind b with
    | Ord => Ord
    | Delay _ d0 => Delay d0 d0
    end.

(** The constructors: both leave the bellflower as [reset] does. *)
Definition bellflower_ord (o : vec2) (r : F) (c0 : Z) : bellflower :=
  bf_reset (Bellflower o r c0 0 false Ord).

Definition bellflower_delay (o : vec2) (r : F) (c0 : Z) (d0 : F)
    : bellflower :=
  bf_reset (Bellflower o r c0 0 false (Delay 0 (f_to_int (d0 * fint STEPS)))).

(** [bellflower::update(bool on)], lines 348-351. *)
Definition bf_update_on (on : bool) (b : bellflower) : bellflower :=
  let c := if negb (bf_last_on b) && on then int_dec (bf_c b) else bf_c b in
  Bellflower (bf_o b) (bf_r b) (bf_c0 b) c on (bf_kind b).

(** [fireflies_within], lines 355-359. *)
Definition fireflies_within (tracks : list track) (b : bellflower)
    (fireflies : list firefly) : bool :=
  existsb (fun f => norm (vsub (pos tracks f) (bf_o b)) <=? bf_r b) fireflies.

(** The countdown of [bellflower_delay::update], lines 391-395. *)
Definition delay_step (on : bool) (d d0 : Z) : Z :=
  if on then (if (d >? 0)%Z then (d - 1)%Z else d) else d0.

(** The virtual [update(fireflies)], lines 366-369 and 389-397, given the
    value of [fireflies_within]. *)
Definition bf_step (on : bool) (b : bellflower) : bellflower :=
  match bf_kind b with
  | Ord => bf_update_on on b
  | Delay d d0 =>
      let d := delay_step on d d0 in
      bf_update_on (d =? 0)%Z
        (Bellflower (bf_o b) (bf_r b) (bf_c0 b) (bf_c b) (bf_last_on b)
           (Delay d d0))
  end.

Definition bf_update (tracks : list track) (fireflies : list firefly)
    (b : bellflower) : bellflower :=
  bf_step (fireflies_within tracks b fireflies) b.

(** ** The scene, lines 410-618

    Only the simulation state is kept: the update counter [T], the level
    title, the textures and the background trees are left out. *)

Record scene : Type := Scene {
  tracks : list track;
  fireflies : list firefly;
  fireflies_init : list firefly;
  bellflowers : list bellflower;
  ff_links : list (list (nat * F));
  trail_m : trail_manager;
  sel_ff : option nat;        (* [nullptr] is [None] *)
  sel_track : option nat;
  sel_offs : vec2;
  run_state : Z;
  last_space_down : bool;
}.

Definition with_fireflies (s : scene) (fs : list firefly) : scene :=
  Scene (tracks s) fs (fireflies_init s) (bellflowers s) (ff_links s)
    (trail_m s) (sel_ff s) (sel_track s) (sel_offs s) (run_state s)
    (last_space_down s).

(** [build_links], lines 506-518: the list of [indep] receives, for every
    other member [dep] of the group, the pair of [dep] and the difference
    of the two phases. *)
Definition build_links (fireflies : list firefly) (links : list (list nat))
    : list (list (nat * F)) :=
  let phase i := from_option ff_t (fint 0) (fireflies !! i) in
  foldl (fun ff_links group =>
    foldl (fun ff_links indep =>
      let t := phase indep in
      let added :=
        omap (fun dep => if negb (Nat.eqb dep indep)
                         then Some (dep, phase dep - t) else None) group in
      alter (fun l => l ++ added) indep ff_links)
      ff_links group)
    (replicate (length fireflies) []) links.

(** [find], lines 520-544. *)
Fixpoint find_ff (tracks : list track) (p : vec2) (i : nat)
    (fs : list firefly) (best_dist : F) (best_ff : option nat)
    : option nat :=
  match fs with
  | [] => best_ff
  | f :: fs' =>
      let dist := norm (vsub p (pos tracks f)) in
      if dist <? best_dist then find_ff tracks p (S i) fs' dist (Some i)
      else find_ff tracks p (S i) fs' best_dist best_ff
  end.

Fixpoint find_track (p : vec2) (i : nat) (ks : list track)
    (best_result : F * F) (best_track : option nat) : option nat :=
  match ks with
  | [] => best_track
  | k :: ks' =>
      if negb (has_flag (tk_flags k) FIXED) then
        let result := nearest k p in
        if result.2 <? best_result.2
        then find_track p (S i) ks' result (Some i)
        else find_track p (S i) ks' best_result best_track
      else find_track p (S i) ks' best_result best_track
  end.

Definition find (s : scene) (p : vec2) : option nat * option nat :=
  match find_ff (tracks s) p 0 (fireflies s) (flit (75 # 100)) None with
  | Some i => (Some i, None)
  | None =>
      (None, find_track p 0 (tracks s) (fint 0, flit (5 # 10)) None)
  end.

(** [board], lines 50-52.  [W], [H] and [SCALE] turn a point of the window
    into a point of the board; [W] and [H] are declared in [main.hh], which
    is not part of the sources, and are parameters here. *)
Definition SCALE : Z := 35.

Definition board (W H : Z) (x y : F) : vec2 :=
  vdiv (vsub (Vec2 x y) (vdiv (Vec2 (fint W) (fint H)) (fint 2))) (fint SCALE).

(** [pton], lines 546-561. *)
Definition pton (W H : Z) (x y : F) (s : scene) : scene :=
  if negb (Z.land (run_state s) 1 =? 0)%Z then s else
  let p := board W H x y in
  let near := find s p in
  let s :=
    match near.1 with
    | Some i =>
        let fs := alter (fun f => set_sel f true) i (fireflies s) in
        let offs :=
          vsub (from_option (pos (tracks s)) (Vec2 (fint 0) (fint 0))
                  (fs !! i)) p in
        Scene (tracks s) fs (fireflies_init s) (bellflowers s) (ff_links s)
          (trail_m s) (Some i) (sel_track s) offs (run_state s)
          (last_space_down s)
    | None => s
    end in
  match near.2 with
  | Some i =>
      let ks :=
        alter (fun k => Track (tk_o k) (tk_len k) (tk_flags k) true
                          (tk_shape k)) i (tracks s) in
      let offs := vsub (tk_o (track_of ks i)) p in
      Scene ks (fireflies s) (fireflies_init s) (bellflowers s) (ff_links s)
        (trail_m s) (sel_ff s) (Some i) offs (run_state s)
        (last_space_down s)
  | None => s
  end.

(** [ptmove], lines 563-578.  Line 570 reads [sel_ff->t] again for every
    link. *)
Definition move_links (sel : nat) (links : list (nat * F))
    (fs : list firefly) : list firefly :=
  foldl (fun fs link =>
           let t := from_option ff_t (fint 0) (fs !! sel) in
           alter (fun f => set_t f (t + link.2)) link.1 fs)
        fs links.

Definition ptmove (W H : Z) (x y : F) (s : scene) : scene :=
  let p := board W H x y in
  let s :=
    match sel_ff s with
    | Some i =>
        let fs :=
          alter (fun f =>
                   set_t f (nearest (track_of (tracks s) (ff_tr f))
                              (vadd p (sel_offs s))).1)
                i (fireflies s) in
        let fs := move_links i (default [] (ff_links s !! i)) fs in
        with_fireflies s (recalc_init (tracks s) fs)
    | None => s
    end in
  match sel_track s with
  | Some i =>
      let ks :=
        alter (fun k => Track (vadd p (sel_offs s)) (tk_len k) (tk_flags k)
                          (tk_sel k) (tk_shape k)) i (tracks s) in
      Scene ks (recalc_init ks (fireflies s)) (fireflies_init s)
        (bellflowers s) (ff_links s) (trail_m s) (sel_ff s) (sel_track s)
        (sel_offs s) (run_state s) (last_space_down s)
  | None => s
  end.

(** [ptoff], lines 580-589. *)
Definition ptoff (x y : F) (s : scene) : scene :=
  let fs :=
    match sel_ff s with
    | Some i => alter (fun f => set_sel f false) i (fireflies s)
    | None => fireflies s
    end in
  let ks :=
    match sel_track s with
    | Some i =>
        alter (fun k => Track (tk_o k) (tk_len k) (tk_flags k) false
                          (tk_shape k)) i (tracks s)
    | None => tracks s
    end in
  Scene ks fs (fireflies_init s) (bellflowers s) (ff_links s) (trail_m s)
    None None (sel_offs s) (run_state s) (last_space_down s).

(** [start_run] and [stop_run], lines 591-599. *)
Definition start_run (s : scene) : scene :=
  Scene (tracks s) (fireflies s) (fireflies s) (bellflowers s) (ff_links s)
    (trail_m s) (sel_ff s) (sel_track s) (sel_offs s) (run_state s)
    (last_space_down s).

Definition stop_run (s : scene) : scene :=
  Scene (tracks s) (fireflies_init s) (fireflies_init s)
    (map bf_reset (bellflowers s)) (ff_links s) (trail_reset (trail_m s))
    (sel_ff s) (sel_track s) (sel_offs s) (run_state s) (last_space_down s).

(** One simulation tick: the body of the loop of lines 613-617. *)
Definition tick (s : scene) : scene :=
  let fs := map (update (tracks s)) (fireflies s) in
  let bs := map (bf_update (tracks s) fs) (bellflowers s) in
  let '(m, fs) := trail_step (tracks s) (trail_m s) fs in
  Scene (tracks s) fs (fireflies_init s) bs (ff_links s) m (sel_ff s)
    (sel_track s) (sel_offs s) (run_state s) (last_space_down s).

Definition ticks (n : nat) (s : scene) : scene := Nat.iter n tick s.

(** [scene_game::update], lines 602-618.  The three keys read through
    [rl::IsKeyDown] are arguments. *)
Definition with_run (s : scene) (run_state : Z) (space_down : bool) : scene :=
  Scene (tracks s) (fireflies s) (fireflies_init s) (bellflowers s)
    (ff_links s) (trail_m s) (sel_ff s) (sel_track s) (sel_offs s) run_state
    space_down.

Definition scene_update (space_down grave one : bool) (s : scene) : scene :=
  let s :=
    if bool_decide (sel_track s = None) && negb (last_space_down s)
       && space_down
    then
      let s := with_run s (Z.lxor (run_state s) 1) (last_space_down s) in
      if negb (Z.land (run_state s) 1 =? 0)%Z then start_run s
      else stop_run s
    else s in
  let run_state :=
    Z.lor (Z.land (run_state s) 1)
          (Z.shiftl (if grave then 1 else if one then 16 else 4) 1) in
  let s := with_run s run_state space_down in
  if negb (Z.land (run_state) 1 =? 0)%Z
  then ticks (Z.to_nat (Z.shiftr run_state 1)) s
  else s.

(** The constructor, lines 438-455.  The tracks, fireflies, bellflowers and
    link groups come from [puzzles.hh], which is not part of the sources;
    they are arguments here, the fireflies as the arguments of the macro
    [F(_i, _t, v)] and the bellflowers as built by their constructors. *)
Definition puzzle_firefly (tracks : list track) (a : nat * F * F) : firefly :=
  let '(i, t, v) := a in
  Firefly i (tk_len (track_of tracks i) * t) v false
    (replicate (Z.to_nat TRAIL_N) (Vec2 (fint 0) (fint 0))).

Inductive puzzle_bell : Type :=
| B_ord (o : vec2) (r : F) (c0 : Z)
| B_delay (o : vec2) (r : F) (c0 : Z) (d0 : F).

Definition puzzle_bellflower (a : puzzle_bell) : bellflower :=
  match a with
  | B_ord o r c0 => bellflower_ord o r c0
  | B_delay o r c0 d0 => bellflower_delay o r c0 d0
  end.

Definition scene_game (tracks : list track) (ffs : list (nat * F * F))
    (bells : list puzzle_bell) (links : list (list nat)) : scene :=
  let fs := map (puzzle_firefly tracks) ffs in
  Scene tracks (recalc_init tracks fs) [] (map puzzle_bellflower bells)
    (build_links fs links) (TrailManager 0 0) None None
    (Vec2 (fint 0) (fint 0)) 0 false.

(** [scr], lines 46-49; the [rl::Vector2] it returns is a pair. *)
Definition scr (W H : Z) (p : vec2) : F * F :=
  let q := vadd (vmul p (fint SCALE))
             (vdiv (Vec2 (fint W) (fint H)) (fint 2)) in
  (vx q, vy q).

(** A firefly references a track of the vector. *)
Definition ff_valid (tracks : list track) (f : firefly) : Prop :=
  (ff_tr f < length tracks)%nat.

(** Every firefly of the scene, and of the snapshot, references a track of
    the scene. *)
Definition scene_valid (s : scene) : Prop :=
  Forall (ff_valid (tracks s)) (fireflies s) /\
  Forall (ff_valid (tracks s)) (fireflies_init s).

(** The element of [trail] that [firefly::draw] reads for its [i]-th dot,
    line 295; its argument [offs] is [trail_m.pointer], line 659. *)
Definition trail_dot (f : firefly) (offs i : Z) : option vec2 :=
  ff_trail f !! Z.to_nat (Z.rem (i + offs) TRAIL_N).

(** The counter and the pointer of the trail manager are within their
    ranges, and every trail has its [TRAIL_N] elements. *)
Definition trail_ok (s : scene) : Prop :=
  (0 <= tm_counter (trail_m s) < TRAIL_I)%Z /\
  (0 <= tm_pointer (trail_m s) < TRAIL_N)%Z /\
  Forall (fun f => length (ff_trail f) = Z.to_nat TRAIL_N) (fireflies s) /\
  Forall (fun f => length (ff_trail f) = Z.to_nat TRAIL_N) (fireflies_init s).

(** The phase [fireflies[i].t] that [build_links] reads, and the links that
    the loop of lines 514-515 appends to the list of [indep] for one
    group. *)
Definition link_phase (fireflies : list firefly) (i : nat) : F :=
  from_option ff_t (fint 0) (fireflies !! i).

Definition links_added (fireflies : list firefly) (group : list nat)
    (indep : nat) : list (nat * F) :=
  omap (fun dep => if negb (Nat.eqb dep indep)
                   then Some (dep, link_phase fireflies dep
                                   - link_phase fireflies indep)
                   else None) group.

(** What a tick reads and writes: the tracks, the fireflies, the
    bellflowers and the trail manager. *)
Definition sim_state (s : scene)
    : list track * list firefly * list bellflower * trail_manager :=
  (tracks s, fireflies s, bellflowers s, trail_m s).

(** The condition of line 605, under which [update] starts or stops a
    run. *)
Definition toggles (space_down : bool) (s : scene) : bool :=
  bool_decide (sel_track s = None) && negb (last_space_down s) && space_down.

(** The number of ticks of a frame of a run, lines 611-612. *)
Definition frame_ticks (grave one : bool) : Z :=
  if grave then 1 else if one then 16 else 4.

(** ** The signs that the chord test compares

    [side_of a b p] is the determinant that [seg_intxn] computes for the
    point [p] and the line through [a] and [b]: its sign says on which
    side of the line [p] lies. *)
Definition side_of (a b p : vec2) : F := det (vsub p a) (vsub b a).

(** [x] compares equal to zero. *)
Definition is_zero (x : F) : Prop :=
  (x <=? fint 0) = true /\ (fint 0 <=? x) = true.

(** One of [x], [y] is negative or zero and the other positive or zero. *)
Definition signs_opposite (x y : F) : Prop :=
  ((x <=? fint 0) = true /\ (fint 0 <=? y) = true) \/
  ((y <=? fint 0) = true /\ (fint 0 <=? x) = true).

(** One of [x], [y] is negative and the other positive. *)
Definition signs_strictly_opposite (x y : F) : Prop :=
  ((x <? fint 0) = true /\ (fint 0 <? y) = true) \/
  ((y <? fint 0) = true /\ (fint 0 <? x) = true).

(** The scenes that the program can be in: the constructed one, and those
    that [update] and the three pointer callbacks lead to. *)
Inductive reachable (W H : Z) : scene -> Prop :=
| reach_scene_game tracks ffs bells links :
    reachable W H (scene_game tracks ffs bells links)
| reach_update space_down grave one s :
    reachable W H s -> reachable W H (scene_update space_down grave one s)
| reach_pton x y s :
    reachable W H s -> reachable W H (pton W H x y s)
| reach_ptmove x y s :
    reachable W H s -> reachable W H (ptmove W H x y s)
| reach_ptoff x y s :
    reachable W H s -> reachable W H (ptoff x y s).

(** No run is going on: bit 0 of [run_state] is clear. *)
Definition paused (s : scene) : Prop := Z.land (run_state s) 1 = 0.

(** No firefly is linked to itself. *)
Definition links_no_self (ff_links : list (list (nat * F))) : Prop :=
  forall i l, ff_links !! i = Some l -> Forall (fun link => link.1 <> i) l.

(** Every bellflower is as [reset] leaves it. *)
Definition bells_idle (s : scene) : Prop :=
  map bf_reset (bellflowers s) = bellflowers s.

(** A bellflower over a sequence of ticks, given the fireflies at each. *)
Definition bf_run (tracks : list track) (fss : list (list firefly))
    (b : bellflower) : bellflower :=
  foldl (fun b fs => bf_update tracks fs b) b fss.

End Model.

Arguments vec2 F : clear implicits.
Arguments bellflower F : clear implicits.
Arguments scene F : clear implicits.
Arguments puzzle_bell F : clear implicits.
Arguments shape F : clear implicits.
Arguments track F : clear implicits.
Arguments firefly F : clear implicits.

(** ** Laws of the arithmetic

    What the properties below use of the arithmetic, beyond its
    operations.  [finite x] says that [x] is a number, neither a NaN nor an
    infinity.  The laws of [SignLaws] are the rule of signs of a rounded
    product: rounding keeps the sign of a product, and can take it to
    zero.  They hold in binary32 and in the real numbers. *)

Class SignLaws (F : Type) (ops : FloatOps F) : Type := {
  finite : F -> Prop;
  flt_fle : forall x y : F, (x <? y)%fl = true -> (x <=? y)%fl = true;
  fle_cases : forall x y : F,
    (x <=? y)%fl = true -> (x <? y)%fl = true \/ (y <=? x)%fl = true;
  fle_zero_total : forall x : F,
    finite x -> (x <=? fint 0)%fl = true \/ (fint 0 <=? x)%fl = true;
  fmul_nonpos : forall x y : F,
    finite x -> finite y ->
    (x <=? fint 0)%fl = true -> (fint 0 <=? y)%fl = true ->
    (x * y <=? fint 0)%fl = true;
  fmul_nonpos' : forall x y : F,
    finite x -> finite y ->
    (fint 0 <=? x)%fl = true -> (y <=? fint 0)%fl = true ->
    (x * y <=? fint 0)%fl = true;
  fmul_neg : forall x y : F,
    (x <? fint 0)%fl = true -> (fint 0 <? y)%fl = true ->
    (x * y <=? fint 0)%fl = true;
  fmul_neg' : forall x y : F,
    (fint 0 <? x)%fl = true -> (y <? fint 0)%fl = true ->
    (x * y <=? fint 0)%fl = true;
  fmul_neg_inv : forall x y : F,
    (x * y <? fint 0)%fl = true ->
    ((x <? fint 0)%fl = true /\ (fint 0 <? y)%fl = true) \/
    ((fint 0 <? x)%fl = true /\ (y <? fint 0)%fl = true);
}.

(** The laws of [OrderLaws] are those of the order of the numbers.  They
    hold in binary32 and in the real numbers. *)
Class OrderLaws (F : Type) (ops : FloatOps F) (signs : SignLaws F ops)
    : Prop := {
  finite_zero : finite (fint 0);
  finite_neg : forall x : F, finite x -> finite (- x)%fl;
  fle_trans : forall x y z : F,
    (x <=? y)%fl = true -> (y <=? z)%fl = true -> (x <=? z)%fl = true;
  fle_not_flt : forall x y : F,
    (x <=? y)%fl = true -> (y <? x)%fl = false;
  not_flt_fle : forall x y : F,
    finite x -> finite y -> (x <? y)%fl = false -> (y <=? x)%fl = true;
  not_fle_flt : forall x y : F,
    finite x -> finite y -> (x <=? y)%fl = false -> (y <? x)%fl = true;
}.

(** The laws of [RoundingLaws] are those of sums and differences rounded
    to the nearest value: rounding keeps the order, the sums and
    differences named here are exact, and a sum of two numbers that lies
    between two numbers is a number.  They hold in binary32 and in the real
    numbers. *)
Class RoundingLaws (F : Type) (ops : FloatOps F) (signs : SignLaws F ops)
    : Prop := {
  fadd_finite : forall x y lo hi : F,
    finite x -> finite y -> finite lo -> finite hi ->
    (lo <=? x + y)%fl = true -> (x + y <=? hi)%fl = true ->
    finite (x + y)%fl;
  fadd_mono_l : forall x y z : F,
    finite x -> finite y -> finite z ->
    (x <=? y)%fl = true -> (x + z <=? y + z)%fl = true;
  fadd_mono_r : forall x y z : F,
    finite x -> finite y -> finite z ->
    (y <=? z)%fl = true -> (x + y <=? x + z)%fl = true;
  fsub_mono_l : forall x y z : F,
    finite x -> finite y -> finite z ->
    (x <=? y)%fl = true -> (x - z <=? y - z)%fl = true;
  fsub_diag : forall x : F, finite x -> (fint 0 <=? x - x)%fl = true;
  fadd_fsub : forall x : F,
    finite x -> finite (x + x)%fl -> (x + x - x <=? x)%fl = true;
  fopp_fadd : forall x : F, finite x -> (fint 0 <=? - x + x)%fl = true;
  zero_fadd_le : forall x : F, finite x -> (fint 0 + x <=? x)%fl = true;
  zero_fadd_ge : forall x : F, finite x -> (x <=? fint 0 + x)%fl = true;
}.

(** A segment track whose half length is exact: the two halves that
    [local_nearest] computes, [- len / 2] and [len / 2], are numbers, their
    sum is not negative, and twice [len / 2] is not more than [len].  In
    binary32 every length that is not subnormal is so. *)
Definition segment_ok {F : Type} {ops : FloatOps F} {signs : SignLaws F ops}
    (k : track F) : Prop :=
  (exists ext, tk_shape k = Seg ext) /\
  finite (tk_len k / fint 2)%fl /\
  finite (- tk_len k / fint 2)%fl /\
  (- tk_len k / fint 2 <=? tk_len k / fint 2)%fl = true /\
  (fint 0 <=? - tk_len k / fint 2 + tk_len k / fint 2)%fl = true /\
  (tk_len k / fint 2 + tk_len k / fint 2 <=? tk_len k)%fl = true.

(** The projection of [p] onto the line of a segment track is a number. *)
Definition projects_finitely {F : Type} {ops : FloatOps F}
    {signs : SignLaws F ops} (k : track F) (p : vec2 F) : Prop :=
  forall ext, tk_shape k = Seg ext -> finite (dot (vsub p (tk_o k)) ext).

(** ** The interpretation in the real numbers

    The source read with exact arithmetic.  A statement made for this
    interpretation alone is about the formulas of the source, not about
    the values that binary32 rounds them to; the runs computed in it are on
    coordinates, phases and velocities that binary32 holds exactly. *)

Definition Rltb (x y : R) : bool := if Rlt_dec x y then true else false.
Definition Rleb (x y : R) : bool := if Rle_dec x y then true else false.

(** [atan2] as the C library defines it, with values in (-PI, PI]. *)
Definition atan2 (y x : R) : R :=
  if Rlt_dec 0 x then atan (y / x)
  else if Rlt_dec x 0 then
    (if Rle_dec 0 y then atan (y / x) + PI else atan (y / x) - PI)
  else if Rlt_dec 0 y then PI / 2
  else if Rlt_dec y 0 then - (PI / 2)
  else 0.

(** Conversion to [int] truncates toward zero. *)
Definition Rtrunc (x : R) : Z :=
  if Rle_dec 0 x then Int_part x else (- Int_part (- x))%Z.

#[export] Instance R_ops : FloatOps R := {|
  fadd := Rplus;
  fsub := Rminus;
  fmul := Rmult;
  fdiv := Rdiv;
  fneg := Ropp;
  fltb := Rltb;
  fleb := Rleb;
  f_abs := Rabs;
  f_sqrt := sqrt;
  f_sin := sin;
  f_cos := cos;
  f_atan2 := atan2;
  f_pi := PI;
  fint := IZR;
  f_to_int := Rtrunc;
  flit := Q2R;
|}.

(** ** The interpretation in binary32

    C [float] is the IEEE 754 format binary32: 24 bits of precision,
    exponents up to 128, every operation rounded to the nearest value, ties
    to even.  [spec_float] of the Standard Library, with these two
    parameters, is that format and these are its operations.  IEEE 754
    does not define [sinf], [cosf] and [atan2f], and the source mixes
    [double] into the lines with [M_PI] and with the literals [0.01] and
    [1e-6]; this interpretation gives no value to the three functions and
    is used for the code that computes in [float] alone: the vector
    operations, [seg_intxn], the segment tracks and the step of a
    firefly. *)

Definition binary32 : Type := spec_float.

(** The conversion of an [int], and a decimal literal, rounded once. *)
Definition b32_of_Z (z : Z) : binary32 := binary_normalize 24 128 z 0 false.

Definition b32_of_Q (q : Q) : binary32 :=
  SFdiv 24 128 (b32_of_Z (Qnum q)) (b32_of_Z (Zpos (Qden q))).

(** The conversion to [int] truncates; C leaves it undefined for a NaN, an
    infinity and a value outside [int]. *)
Definition b32_to_int (x : binary32) : Z :=
  match x with
  | S754_finite s m e =>
      cond_Zopp s (match e with
                   | Zneg p => Z.shiftr (Zpos m) (Zpos p)
                   | _ => Z.shiftl (Zpos m) e
                   end)
  | _ => 0
  end.

(** What the C library returns is not modelled. *)
Definition b32_libm : binary32 := S754_nan.

Definition b32_ops : FloatOps binary32 := {|
  fadd := SFadd 24 128;
  fsub := SFsub 24 128;
  fmul := SFmul 24 128;
  fdiv := SFdiv 24 128;
  fneg := SFopp;
  fltb := SFltb;
  fleb := SFleb;
  f_abs := SFabs;
  f_sqrt := SFsqrt 24 128;
  f_sin := fun _ => b32_libm;
  f_cos := fun _ => b32_libm;
  f_atan2 := fun _ _ => b32_libm;
  f_pi := S754_finite false 13176795 (-22);
  fint := b32_of_Z;
  f_to_int := b32_to_int;
  flit := b32_of_Q;
|}.

(** A number: neither a NaN nor an infinity, and a value of the format,
    with a mantissa of at most 24 bits and the exponent that goes with
    it. *)
Definition b32_finite (x : binary32) : Prop :=
  match x with
  | S754_zero _ => True
  | S754_finite _ m e => bounded 24 128 m e = true
  | _ => False
  end.

(** A value of the format that can be compared: not a NaN. *)
Definition b32_ordered (x : binary32) : Prop :=
  match x with
  | S754_nan => False
  | S754_finite _ m e => bounded 24 128 m e = true
  | _ => True
  end.

(** The value of a binary32 number as a multiple of [2 ^ -149], the
    smallest positive one; an infinity stands at [2 ^ 277], beyond every
    number. *)
Definition b32_scaled (x : binary32) : Z :=
  match x with
  | S754_zero _ | S754_nan => 0
  | S754_infinity s => cond_Zopp s (2 ^ 277)
  | S754_finite s m e => cond_Zopp s (Z.pos m * 2 ^ (e + 149))
  end.

(** [z / 2 ^ k] rounded to the nearest integer, ties to even. *)
Definition rne (z k : Z) : Z :=
  let m := z / 2 ^ k in
  let r := z mod 2 ^ k in
  if 2 * r <? 2 ^ k then m
  else if 2 ^ k <? 2 * r then m + 1
  else if Z.even m then m else m + 1.

(** What binary32 rounds the multiple [z] of [2 ^ -149] to: [z] keeps
    its 24 leading bits. *)
Definition round_scaled (z : Z) : Z :=
  let k := Z.max 0 (Z.log2 z + 1 - 24) in
  Z.min (rne z k * 2 ^ k) (2 ^ 277).

Definition round_value (z : Z) : Z :=
  match z with
  | Z0 => 0
  | Z.pos _ => round_scaled z
  | Z.neg p => - round_scaled (Z.pos p)
  end.

(** What a record of [shr_1] holds after the shifts that divide [z] by
    [P]: the quotient, whether the remainder is at least one half, and
    whether it is neither 0 nor one half. *)
Definition shr_inv (z P : Z) (mrs : shr_record) : Prop :=
  exists rem, z = shr_m mrs * P + rem /\ 0 <= rem < P /\
    shr_r mrs = (P <=? 2 * rem) /\
    shr_s mrs = negb (rem =? 0) && negb (2 * rem =? P).

(** A point whose coordinates are decimal literals. *)
Definition b32_point (x y : Q) : vec2 binary32 :=
  Vec2 (b32_of_Q x) (b32_of_Q y).

(** ** The chord test: the sides of a line *)

Local Open Scope R_scope.

(** Which side of the line through [a] and [b] the point [p] lies on: the
    sign of this determinant, as [seg_intxn] computes it. *)
Definition side (a b p : vec2 R) : R := det (vsub p a) (vsub b a).

(** Following the spec's words: [p] and [q] lie on strictly opposite sides
    of the line through [a] and [b]. *)
Definition strictly_opposite (a b p q : vec2 R) : Prop :=
  (side a b p < 0 /\ 0 < side a b q) \/ (side a b q < 0 /\ 0 < side a b p).

(** Following the spec's words: segment [(p1, p2)] properly separates the
    chord endpoints [c] and [d]. *)
Definition properly_separates (p1 p2 c d : vec2 R) : Prop :=
  strictly_opposite p1 p2 c d /\ strictly_opposite c d p1 p2.

(** What the source tests: no two of the points lie strictly on the same
    side; a point on the line counts as on either side. *)
Definition weakly_opposite (a b p q : vec2 R) : Prop :=
  (side a b p <= 0 /\ 0 <= side a b q) \/ (side a b q <= 0 /\ 0 <= side a b p).


(** ** A crossing at right angles

    Two segments of length 4 through the origin, the first along the x
    axis and without flags, the second along the y axis with the flags
    [fl]; a firefly on the first, 1/512 before the crossing, that moves
    by 1/256 per step, and one 1/512 after it, that moves back.  The
    coordinates, phases and velocities are dyadic, so that the source
    computes them without rounding, up to the nudge of the two projected
    parameters. *)

Definition ex_track0 : track R := track_seg (Vec2 0 0) (Vec2 2 0) 0.
Definition ex_track1 (fl : N) : track R := track_seg (Vec2 0 0) (Vec2 0 2) fl.
Definition ex_tracks (fl : N) : list (track R) := [ex_track0; ex_track1 fl].

Definition ex_trail : list (vec2 R) := replicate 20 (Vec2 0 0).
Definition ex_ff : firefly R := Firefly 0 (2 - 1 / 512) (15 / 8) false ex_trail.
Definition ex_ff_back : firefly R :=
  Firefly 0 (2 + 1 / 512) (- (15 / 8)) false ex_trail.

(** Following the spec's words: the direction of travel implied by
    [d = phi2 - phi1] disagrees with the sign of the velocity [v]. *)
Definition signs_disagree (v d : R) : Prop :=
  (0 < v /\ d < 0) \/ (v < 0 /\ 0 < d).

(** ** A delayed bellflower of 5 steps, and a scene around it *)

Definition ex_bell : bellflower R :=
  bellflower_delay (Vec2 0 0) 1 3 (5 / 480).

Definition ex_scene : scene R :=
  scene_game (ex_tracks 2) [(0%nat, 1 / 2, 15 / 8)]
    [B_delay (Vec2 0 0) 1 3 (5 / 480)] [].

(** ** Phases of a periodic track *)

(** Following the spec's words, [x mod L] for real numbers: the
    representative of [x] in [0, L). *)
Definition Rmod (x L : R) : R := x - IZR (Int_part (x / L)) * L.

(** ** Well-formed tracks *)

(** A track as its constructor leaves it, for a positive radius: a circle
    has a positive radius and the length of its circumference; the length
    of a segment is not negative.  Dragging a track changes its origin
    only. *)
Definition wf_track (k : track R) : Prop :=
  match tk_shape k with
  | Cir r _ _ => 0 < r /\ tk_len k = 2 * PI * r
  | Seg _ => 0 <= tk_len k
  end.

(** ** A drag of two linked fireflies

    One segment of length 4 along the x axis, from (-2, 0) to (2, 0), with
    two fireflies at phases 1 and 3 in one link group.  In a window of 800
    by 480 the pointer goes down on the first firefly, at (-1, 0) of the
    board, and moves to (5, 0), beyond the end of the segment.  All the
    numbers involved are small integers: the source computes them without
    rounding. *)

Definition drag_scene0 : scene R :=
  scene_game [ex_track0] [(0%nat, 1 / 4, 1); (0%nat, 3 / 4, 1)] []
    [[0%nat; 1%nat]].

Definition drag_down : scene R := pton 800 480 365 240 drag_scene0.

Definition drag_scene : scene R := ptmove 800 480 575 240 drag_down.

Definition drag_track : track R := Track (Vec2 0 0) 4 0 false (Seg (Vec2 1 0)).

Definition drag_links : list (list (nat * R)) :=
  [[(1%nat, 2)]; [(0%nat, -2)]].

(** A firefly that moves by 10 per step on that segment. *)
Definition fast_ff : firefly R := Firefly 0 0 4800 false ex_trail.

(** ** The same runs in binary32

    The two segment tracks of the crossing above, a firefly that is about
    to cross the second one, a firefly at phase 0 that moves back by
    [1e-5 / 480], and the drag of two linked fireflies. *)

Definition b32_track0 : track binary32 :=
  track_seg (ops := b32_ops) (b32_point 0 0) (b32_point 2 0) 0.
Definition b32_track1 (fl : N) : track binary32 :=
  track_seg (ops := b32_ops) (b32_point 0 0) (b32_point 0 2) fl.
Definition b32_trail : list (vec2 binary32) := replicate 20 (b32_point 0 0).
Definition b32_ff : firefly binary32 :=
  Firefly 0 (b32_of_Q (1023 # 512)) (b32_of_Q (15 # 8)) false b32_trail.
Definition b32_slow_ff : firefly binary32 :=
  Firefly 0 (b32_of_Z 0) (b32_of_Q (-1 # 100000)) false b32_trail.

(** The two parameters of the crossing, nudged: [2 - 2 * 1e-6] and
    [2 + 2 * 1e-6], rounded. *)
Definition b32_t1 : binary32 :=
  SFsub 24 128 (b32_of_Z 2)
    (SFmul 24 128 (b32_of_Z 2) (b32_of_Q (1 # 1000000))).
Definition b32_t2 : binary32 :=
  SFadd 24 128 (b32_of_Z 2)
    (SFmul 24 128 (b32_of_Z 2) (b32_of_Q (1 # 1000000))).

Definition b32_drag_scene0 : scene binary32 :=
  scene_game (ops := b32_ops) [b32_track0]
    [(0%nat, b32_of_Q (1 # 4), b32_of_Z 1);
     (0%nat, b32_of_Q (3 # 4), b32_of_Z 1)] []
    [[0%nat; 1%nat]].

Definition b32_drag_down : scene binary32 :=
  pton (ops := b32_ops) 800 480 (b32_of_Z 365) (b32_of_Z 240)
    b32_drag_scene0.

(** ** Segments of the plane *)

(** [p] lies on the closed segment from [a] to [b]. *)
Definition on_segment (a b p : vec2 R) : Prop :=
  exists s : R, 0 <= s <= 1 /\ p = vadd a (vmul (vsub b a) s).

(** ** Segment tracks *)

(** A segment track as [track_seg] leaves it: a unit direction and a length
    that is not negative. *)
Definition unit_segment (k : track R) (e : vec2 R) : Prop :=
  tk_shape k = Seg e /\ vx e * vx e + vy e * vy e = 1 /\ 0 <= tk_len k.

(** The phase of the point of a segment nearest to the point at [phi] of its
    line. *)
Definition clamp_phase (len phi : R) : R :=
  if Rlt_dec phi 0 then 0 else if Rlt_dec len phi then len else phi.


(** * Properties *)

(** ** Comparisons of real numbers *)

Lemma Rltb_true (x y : R) : (x < y)%R -> Rltb x y = true.
Proof. intros H. unfold Rltb. destruct (Rlt_dec x y); [reflexivity | contradiction]. Qed.

Lemma Rltb_false (x y : R) : (y <= x)%R -> Rltb x y = false.
Proof. intros H. unfold Rltb. destruct (Rlt_dec x y); [lra | reflexivity]. Qed.

Lemma Rleb_true (x y : R) : (x <= y)%R -> Rleb x y = true.
Proof. intros H. unfold Rleb. destruct (Rle_dec x y); [reflexivity | contradiction]. Qed.

Lemma Rleb_false (x y : R) : (y < x)%R -> Rleb x y = false.
Proof. intros H. unfold Rleb. destruct (Rle_dec x y); [lra | reflexivity]. Qed.

Lemma Rltb_spec (x y : R) : Rltb x y = true <-> (x < y)%R.
Proof. unfold Rltb. destruct (Rlt_dec x y); split; intros; try easy. Qed.

Lemma Rleb_spec (x y : R) : Rleb x y = true <-> (x <= y)%R.
Proof. unfold Rleb. destruct (Rle_dec x y); split; intros; try easy. Qed.

(** ** The laws in the real numbers *)

Lemma Rltb_false_inv (x y : R) : Rltb x y = false -> y <= x.
Proof. unfold Rltb. destruct (Rlt_dec x y); [discriminate | lra]. Qed.

Lemma Rleb_false_inv (x y : R) : Rleb x y = false -> y < x.
Proof. unfold Rleb. destruct (Rle_dec x y); [discriminate | lra]. Qed.

(** Turn the comparisons of the goal and of the hypotheses into
    propositions. *)
Ltac Rprop :=
  cbn [fadd fsub fmul fdiv fneg fltb fleb fint R_ops] in *;
  repeat match goal with
  | H : Rltb _ _ = true |- _ => apply Rltb_spec in H
  | H : Rleb _ _ = true |- _ => apply Rleb_spec in H
  | H : Rltb _ _ = false |- _ => apply Rltb_false_inv in H
  | H : Rleb _ _ = false |- _ => apply Rleb_false_inv in H
  | |- Rltb _ _ = true => apply Rltb_true
  | |- Rleb _ _ = true => apply Rleb_true
  | |- Rltb _ _ = false => apply Rltb_false
  | |- Rleb _ _ = false => apply Rleb_false
  end.

Lemma R_fle_cases (x y : R) :
  Rleb x y = true -> Rltb x y = true \/ Rleb y x = true.
Proof.
  intros H. Rprop. destruct (Rle_lt_or_eq_dec x y H) as [Hlt | Heq].
  - left. Rprop. exact Hlt.
  - right. Rprop. lra.
Qed.

Lemma R_fle_zero_total (x : R) :
  True -> Rleb x 0 = true \/ Rleb 0 x = true.
Proof.
  intros _. destruct (Rle_dec x 0); [left | right]; Rprop; lra.
Qed.

Lemma R_fmul_neg_inv (x y : R) :
  Rltb (x * y) 0 = true ->
  (Rltb x 0 = true /\ Rltb 0 y = true) \/
  (Rltb 0 x = true /\ Rltb y 0 = true).
Proof.
  intros H. Rprop.
  destruct (Rtotal_order x 0) as [Hx | [Hx | Hx]].
  - left. split; Rprop; [exact Hx |].
    destruct (Rlt_dec 0 y) as [Hy | Hy]; [exact Hy | nra].
  - subst x. lra.
  - right. split; Rprop; [exact Hx |].
    destruct (Rlt_dec y 0) as [Hy | Hy]; [exact Hy | nra].
Qed.

Definition R_sign_laws : SignLaws R R_ops :=
  Build_SignLaws R R_ops (fun _ => True)
    (fun x y H => ltac:(Rprop; lra))
    R_fle_cases
    R_fle_zero_total
    (fun x y _ _ Hx Hy => ltac:(Rprop; nra))
    (fun x y _ _ Hx Hy => ltac:(Rprop; nra))
    (fun x y Hx Hy => ltac:(Rprop; nra))
    (fun x y Hx Hy => ltac:(Rprop; nra))
    R_fmul_neg_inv.

Lemma R_order_laws : OrderLaws R R_ops R_sign_laws.
Proof.
  split; simpl; intros; try exact I; Rprop; lra.
Qed.

Lemma R_rounding_laws : RoundingLaws R R_ops R_sign_laws.
Proof.
  split; simpl; intros; try exact I; Rprop; lra.
Qed.

(** ** The rule of signs in binary32 *)

Lemma shr_1_nonneg (mrs : shr_record) :
  (0 <= shr_m mrs)%Z -> (0 <= shr_m (shr_1 mrs))%Z.
Proof.
  destruct mrs as [m r s]. simpl.
  destruct m as [| [p | p |] | p]; simpl; lia.
Qed.

Lemma iter_shr_1_nonneg (p : positive) :
  forall mrs, (0 <= shr_m mrs)%Z -> (0 <= shr_m (iter_pos shr_1 p mrs))%Z.
Proof.
  induction p as [p IH | p IH |]; intros mrs Hm; simpl.
  - apply IH, IH, shr_1_nonneg, Hm.
  - apply IH, IH, Hm.
  - apply shr_1_nonneg, Hm.
Qed.

Lemma shr_fexp_nonneg (prec emax m e : Z) (l : location) :
  (0 <= m)%Z -> (0 <= shr_m (shr_fexp prec emax m e l).1)%Z.
Proof.
  intros Hm. unfold shr_fexp, shr.
  assert (H0 : (0 <= shr_m (shr_record_of_loc m l))%Z)
    by (destruct l as [| []]; exact Hm).
  destruct (_ - e)%Z; simpl; [exact H0 | | exact H0].
  apply iter_shr_1_nonneg. exact H0.
Qed.

Lemma round_nearest_even_nonneg (m : Z) (l : location) :
  (0 <= m)%Z -> (0 <= round_nearest_even m l)%Z.
Proof.
  intros Hm. unfold round_nearest_even.
  destruct l as [| []]; try lia. destruct (Z.even m); lia.
Qed.

(** A rounded value has the sign it was given: it is a zero, a number or
    an infinity of that sign. *)
Lemma binary_round_aux_sign (s : bool) (m : positive) (e : Z) (l : location) :
  let x := binary_round_aux 24 128 s (Zpos m) e l in
  x = S754_zero s \/ x = S754_infinity s \/ exists m' e', x = S754_finite s m' e'.
Proof.
  cbv zeta. unfold binary_round_aux.
  pose proof (shr_fexp_nonneg 24 128 (Zpos m) e l ltac:(lia)) as H1.
  destruct (shr_fexp 24 128 (Zpos m) e l) as [mrs' e'].
  pose proof (shr_fexp_nonneg 24 128
                (round_nearest_even (shr_m mrs') (loc_of_shr_record mrs'))
                e' loc_Exact
                (round_nearest_even_nonneg _ _ H1)) as H2.
  destruct (shr_fexp 24 128 _ e' loc_Exact) as [mrs'' e''].
  simpl in H2. destruct (shr_m mrs'') as [| m'' | m'']; [auto | | lia].
  destruct (e'' <=? 128 - 24)%Z; eauto.
Qed.

Lemma b32_mul_sign (sx sy : bool) (mx my : positive) (ex ey : Z) :
  let z := SFmul 24 128 (S754_finite sx mx ex) (S754_finite sy my ey) in
  z = S754_zero (xorb sx sy) \/ z = S754_infinity (xorb sx sy) \/
  exists m e, z = S754_finite (xorb sx sy) m e.
Proof. apply binary_round_aux_sign. Qed.

Lemma b32_flt_fle (x y : binary32) : SFltb x y = true -> SFleb x y = true.
Proof.
  unfold SFltb, SFleb. destruct (SFcompare x y) as [[| |] |]; congruence.
Qed.

Lemma SFcompare_antisym (x y : binary32) :
  SFcompare y x = option_map CompOpp (SFcompare x y).
Proof.
  destruct x as [sx | sx | | sx mx ex], y as [sy | sy | | sy my ey]; simpl;
    try reflexivity;
    try (destruct sx; reflexivity); try (destruct sy; reflexivity);
    try (destruct sx, sy; reflexivity).
  destruct sx, sy; try reflexivity; f_equal;
    rewrite (Z.compare_antisym ex ey);
    destruct (ex ?= ey)%Z; simpl; try reflexivity;
    rewrite (Pos.compare_cont_antisym mx my Eq); simpl;
    try reflexivity; rewrite CompOpp_involutive; reflexivity.
Qed.

Lemma b32_fle_cases (x y : binary32) :
  SFleb x y = true -> SFltb x y = true \/ SFleb y x = true.
Proof.
  unfold SFltb, SFleb. rewrite (SFcompare_antisym x y).
  destruct (SFcompare x y) as [[| |] |]; simpl; auto.
Qed.

Lemma b32_fle_zero_total (x : binary32) :
  b32_finite x ->
  SFleb x (b32_of_Z 0) = true \/ SFleb (b32_of_Z 0) x = true.
Proof. destruct x as [s | s | | s m e]; simpl; try tauto; destruct s; auto. Qed.

Ltac b32_product sx sy mx my ex ey :=
  let H := fresh "H" in
  pose proof (b32_mul_sign sx sy mx my ex ey) as H; cbv zeta in H;
  simpl xorb in H;
  destruct H as [H | [H | (? & ? & H)]]; rewrite H.

Lemma b32_fmul_nonpos (x y : binary32) :
  b32_finite x -> b32_finite y ->
  SFleb x (b32_of_Z 0) = true -> SFleb (b32_of_Z 0) y = true ->
  SFleb (SFmul 24 128 x y) (b32_of_Z 0) = true.
Proof.
  intros Hx Hy Hx0 Hy0.
  destruct x as [sx | sx | | sx mx ex], y as [sy | sy | | sy my ey];
    simpl in Hx, Hy; try contradiction;
    destruct sx, sy; simpl in Hx0, Hy0; try discriminate; try reflexivity.
  b32_product true false mx my ex ey; reflexivity.
Qed.

Lemma b32_fmul_nonpos' (x y : binary32) :
  b32_finite x -> b32_finite y ->
  SFleb (b32_of_Z 0) x = true -> SFleb y (b32_of_Z 0) = true ->
  SFleb (SFmul 24 128 x y) (b32_of_Z 0) = true.
Proof.
  intros Hx Hy Hx0 Hy0.
  destruct x as [sx | sx | | sx mx ex], y as [sy | sy | | sy my ey];
    simpl in Hx, Hy; try contradiction;
    destruct sx, sy; simpl in Hx0, Hy0; try discriminate; try reflexivity.
  b32_product false true mx my ex ey; reflexivity.
Qed.

Lemma b32_fmul_neg (x y : binary32) :
  SFltb x (b32_of_Z 0) = true -> SFltb (b32_of_Z 0) y = true ->
  SFleb (SFmul 24 128 x y) (b32_of_Z 0) = true.
Proof.
  intros Hx0 Hy0.
  destruct x as [sx | sx | | sx mx ex], y as [sy | sy | | sy my ey];
    try discriminate;
    destruct sx, sy; simpl in Hx0, Hy0; try discriminate; try reflexivity.
  b32_product true false mx my ex ey; reflexivity.
Qed.

Lemma b32_fmul_neg' (x y : binary32) :
  SFltb (b32_of_Z 0) x = true -> SFltb y (b32_of_Z 0) = true ->
  SFleb (SFmul 24 128 x y) (b32_of_Z 0) = true.
Proof.
  intros Hx0 Hy0.
  destruct x as [sx | sx | | sx mx ex], y as [sy | sy | | sy my ey];
    try discriminate;
    destruct sx, sy; simpl in Hx0, Hy0; try discriminate; try reflexivity.
  b32_product false true mx my ex ey; reflexivity.
Qed.

Lemma b32_fmul_neg_inv (x y : binary32) :
  SFltb (SFmul 24 128 x y) (b32_of_Z 0) = true ->
  (SFltb x (b32_of_Z 0) = true /\ SFltb (b32_of_Z 0) y = true) \/
  (SFltb (b32_of_Z 0) x = true /\ SFltb y (b32_of_Z 0) = true).
Proof.
  destruct x as [sx | sx | | sx mx ex], y as [sy | sy | | sy my ey];
    try (simpl; discriminate);
    try (destruct sx, sy; simpl; intros H; (discriminate H || auto); fail).
  b32_product sx sy mx my ex ey;
    destruct sx, sy; simpl; intros H0; (discriminate H0 || auto).
Qed.

Definition b32_sign_laws : SignLaws binary32 b32_ops :=
  Build_SignLaws binary32 b32_ops b32_finite b32_flt_fle b32_fle_cases
    b32_fle_zero_total
    b32_fmul_nonpos b32_fmul_nonpos' b32_fmul_neg b32_fmul_neg'
    b32_fmul_neg_inv.

(** ** Rounding in binary32

    [SFadd] and [SFsub] on numbers of the format, read through
    [b32_scaled]: the result is a value of the format, an infinity
    included, and its value is the sum, or the difference, of the values of
    the operands, rounded by [round_value].  [round_value] keeps the order
    and leaves the value of a number of the format as it is. *)

Section Binary32.
Local Open Scope Z_scope.

(** The record that [shr_1] shifts. *)

Ltac bool_cases :=
  repeat match goal with
  | |- context [?a <=? ?b] => destruct (Z.leb_spec a b)
  | |- context [?a =? ?b] => destruct (Z.eqb_spec a b)
  | |- context [?a <? ?b] => destruct (Z.ltb_spec a b)
  end; cbn [negb andb orb]; try reflexivity; try lia.

Lemma shr_1_inv z P mrs :
  0 < P -> 0 <= shr_m mrs -> shr_inv z P mrs ->
  shr_inv z (2 * P) (shr_1 mrs) /\ 0 <= shr_m (shr_1 mrs).
Proof.
  intros HP Hm (rem & Hz & Hrem & Hr & Hs).
  destruct mrs as [m r s]. cbn [shr_m shr_r shr_s] in *.
  unfold shr_inv.
  destruct m as [| [p | p |] | p]; try lia; cbn [shr_1 shr_m shr_r shr_s];
    [| rewrite (Pos2Z.inj_xI p) in Hz | rewrite (Pos2Z.inj_xO p) in Hz |].
  - split; [| lia]. exists rem. split; [lia |]. split; [lia |]. subst r s.
    split; bool_cases.
  - split; [| lia]. exists (P + rem). split; [lia |]. split; [lia |]. subst r s.
    split; bool_cases.
  - split; [| lia]. exists rem. split; [lia |]. split; [lia |]. subst r s.
    split; bool_cases.
  - split; [| lia]. exists (P + rem). split; [lia |]. split; [lia |]. subst r s.
    split; bool_cases.
Qed.

Lemma iter_pos_nat {A} (f : A -> A) (p : positive) (x : A) :
  iter_pos f p x = Nat.iter (Pos.to_nat p) f x.
Proof.
  revert x. induction p as [p IH | p IH |]; intros x; cbn [iter_pos].
  - rewrite !IH, Pos2Nat.inj_xI. cbn [Nat.mul]. rewrite Nat.add_0_r.
    rewrite <- Nat.iter_add. rewrite <- Nat.iter_succ_r. reflexivity.
  - rewrite !IH, Pos2Nat.inj_xO. cbn [Nat.mul]. rewrite Nat.add_0_r.
    rewrite <- Nat.iter_add. reflexivity.
  - reflexivity.
Qed.

Lemma iter_shr_inv z (n : nat) m :
  0 <= m ->
  z = m ->
  let mrs := Nat.iter n shr_1 (Build_shr_record m false false) in
  shr_inv z (2 ^ Z.of_nat n) mrs /\ 0 <= shr_m mrs.
Proof.
  intros Hm Hz. cbv zeta. induction n as [| n IH].
  - simpl Nat.iter. change (2 ^ Z.of_nat 0) with 1. split; [| exact Hm].
    exists 0. cbn [shr_m shr_r shr_s]. repeat split; try reflexivity; try lia.
  - simpl Nat.iter. destruct IH as [IH1 IH2].
    rewrite Nat2Z.inj_succ, Z.pow_succ_r by lia.
    apply shr_1_inv; try assumption. apply Z.pow_pos_nonneg; lia.
Qed.

(** What the rounding of a shifted record is. *)
Lemma shr_inv_rne z k mrs :
  0 <= k -> shr_inv z (2 ^ k) mrs ->
  round_nearest_even (shr_m mrs) (loc_of_shr_record mrs) = rne z k.
Proof.
  intros Hk (rem & Hz & Hrem & Hr & Hs).
  assert (HP : 0 < 2 ^ k) by (apply Z.pow_pos_nonneg; lia).
  unfold rne.
  assert (Hq : z / 2 ^ k = shr_m mrs).
  { symmetry. apply (Z.div_unique z (2 ^ k) (shr_m mrs) rem); [lia |].
    rewrite Hz. ring. }
  assert (Hm : z mod 2 ^ k = rem).
  { symmetry. apply (Z.mod_unique z (2 ^ k) (shr_m mrs) rem); [lia |].
    rewrite Hz. ring. }
  cbv zeta. rewrite Hq, Hm.
  destruct mrs as [m r s]. cbn [shr_m shr_r shr_s] in *. subst r s.
  clear Hq Hm Hz. revert HP Hrem. generalize (2 ^ k) as P. intros P HP Hrem.
  destruct (Z.leb_spec P (2 * rem)), (Z.eqb_spec rem 0), (Z.eqb_spec (2 * rem) P),
    (Z.ltb_spec (2 * rem) P), (Z.ltb_spec P (2 * rem));
    cbn [negb andb loc_of_shr_record round_nearest_even]; try reflexivity; try lia.
Qed.

(** The number of bits of a mantissa. *)
Lemma digits2_log2 (m : positive) :
  Z.pos (digits2_pos m) = Z.log2 (Z.pos m) + 1.
Proof.
  assert (H : forall p, digits2_pos p = Pos.size p).
  { induction p; simpl; congruence. }
  rewrite H. destruct m; simpl; lia.
Qed.

Lemma digits2_bounds (m : positive) :
  2 ^ (Z.pos (digits2_pos m) - 1) <= Z.pos m < 2 ^ Z.pos (digits2_pos m).
Proof.
  rewrite digits2_log2.
  replace (Z.log2 (Z.pos m) + 1 - 1) with (Z.log2 (Z.pos m)) by lia.
  apply Z.log2_spec. lia.
Qed.

Lemma iter_xO (m d : positive) :
  Z.pos (Pos.iter xO m d) = Z.pos m * 2 ^ Z.pos d.
Proof.
  induction d as [| d IH] using Pos.peano_ind.
  - simpl Pos.iter. rewrite Pos2Z.inj_xO. change (2 ^ 1) with 2. lia.
  - rewrite Pos.iter_succ, Pos2Z.inj_xO, IH, Pos2Z.inj_succ.
    rewrite Z.pow_succ_r by lia. ring.
Qed.

Lemma fexp_b32 (e : Z) : fexp 24 128 e = Z.max (e - 24) (-149).
Proof. reflexivity. Qed.

Lemma pow2_pos (a : Z) : 0 <= a -> 0 < 2 ^ a.
Proof. intros. apply Z.pow_pos_nonneg; lia. Qed.

Lemma pow2_add (a b : Z) : 0 <= a -> 0 <= b -> 2 ^ (a + b) = 2 ^ a * 2 ^ b.
Proof. intros. apply Z.pow_add_r; assumption. Qed.

Lemma pow2_le (a b : Z) : 0 <= a <= b -> 2 ^ a <= 2 ^ b.
Proof. intros. apply Z.pow_le_mono_r; lia. Qed.

Lemma log2_digits (z d : Z) :
  0 < d -> 2 ^ (d - 1) <= z < 2 ^ d -> Z.log2 z + 1 = d.
Proof.
  intros Hd Hz. rewrite (Z.log2_unique z (d - 1)); try lia.
  replace (Z.succ (d - 1)) with d by lia. exact Hz.
Qed.

Lemma rne_scale (m n j : Z) :
  0 <= n -> 0 <= j -> rne (m * 2 ^ j) (n + j) = rne m n.
Proof.
  intros Hn Hj. unfold rne. cbv zeta.
  rewrite (pow2_add n j) by assumption.
  pose proof (pow2_pos n Hn) as Pn. pose proof (pow2_pos j Hj) as Pj.
  rewrite Z.div_mul_cancel_r by lia.
  rewrite Z.mul_mod_distr_r by lia.
  pose proof (Z.mod_pos_bound m (2 ^ n) Pn) as Hr.
  revert Hr. generalize (m mod 2 ^ n) as r. generalize (m / 2 ^ n) as q.
  revert Pn Pj. generalize (2 ^ n) as P. generalize (2 ^ j) as J.
  intros J P Pn Pj q r Hr.
  destruct (Z.ltb_spec (2 * r) P), (Z.ltb_spec (2 * (r * J)) (P * J)),
    (Z.ltb_spec P (2 * r)), (Z.ltb_spec (P * J) (2 * (r * J)));
    try reflexivity; nia.
Qed.

Lemma rne_exact (m k : Z) : 0 <= k -> rne (m * 2 ^ k) k = m.
Proof.
  intros Hk. unfold rne. cbv zeta.
  pose proof (pow2_pos k Hk) as Pk.
  rewrite Z.div_mul, Z.mod_mul by lia.
  destruct (Z.ltb_spec (2 * 0) (2 ^ k)); [reflexivity | lia].
Qed.

Lemma rne_0 (z : Z) : rne z 0 = z.
Proof.
  unfold rne. change (2 ^ 0) with 1. rewrite Z.div_1_r, Z.mod_1_r.
  reflexivity.
Qed.

Lemma rne_bounds (z k : Z) :
  0 <= k -> z / 2 ^ k <= rne z k <= z / 2 ^ k + 1.
Proof.
  intros Hk. unfold rne. cbv zeta.
  destruct (_ <? _); [lia |]. destruct (_ <? _); [lia |].
  destruct (Z.even _); lia.
Qed.

Lemma rne_mono (z1 z2 k : Z) :
  0 <= k -> z1 <= z2 -> rne z1 k <= rne z2 k.
Proof.
  intros Hk Hz.
  pose proof (pow2_pos k Hk) as Pk.
  pose proof (Z.div_le_mono z1 z2 (2 ^ k) Pk Hz) as Hq.
  destruct (Z.eq_dec (z1 / 2 ^ k) (z2 / 2 ^ k)) as [E | N].
  - unfold rne. cbv zeta. rewrite <- E.
    assert (Hr : z1 mod 2 ^ k <= z2 mod 2 ^ k).
    { pose proof (Z.div_mod z1 (2 ^ k)). pose proof (Z.div_mod z2 (2 ^ k)).
      rewrite <- E in H0. lia. }
    revert Hr. generalize (z1 mod 2 ^ k) as r1. generalize (z2 mod 2 ^ k) as r2.
    generalize (2 ^ k) as P. intros P r2 r1 Hr.
    destruct (Z.ltb_spec (2 * r1) P), (Z.ltb_spec (2 * r2) P),
      (Z.ltb_spec P (2 * r1)), (Z.ltb_spec P (2 * r2)),
      (Z.even (z1 / P)); lia.
  - pose proof (rne_bounds z1 k Hk). pose proof (rne_bounds z2 k Hk). lia.
Qed.

Lemma bounded_canonical (m : positive) (e : Z) :
  bounded 24 128 m e = true <->
  Z.max (Z.pos (digits2_pos m) + e - 24) (-149) = e /\ e <= 104.
Proof.
  unfold bounded, canonical_mantissa. rewrite fexp_b32.
  change (128 - 24) with 104.
  rewrite andb_true_iff, Z.eqb_eq, Z.leb_le. reflexivity.
Qed.

(** The value of a canonical mantissa and exponent. *)
Lemma canonical_value (m : positive) (e : Z) :
  Z.max (Z.pos (digits2_pos m) + e - 24) (-149) = e ->
  let z := Z.pos m * 2 ^ (e + 149) in
  0 < z /\
  (e <= 104 -> z < 2 ^ 277) /\
  (104 < e -> 2 ^ 277 <= z) /\
  round_scaled z = Z.min z (2 ^ 277).
Proof.
  intros Hc z.
  pose proof (digits2_bounds m) as Hd.
  set (d := Z.pos (digits2_pos m)) in *.
  assert (Hd0 : 0 < d) by (unfold d; lia).
  assert (He : -149 <= e) by lia.
  pose proof (pow2_pos (e + 149) ltac:(lia)) as Pe.
  assert (Hz0 : 0 < z) by (unfold z; lia).
  assert (Hdz : Z.log2 z + 1 = d + (e + 149)).
  { apply log2_digits; [lia |]. unfold z.
    replace (d + (e + 149) - 1) with (d - 1 + (e + 149)) by lia.
    rewrite (pow2_add (d - 1) (e + 149)), (pow2_add d (e + 149)) by lia.
    nia. }
  split; [exact Hz0 |]. split; [| split].
  - intros Hle.
    assert (d <= 24) by lia.
    pose proof (pow2_le d 24 ltac:(lia)).
    pose proof (pow2_le (e + 149) 253 ltac:(lia)).
    change (2 ^ 277) with (2 ^ 24 * 2 ^ 253). unfold z. nia.
  - intros Hgt.
    assert (d = 24) by lia.
    pose proof (pow2_le 254 (e + 149) ltac:(lia)).
    change (2 ^ 277) with (2 ^ 23 * 2 ^ 254). unfold z.
    replace (d - 1) with 23 in Hd by lia. nia.
  - unfold round_scaled. cbv zeta. rewrite Hdz.
    destruct (Z.max_spec 0 (d + (e + 149) - 24)) as [[H1 ->] | [H1 ->]].
    + assert (e + 149 = d + (e + 149) - 24) as <- by lia.
      unfold z. rewrite rne_exact by lia. reflexivity.
    + rewrite rne_0. change (2 ^ 0) with 1. rewrite Z.mul_1_r. reflexivity.
Qed.

Lemma binary_round_aux_exact (s : bool) (mz : positive) (ez : Z) :
  fexp 24 128 (Z.pos (digits2_pos mz) + ez) = ez ->
  binary_round_aux 24 128 s (Z.pos mz) ez loc_Exact =
  if ez <=? 104 then S754_finite s mz ez else S754_infinity s.
Proof.
  intros H. unfold binary_round_aux, shr_fexp. cbn [Zdigits2].
  rewrite H, Z.sub_diag.
  cbn [shr shr_record_of_loc shr_m loc_of_shr_record round_nearest_even
       Zdigits2].
  rewrite H, Z.sub_diag. cbn [shr shr_m shr_record_of_loc].
  reflexivity.
Qed.

Lemma exact_scaled (s : bool) (mz : positive) (ez : Z) :
  Z.max (Z.pos (digits2_pos mz) + ez - 24) (-149) = ez ->
  let r := if ez <=? 104 then S754_finite s mz ez else S754_infinity s in
  b32_ordered r /\
  b32_scaled r = cond_Zopp s (Z.min (Z.pos mz * 2 ^ (ez + 149)) (2 ^ 277)).
Proof.
  intros Hc. destruct (canonical_value mz ez Hc) as (H0 & Hlt & Hge & _).
  cbv zeta. destruct (Z.leb_spec ez 104) as [Hle | Hgt].
  - split; [apply bounded_canonical; split; assumption |].
    cbn [b32_scaled]. rewrite Z.min_l by (specialize (Hlt Hle); lia).
    reflexivity.
  - split; [exact I |]. cbn [b32_scaled].
    rewrite Z.min_r by (specialize (Hge Hgt); lia). reflexivity.
Qed.

Lemma second_shift (s : bool) (m' E : Z) :
  -149 <= E -> 2 ^ 23 <= m' <= 2 ^ 24 ->
  let r :=
    let '(mrs, e) := shr_fexp 24 128 m' E loc_Exact in
    match shr_m mrs with
    | 0 => S754_zero s
    | Z.pos m => if e <=? 128 - 24 then S754_finite s m e
                 else S754_infinity s
    | Z.neg _ => S754_nan
    end in
  b32_ordered r /\
  b32_scaled r = cond_Zopp s (Z.min (m' * 2 ^ (E + 149)) (2 ^ 277)).
Proof.
  intros HE Hm. destruct (Z.eq_dec m' (2 ^ 24)) as [-> | Hne].
  - unfold shr_fexp. change (Zdigits2 (2 ^ 24)) with 25. rewrite fexp_b32.
    replace (Z.max (25 + E - 24) (-149) - E) with 1 by lia.
    cbn [shr iter_pos shr_record_of_loc].
    change (shr_1 {| shr_m := 2 ^ 24; shr_r := false; shr_s := false |})
      with {| shr_m := 8388608; shr_r := false; shr_s := false |}.
    cbn [shr_m]. change (128 - 24) with 104.
    replace (2 ^ 24 * 2 ^ (E + 149)) with (8388608 * 2 ^ (E + 1 + 149)).
    + apply (exact_scaled s 8388608 (E + 1)).
      change (Z.pos (digits2_pos 8388608)) with 24. lia.
    + replace (E + 1 + 149) with (1 + (E + 149)) by lia.
      rewrite pow2_add by lia. change (2 ^ 1) with 2. change (2 ^ 24) with 16777216.
      ring.
  - destruct m' as [| p | p]; try lia.
    assert (Hd : Z.pos (digits2_pos p) = 24).
    { rewrite digits2_log2. apply log2_digits; [lia |].
      change (24 - 1) with 23. lia. }
    unfold shr_fexp. cbn [Zdigits2]. rewrite Hd, fexp_b32.
    replace (Z.max (24 + E - 24) (-149) - E) with 0 by lia.
    cbn [shr shr_record_of_loc shr_m]. change (128 - 24) with 104.
    apply exact_scaled. rewrite Hd. lia.
Qed.

Lemma binary_round_scaled (s : bool) (m : positive) (e : Z) :
  -149 <= e ->
  b32_ordered (binary_round 24 128 s m e) /\
  b32_scaled (binary_round 24 128 s m e) =
  cond_Zopp s (round_scaled (Z.pos m * 2 ^ (e + 149))).
Proof.
  intros He. unfold binary_round, shl_align. rewrite fexp_b32.
  pose proof (digits2_bounds m) as Hd.
  set (d := Z.pos (digits2_pos m)) in *.
  assert (Hd0 : 0 < d) by (unfold d; lia).
  destruct (Z.max (d + e - 24) (-149) - e) as [| q | q] eqn:HEe.
  - assert (Hc : Z.max (d + e - 24) (-149) = e) by lia.
    rewrite binary_round_aux_exact by (rewrite fexp_b32; exact Hc).
    destruct (canonical_value m e Hc) as (_ & _ & _ & ->).
    apply exact_scaled. exact Hc.
  - assert (Hq : Z.pos q = d - 24) by lia.
    assert (Hr : binary_round_aux 24 128 s (Z.pos m) e loc_Exact =
                 let '(mrs, e0) :=
                   shr_fexp 24 128 (rne (Z.pos m) (Z.pos q)) (e + Z.pos q)
                     loc_Exact in
                 match shr_m mrs with
                 | 0 => S754_zero s
                 | Z.pos m0 => if e0 <=? 128 - 24 then S754_finite s m0 e0
                               else S754_infinity s
                 | Z.neg _ => S754_nan
                 end).
    { unfold binary_round_aux. unfold shr_fexp at 1. cbn [Zdigits2].
      fold d. rewrite fexp_b32, HEe. cbn [shr shr_record_of_loc].
      rewrite iter_pos_nat.
      destruct (iter_shr_inv (Z.pos m) (Pos.to_nat q) (Z.pos m)
                  ltac:(lia) eq_refl) as [Hinv _].
      rewrite positive_nat_Z in Hinv.
      rewrite (shr_inv_rne (Z.pos m) (Z.pos q) _ ltac:(lia) Hinv). reflexivity. }
    rewrite Hr. clear Hr.
    assert (Hm' : 2 ^ 23 <= rne (Z.pos m) (Z.pos q) <= 2 ^ 24).
    { pose proof (rne_bounds (Z.pos m) (Z.pos q) ltac:(lia)) as Hb.
      pose proof (pow2_pos (Z.pos q) ltac:(lia)) as Pq.
      assert (2 ^ 23 <= Z.pos m / 2 ^ Z.pos q).
      { apply Z.div_le_lower_bound; [lia |].
        rewrite Z.mul_comm, <- pow2_add by lia.
        replace (23 + Z.pos q) with (d - 1) by lia. lia. }
      assert (Z.pos m / 2 ^ Z.pos q < 2 ^ 24).
      { apply Z.div_lt_upper_bound; [lia |].
        rewrite Z.mul_comm, <- pow2_add by lia.
        replace (24 + Z.pos q) with d by lia. lia. }
      lia. }
    destruct (second_shift s (rne (Z.pos m) (Z.pos q)) (e + Z.pos q)
                ltac:(lia) Hm') as [Ho Hs].
    cbv zeta in Ho, Hs. split; [exact Ho |]. rewrite Hs. f_equal.
    unfold round_scaled. cbv zeta.
    assert (Hdz : Z.log2 (Z.pos m * 2 ^ (e + 149)) + 1 = d + (e + 149)).
    { pose proof (pow2_pos (e + 149) ltac:(lia)) as Pe.
      apply log2_digits; [lia |].
      replace (d + (e + 149) - 1) with (d - 1 + (e + 149)) by lia.
      rewrite (pow2_add (d - 1) (e + 149)), (pow2_add d (e + 149)) by lia.
      nia. }
    rewrite Hdz.
    replace (Z.max 0 (d + (e + 149) - 24)) with (Z.pos q + (e + 149)) by lia.
    rewrite rne_scale by lia.
    replace (e + Z.pos q + 149) with (Z.pos q + (e + 149)) by lia.
    reflexivity.
  - assert (Hq : Z.pos q = e - Z.max (d + e - 24) (-149)) by lia.
    set (E := Z.max (d + e - 24) (-149)) in *.
    assert (HE : -149 <= E) by (unfold E; lia).
    assert (Hdq : Z.pos (digits2_pos (Pos.iter xO m q)) = d + Z.pos q).
    { rewrite digits2_log2, iter_xO.
      pose proof (pow2_pos (Z.pos q) ltac:(lia)) as Pq.
      apply log2_digits; [lia |].
      replace (d + Z.pos q - 1) with (d - 1 + Z.pos q) by lia.
      rewrite (pow2_add (d - 1) (Z.pos q)), (pow2_add d (Z.pos q)) by lia.
      nia. }
    assert (Hc : Z.max (Z.pos (digits2_pos (Pos.iter xO m q)) + E - 24) (-149)
                 = E).
    { rewrite Hdq. replace (d + Z.pos q + E - 24) with (d + e - 24) by lia.
      reflexivity. }
    rewrite binary_round_aux_exact by (rewrite fexp_b32; exact Hc).
    assert (Hz : Z.pos (Pos.iter xO m q) * 2 ^ (E + 149) =
                 Z.pos m * 2 ^ (e + 149)).
    { rewrite iter_xO. replace (e + 149) with (Z.pos q + (E + 149)) by lia.
      rewrite (pow2_add (Z.pos q) (E + 149)) by lia. ring. }
    destruct (canonical_value _ _ Hc) as (_ & _ & _ & Hr).
    cbv zeta in Hr. rewrite <- Hz, Hr.
    apply exact_scaled. exact Hc.
Qed.

(** ** Rounding keeps the order *)

Lemma round_facts (z : Z) :
  0 < z ->
  let k := Z.max 0 (Z.log2 z + 1 - 24) in
  0 < rne z k <= 2 ^ 24 /\ (0 < k -> 2 ^ 23 <= rne z k).
Proof.
  intros Hz k.
  pose proof (Z.log2_spec z Hz) as Hl.
  pose proof (Z.log2_nonneg z) as Hl0.
  assert (Hk : 0 <= k) by (unfold k; lia).
  pose proof (pow2_pos k Hk) as Pk.
  pose proof (rne_bounds z k Hk) as Hb.
  assert (Hup : z / 2 ^ k < 2 ^ 24).
  { apply Z.div_lt_upper_bound; [lia |].
    rewrite <- pow2_add by lia.
    pose proof (pow2_le (Z.succ (Z.log2 z)) (k + 24) ltac:(unfold k; lia)).
    lia. }
  assert (Hlow : 0 < k -> 2 ^ 23 <= z / 2 ^ k).
  { intros Hk0. apply Z.div_le_lower_bound; [lia |].
    rewrite <- pow2_add by lia.
    replace (k + 23) with (Z.log2 z) by (unfold k in *; lia). lia. }
  split; [split |]; try lia.
  destruct (Z.eq_dec k 0) as [E | N].
  - rewrite E, rne_0. exact Hz.
  - specialize (Hlow ltac:(lia)). lia.
Qed.

Lemma round_scaled_pos (z : Z) : 0 < z -> 0 < round_scaled z.
Proof.
  intros Hz. unfold round_scaled. cbv zeta.
  destruct (round_facts z Hz) as [[H _] _]. cbv zeta in H.
  pose proof (pow2_pos (Z.max 0 (Z.log2 z + 1 - 24)) ltac:(lia)).
  assert (0 < 2 ^ 277) by (apply pow2_pos; lia).
  apply Z.min_glb_lt; [nia | assumption].
Qed.

Lemma round_scaled_mono (z1 z2 : Z) :
  0 < z1 -> z1 <= z2 -> round_scaled z1 <= round_scaled z2.
Proof.
  intros H1 H12. assert (H2 : 0 < z2) by lia.
  unfold round_scaled. cbv zeta.
  apply Z.min_le_compat_r.
  destruct (round_facts z1 H1) as [[_ Hu1] _].
  destruct (round_facts z2 H2) as [[Hp2 _] Hl2]. cbv zeta in Hu1, Hp2, Hl2.
  pose proof (Z.log2_le_mono z1 z2 H12) as Hl.
  set (k1 := Z.max 0 (Z.log2 z1 + 1 - 24)) in *.
  set (k2 := Z.max 0 (Z.log2 z2 + 1 - 24)) in *.
  assert (Hk1 : 0 <= k1) by (unfold k1; lia).
  assert (Hk : k1 <= k2) by (unfold k1, k2; lia).
  destruct (Z.eq_dec k1 k2) as [E | N].
  - rewrite <- E. pose proof (rne_mono z1 z2 k1 Hk1 H12).
    pose proof (pow2_pos k1 Hk1). nia.
  - specialize (Hl2 ltac:(lia)).
    pose proof (pow2_le (k1 + 1) k2 ltac:(lia)) as Hp.
    rewrite pow2_add in Hp by lia. change (2 ^ 1) with 2 in Hp.
    pose proof (pow2_pos k1 Hk1).
    change (2 ^ 24) with (2 * 2 ^ 23) in Hu1.
    assert (0 < 2 ^ 23) by (apply pow2_pos; lia).
    generalize dependent (2 ^ 23). generalize dependent (2 ^ k1).
    generalize dependent (2 ^ k2). intros. nia.
Qed.

Lemma round_value_pos (z : Z) : 0 < z -> round_value z = round_scaled z.
Proof. destruct z; try lia; reflexivity. Qed.

Lemma round_value_neg (z : Z) : 0 < z -> round_value (- z) = - round_scaled z.
Proof. destruct z; try lia; reflexivity. Qed.

Lemma round_value_mono (z1 z2 : Z) :
  z1 <= z2 -> round_value z1 <= round_value z2.
Proof.
  intros H.
  destruct (Z.lt_trichotomy z1 0) as [N1 | [-> | P1]];
    destruct (Z.lt_trichotomy z2 0) as [N2 | [-> | P2]]; try lia.
  - replace z1 with (- - z1) by lia. replace z2 with (- - z2) by lia.
    rewrite !round_value_neg by lia.
    pose proof (round_scaled_mono (- z2) (- z1) ltac:(lia) ltac:(lia)). lia.
  - replace z1 with (- - z1) by lia. rewrite round_value_neg by lia.
    pose proof (round_scaled_pos (- z1) ltac:(lia)). simpl. lia.
  - replace z1 with (- - z1) by lia. rewrite round_value_neg by lia.
    rewrite (round_value_pos z2) by lia.
    pose proof (round_scaled_pos (- z1) ltac:(lia)).
    pose proof (round_scaled_pos z2 ltac:(lia)). lia.
  - rewrite (round_value_pos z2) by lia.
    pose proof (round_scaled_pos z2 ltac:(lia)). simpl. lia.
  - rewrite !round_value_pos by lia. apply round_scaled_mono; lia.
Qed.

(** ** The order of binary32 is the order of the values *)

Lemma finite_ordered (x : binary32) : b32_finite x -> b32_ordered x.
Proof. destruct x; simpl; auto. Qed.

Lemma bounded_value (m : positive) (e : Z) :
  bounded 24 128 m e = true ->
  0 < Z.pos m * 2 ^ (e + 149) < 2 ^ 277 /\
  round_scaled (Z.pos m * 2 ^ (e + 149)) = Z.pos m * 2 ^ (e + 149).
Proof.
  intros Hb. apply bounded_canonical in Hb as [Hc He].
  destruct (canonical_value m e Hc) as (H0 & Hlt & _ & Hr).
  cbv zeta in *. specialize (Hlt He). rewrite Hr. split; [lia |].
  apply Z.min_l. lia.
Qed.

Lemma lex_compare (m1 m2 : positive) (e1 e2 : Z) :
  bounded 24 128 m1 e1 = true -> bounded 24 128 m2 e2 = true ->
  match e1 ?= e2 with
  | Lt => Lt
  | Gt => Gt
  | Eq => Pos.compare_cont Eq m1 m2
  end = (Z.pos m1 * 2 ^ (e1 + 149) ?= Z.pos m2 * 2 ^ (e2 + 149)).
Proof.
  intros H1 H2.
  apply bounded_canonical in H1 as [C1 _], H2 as [C2 _].
  pose proof (digits2_bounds m1) as D1. pose proof (digits2_bounds m2) as D2.
  set (d1 := Z.pos (digits2_pos m1)) in *.
  set (d2 := Z.pos (digits2_pos m2)) in *.
  assert (0 < d1) by (unfold d1; lia). assert (0 < d2) by (unfold d2; lia).
  assert (Hlt : forall (ma mb : positive) (da db ea eb : Z),
             0 < da -> 0 < db ->
             2 ^ (da - 1) <= Z.pos ma < 2 ^ da ->
             2 ^ (db - 1) <= Z.pos mb < 2 ^ db ->
             Z.max (da + ea - 24) (-149) = ea ->
             Z.max (db + eb - 24) (-149) = eb ->
             ea < eb ->
             Z.pos ma * 2 ^ (ea + 149) < Z.pos mb * 2 ^ (eb + 149)).
  { intros ma mb da db ea eb Ha Hb Da Db Ca Cb Hab.
    assert (db = 24) by lia. subst db. change (24 - 1) with 23 in Db.
    pose proof (pow2_le da 24 ltac:(lia)).
    pose proof (pow2_le (1 + (ea + 149)) (eb + 149) ltac:(lia)) as Hp.
    rewrite pow2_add in Hp by lia. change (2 ^ 1) with 2 in Hp.
    pose proof (pow2_pos (ea + 149) ltac:(lia)).
    change (2 ^ 24) with (2 * 2 ^ 23) in *.
    assert (0 < 2 ^ 23) by (apply pow2_pos; lia).
    generalize dependent (2 ^ 23). generalize dependent (2 ^ (ea + 149)).
    generalize dependent (2 ^ (eb + 149)). generalize dependent (2 ^ da).
    intros. nia. }
  destruct (Z.compare_spec e1 e2) as [E | L | G].
  - subst e2. pose proof (pow2_pos (e1 + 149) ltac:(lia)).
    change (Pos.compare_cont Eq m1 m2) with (m1 ?= m2)%positive.
    destruct (Pos.compare_spec m1 m2); symmetry;
      [apply Z.compare_eq_iff; subst; reflexivity
      | apply Z.compare_lt_iff; nia | apply Z.compare_gt_iff; nia].
  - symmetry. apply Z.compare_lt_iff. apply (Hlt m1 m2 d1 d2); assumption.
  - symmetry. apply Z.compare_gt_iff. apply (Hlt m2 m1 d2 d1); assumption.
Qed.

Lemma SFcompare_finite (sx sy : bool) (mx my : positive) (ex ey : Z) :
  bounded 24 128 mx ex = true -> bounded 24 128 my ey = true ->
  SFcompare (S754_finite sx mx ex) (S754_finite sy my ey) =
  Some (cond_Zopp sx (Z.pos mx * 2 ^ (ex + 149)) ?=
        cond_Zopp sy (Z.pos my * 2 ^ (ey + 149))).
Proof.
  intros Hx Hy. pose proof (lex_compare mx my ex ey Hx Hy) as Hlex.
  pose proof (lex_compare my mx ey ex Hy Hx) as Hlex'.
  apply bounded_value in Hx as [Hx _]. apply bounded_value in Hy as [Hy _].
  cbn [SFcompare]. f_equal. symmetry.
  destruct sx, sy; cbn [cond_Zopp].
  - rewrite Z.compare_opp, <- Hlex'.
    rewrite (Z.compare_antisym ex ey).
    destruct (ex ?= ey); cbn [CompOpp]; try reflexivity.
    rewrite (Pos.compare_cont_antisym mx my Eq). reflexivity.
  - apply Z.compare_lt_iff; lia.
  - apply Z.compare_gt_iff; lia.
  - symmetry. exact Hlex.
Qed.

Lemma SFcompare_scaled (x y : binary32) :
  b32_ordered x -> b32_ordered y ->
  SFcompare x y = Some (b32_scaled x ?= b32_scaled y).
Proof.
  assert (HI : 0 < 2 ^ 277) by (apply pow2_pos; lia).
  destruct x as [sx | sx | | sx mx ex], y as [sy | sy | | sy my ey];
    cbn [b32_ordered]; try contradiction; intros Hx Hy;
    try (apply SFcompare_finite; assumption);
    try (apply bounded_value in Hx as [Hx _]);
    try (apply bounded_value in Hy as [Hy _]);
    cbn [SFcompare b32_scaled]; f_equal; symmetry;
    try destruct sx; try destruct sy; cbn [cond_Zopp];
    first [apply Z.compare_eq_iff; lia | apply Z.compare_lt_iff; lia
          | apply Z.compare_gt_iff; lia].
Qed.

Lemma SFleb_scaled (x y : binary32) :
  b32_ordered x -> b32_ordered y ->
  SFleb x y = (b32_scaled x <=? b32_scaled y).
Proof.
  intros Hx Hy. unfold SFleb, Z.leb. rewrite (SFcompare_scaled x y Hx Hy).
  destruct (_ ?= _); reflexivity.
Qed.

Lemma shl_align_value (m : positive) (e e' : Z) :
  e' <= e -> Z.pos (fst (shl_align m e e')) = Z.pos m * 2 ^ (e - e').
Proof.
  intros H. unfold shl_align. destruct (e' - e) as [| d | d] eqn:E; try lia.
  - replace (e - e') with 0 by lia. cbn [fst]. change (2 ^ 0) with 1. lia.
  - cbn [fst]. rewrite iter_xO. f_equal. f_equal. lia.
Qed.

Lemma cond_Zopp_mul (s : bool) (a c : Z) :
  cond_Zopp s a * c = cond_Zopp s (a * c).
Proof. destruct s; cbn [cond_Zopp]; lia. Qed.

Lemma normalize_scaled (M e : Z) :
  -149 <= e ->
  b32_ordered (binary_normalize 24 128 M e false) /\
  b32_scaled (binary_normalize 24 128 M e false) =
  round_value (M * 2 ^ (e + 149)).
Proof.
  intros He. pose proof (pow2_pos (e + 149) ltac:(lia)) as Pe.
  destruct M as [| p | p]; cbn [binary_normalize].
  - split; [exact I | reflexivity].
  - destruct (binary_round_scaled false p e He) as [Ho ->].
    split; [exact Ho |]. cbn [cond_Zopp].
    rewrite round_value_pos by lia. reflexivity.
  - destruct (binary_round_scaled true p e He) as [Ho ->].
    split; [exact Ho |]. cbn [cond_Zopp].
    change (Z.neg p) with (- Z.pos p). rewrite Z.mul_opp_l.
    rewrite round_value_neg by lia. reflexivity.
Qed.

Lemma finite_round_value (x : binary32) :
  b32_finite x -> round_value (b32_scaled x) = b32_scaled x.
Proof.
  destruct x as [s | s | | s m e]; cbn [b32_finite]; try contradiction.
  - reflexivity.
  - intros Hb. apply bounded_value in Hb as [Hv Hr]. cbn [b32_scaled].
    destruct s; cbn [cond_Zopp].
    + rewrite round_value_neg by lia. rewrite Hr. reflexivity.
    + rewrite round_value_pos by lia. exact Hr.
Qed.

Lemma bounded_exponent (m : positive) (e : Z) :
  bounded 24 128 m e = true -> -149 <= e.
Proof. intros H. apply bounded_canonical in H. lia. Qed.

Lemma SFadd_scaled (x y : binary32) :
  b32_finite x -> b32_finite y ->
  b32_ordered (SFadd 24 128 x y) /\
  b32_scaled (SFadd 24 128 x y) = round_value (b32_scaled x + b32_scaled y).
Proof.
  intros Hx Hy.
  pose proof (finite_round_value x Hx) as Rx.
  pose proof (finite_round_value y Hy) as Ry.
  destruct x as [sx | sx | | sx mx ex], y as [sy | sy | | sy my ey];
    cbn [b32_finite] in Hx, Hy; try contradiction.
  - destruct sx, sy; split; try exact I; reflexivity.
  - cbn [SFadd]. split; [exact Hy |].
    change (b32_scaled (S754_zero sx)) with 0. rewrite Z.add_0_l, Ry.
    reflexivity.
  - cbn [SFadd]. split; [exact Hx |].
    change (b32_scaled (S754_zero sy)) with 0. rewrite Z.add_0_r, Rx.
    reflexivity.
  - cbn [SFadd]. cbv zeta.
    pose proof (bounded_exponent _ _ Hx). pose proof (bounded_exponent _ _ Hy).
    set (ez := Z.min ex ey).
    destruct (normalize_scaled
                (cond_Zopp sx (Z.pos (fst (shl_align mx ex ez))) +
                 cond_Zopp sy (Z.pos (fst (shl_align my ey ez)))) ez
                ltac:(unfold ez; lia)) as [Ho ->].
    split; [exact Ho |]. f_equal. cbn [b32_scaled].
    rewrite Z.mul_add_distr_r, !cond_Zopp_mul.
    rewrite !shl_align_value by (unfold ez; lia).
    rewrite <- !Z.mul_assoc, <- !pow2_add by (unfold ez; lia).
    replace (ex - ez + (ez + 149)) with (ex + 149) by lia.
    replace (ey - ez + (ez + 149)) with (ey + 149) by lia.
    reflexivity.
Qed.

Lemma SFsub_SFadd (x y : binary32) :
  SFsub 24 128 x y = SFadd 24 128 x (SFopp y).
Proof.
  destruct x as [sx | sx | | sx mx ex], y as [sy | sy | | sy my ey];
    try reflexivity;
    destruct sx, sy; reflexivity.
Qed.

Lemma SFopp_finite (x : binary32) : b32_finite x -> b32_finite (SFopp x).
Proof. destruct x; simpl; auto. Qed.

Lemma SFopp_scaled (x : binary32) : b32_scaled (SFopp x) = - b32_scaled x.
Proof.
  destruct x as [s | s | | s m e]; cbn [SFopp b32_scaled]; try reflexivity;
    destruct s; cbn [negb cond_Zopp]; lia.
Qed.

Lemma SFsub_scaled (x y : binary32) :
  b32_finite x -> b32_finite y ->
  b32_ordered (SFsub 24 128 x y) /\
  b32_scaled (SFsub 24 128 x y) = round_value (b32_scaled x - b32_scaled y).
Proof.
  intros Hx Hy. rewrite SFsub_SFadd.
  destruct (SFadd_scaled x (SFopp y) Hx (SFopp_finite y Hy)) as [Ho ->].
  split; [exact Ho |]. rewrite SFopp_scaled. f_equal.
Qed.

(** ** The laws of rounded sums in binary32 *)

Lemma SFleb_intro (x y : binary32) :
  b32_ordered x -> b32_ordered y ->
  b32_scaled x <= b32_scaled y -> SFleb x y = true.
Proof.
  intros Hx Hy H. rewrite SFleb_scaled by assumption. apply Z.leb_le. exact H.
Qed.

Lemma SFleb_elim (x y : binary32) :
  b32_ordered x -> b32_ordered y ->
  SFleb x y = true -> b32_scaled x <= b32_scaled y.
Proof.
  intros Hx Hy H. rewrite SFleb_scaled in H by assumption.
  apply Z.leb_le. exact H.
Qed.

Lemma finite_scaled_bound (x : binary32) :
  b32_finite x -> - 2 ^ 277 < b32_scaled x < 2 ^ 277.
Proof.
  assert (HI : 0 < 2 ^ 277) by (apply pow2_pos; lia).
  destruct x as [s | s | | s m e]; cbn [b32_finite b32_scaled];
    try contradiction; [lia |].
  intros Hb. apply bounded_value in Hb as [Hb _].
  destruct s; cbn [cond_Zopp]; lia.
Qed.

Lemma ordered_finite (x : binary32) :
  b32_ordered x -> - 2 ^ 277 < b32_scaled x < 2 ^ 277 -> b32_finite x.
Proof.
  destruct x as [s | s | | s m e]; cbn [b32_ordered b32_finite b32_scaled];
    try contradiction; auto.
  destruct s; cbn [cond_Zopp]; lia.
Qed.

Lemma b32_fadd_mono_l (x y z : binary32) :
  b32_finite x -> b32_finite y -> b32_finite z ->
  SFleb x y = true -> SFleb (SFadd 24 128 x z) (SFadd 24 128 y z) = true.
Proof.
  intros Hx Hy Hz H.
  apply SFleb_elim in H; try (apply finite_ordered; assumption).
  destruct (SFadd_scaled x z Hx Hz) as [O1 E1].
  destruct (SFadd_scaled y z Hy Hz) as [O2 E2].
  apply SFleb_intro; try assumption. rewrite E1, E2.
  apply round_value_mono. lia.
Qed.

Lemma b32_fadd_mono_r (x y z : binary32) :
  b32_finite x -> b32_finite y -> b32_finite z ->
  SFleb y z = true -> SFleb (SFadd 24 128 x y) (SFadd 24 128 x z) = true.
Proof.
  intros Hx Hy Hz H.
  apply SFleb_elim in H; try (apply finite_ordered; assumption).
  destruct (SFadd_scaled x y Hx Hy) as [O1 E1].
  destruct (SFadd_scaled x z Hx Hz) as [O2 E2].
  apply SFleb_intro; try assumption. rewrite E1, E2.
  apply round_value_mono. lia.
Qed.

Lemma b32_fsub_mono_l (x y z : binary32) :
  b32_finite x -> b32_finite y -> b32_finite z ->
  SFleb x y = true -> SFleb (SFsub 24 128 x z) (SFsub 24 128 y z) = true.
Proof.
  intros Hx Hy Hz H.
  apply SFleb_elim in H; try (apply finite_ordered; assumption).
  destruct (SFsub_scaled x z Hx Hz) as [O1 E1].
  destruct (SFsub_scaled y z Hy Hz) as [O2 E2].
  apply SFleb_intro; try assumption. rewrite E1, E2.
  apply round_value_mono. lia.
Qed.

Lemma b32_fsub_diag (x : binary32) :
  b32_finite x -> SFleb (S754_zero false) (SFsub 24 128 x x) = true.
Proof.
  intros Hx. destruct (SFsub_scaled x x Hx Hx) as [O E].
  apply SFleb_intro; [exact I | exact O |]. rewrite E, Z.sub_diag.
  reflexivity.
Qed.

Lemma b32_fopp_fadd (x : binary32) :
  b32_finite x -> SFleb (S754_zero false) (SFadd 24 128 (SFopp x) x) = true.
Proof.
  intros Hx.
  destruct (SFadd_scaled (SFopp x) x (SFopp_finite x Hx) Hx) as [O E].
  apply SFleb_intro; [exact I | exact O |]. rewrite E, SFopp_scaled.
  replace (- b32_scaled x + b32_scaled x) with 0 by lia. reflexivity.
Qed.

Lemma b32_zero_fadd (x : binary32) :
  b32_finite x ->
  b32_ordered (SFadd 24 128 (S754_zero false) x) /\
  b32_scaled (SFadd 24 128 (S754_zero false) x) = b32_scaled x.
Proof.
  intros Hx. destruct (SFadd_scaled (S754_zero false) x I Hx) as [O E].
  split; [exact O |]. rewrite E. change (b32_scaled (S754_zero false)) with 0.
  rewrite Z.add_0_l. apply finite_round_value. exact Hx.
Qed.

Lemma b32_zero_fadd_le (x : binary32) :
  b32_finite x -> SFleb (SFadd 24 128 (S754_zero false) x) x = true.
Proof.
  intros Hx. destruct (b32_zero_fadd x Hx) as [O E].
  apply SFleb_intro; [exact O | apply finite_ordered; exact Hx | lia].
Qed.

Lemma b32_zero_fadd_ge (x : binary32) :
  b32_finite x -> SFleb x (SFadd 24 128 (S754_zero false) x) = true.
Proof.
  intros Hx. destruct (b32_zero_fadd x Hx) as [O E].
  apply SFleb_intro; [apply finite_ordered; exact Hx | exact O | lia].
Qed.

Lemma b32_fadd_finite (x y lo hi : binary32) :
  b32_finite x -> b32_finite y -> b32_finite lo -> b32_finite hi ->
  SFleb lo (SFadd 24 128 x y) = true -> SFleb (SFadd 24 128 x y) hi = true ->
  b32_finite (SFadd 24 128 x y).
Proof.
  intros Hx Hy Hlo Hhi H1 H2.
  destruct (SFadd_scaled x y Hx Hy) as [O _].
  apply SFleb_elim in H1; [| apply finite_ordered; exact Hlo | exact O].
  apply SFleb_elim in H2; [| exact O | apply finite_ordered; exact Hhi].
  pose proof (finite_scaled_bound lo Hlo).
  pose proof (finite_scaled_bound hi Hhi).
  apply ordered_finite; [exact O | lia].
Qed.

(** Twice a number is a number, or is too large. *)
Lemma bounded_double (m : positive) (e : Z) :
  bounded 24 128 m e = true ->
  round_scaled (2 * (Z.pos m * 2 ^ (e + 149))) =
  Z.min (2 * (Z.pos m * 2 ^ (e + 149))) (2 ^ 277).
Proof.
  intros Hb. apply bounded_canonical in Hb as [Hc He].
  destruct (Z.eq_dec (Z.pos (digits2_pos m)) 24) as [E | N].
  - replace (2 * (Z.pos m * 2 ^ (e + 149)))
      with (Z.pos m * 2 ^ (e + 1 + 149)).
    + apply canonical_value. lia.
    + replace (e + 1 + 149) with (1 + (e + 149)) by lia.
      rewrite pow2_add by lia. change (2 ^ 1) with 2. ring.
  - replace (2 * (Z.pos m * 2 ^ (e + 149)))
      with (Z.pos m~0 * 2 ^ (e + 149)).
    + apply canonical_value. cbn [digits2_pos]. rewrite Pos2Z.inj_succ. lia.
    + rewrite (Pos2Z.inj_xO m). ring.
Qed.

Lemma b32_fadd_fsub (x : binary32) :
  b32_finite x -> b32_finite (SFadd 24 128 x x) ->
  SFleb (SFsub 24 128 (SFadd 24 128 x x) x) x = true.
Proof.
  intros Hx Ha.
  destruct (SFadd_scaled x x Hx Hx) as [_ Ea].
  destruct (SFsub_scaled (SFadd 24 128 x x) x Ha Hx) as [Os Es].
  pose proof (finite_scaled_bound _ Ha) as Hbound.
  apply SFleb_intro; [exact Os | apply finite_ordered; exact Hx |].
  rewrite Es. clear Es Os.
  assert (E2 : b32_scaled (SFadd 24 128 x x) = 2 * b32_scaled x).
  { rewrite Ea in *. clear Ea.
    destruct x as [s | s | | s m e]; cbn [b32_finite] in Hx;
      try contradiction; [reflexivity |].
    pose proof (bounded_double m e Hx) as Hd.
    apply bounded_value in Hx as [Hv _].
    cbn [b32_scaled] in *. destruct s; cbn [cond_Zopp] in *.
    - replace (- (Z.pos m * 2 ^ (e + 149)) + - (Z.pos m * 2 ^ (e + 149)))
        with (- (2 * (Z.pos m * 2 ^ (e + 149)))) in * by lia.
      rewrite round_value_neg in * by lia. lia.
    - replace (Z.pos m * 2 ^ (e + 149) + Z.pos m * 2 ^ (e + 149))
        with (2 * (Z.pos m * 2 ^ (e + 149))) in * by lia.
      rewrite round_value_pos in * by lia. lia. }
  rewrite E2. replace (2 * b32_scaled x - b32_scaled x) with (b32_scaled x)
    by lia.
  rewrite finite_round_value by exact Hx. lia.
Qed.

End Binary32.

(** ** The order of binary32 *)

Lemma SFcompare_refl (x : binary32) :
  b32_finite x -> SFcompare x x = Some Eq.
Proof.
  destruct x as [s | s | | s m e]; simpl; try contradiction; intros _;
    [reflexivity |].
  destruct s; rewrite Z.compare_refl, Pos.compare_cont_refl; reflexivity.
Qed.

(** The order of two numbers of one sign: first the exponents, then the
    mantissas. *)
Lemma lex_compare_trans (m1 m2 m3 : positive) (e1 e2 e3 : Z) :
  match (e1 ?= e2)%Z with
  | Lt => Lt | Gt => Gt | Eq => Pos.compare_cont Eq m1 m2
  end <> Gt ->
  match (e2 ?= e3)%Z with
  | Lt => Lt | Gt => Gt | Eq => Pos.compare_cont Eq m2 m3
  end <> Gt ->
  match (e1 ?= e3)%Z with
  | Lt => Lt | Gt => Gt | Eq => Pos.compare_cont Eq m1 m3
  end <> Gt.
Proof.
  change (Pos.compare_cont Eq m1 m2) with (m1 ?= m2)%positive.
  change (Pos.compare_cont Eq m2 m3) with (m2 ?= m3)%positive.
  change (Pos.compare_cont Eq m1 m3) with (m1 ?= m3)%positive.
  destruct (Z.compare_spec e1 e2), (Z.compare_spec e2 e3),
    (Z.compare_spec e1 e3); try lia; try congruence;
    destruct (Pos.compare_spec m1 m2), (Pos.compare_spec m2 m3),
      (Pos.compare_spec m1 m3); try lia; congruence.
Qed.

Lemma lex_compare_trans_opp (m1 m2 m3 : positive) (e1 e2 e3 : Z) :
  match (e1 ?= e2)%Z with
  | Lt => Gt | Gt => Lt | Eq => CompOpp (Pos.compare_cont Eq m1 m2)
  end <> Gt ->
  match (e2 ?= e3)%Z with
  | Lt => Gt | Gt => Lt | Eq => CompOpp (Pos.compare_cont Eq m2 m3)
  end <> Gt ->
  match (e1 ?= e3)%Z with
  | Lt => Gt | Gt => Lt | Eq => CompOpp (Pos.compare_cont Eq m1 m3)
  end <> Gt.
Proof.
  change (Pos.compare_cont Eq m1 m2) with (m1 ?= m2)%positive.
  change (Pos.compare_cont Eq m2 m3) with (m2 ?= m3)%positive.
  change (Pos.compare_cont Eq m1 m3) with (m1 ?= m3)%positive.
  destruct (Z.compare_spec e1 e2), (Z.compare_spec e2 e3),
    (Z.compare_spec e1 e3); try lia; simpl; try congruence;
    destruct (Pos.compare_spec m1 m2), (Pos.compare_spec m2 m3),
      (Pos.compare_spec m1 m3); simpl; try lia; congruence.
Qed.

Lemma SFleb_not_Gt (x y : binary32) :
  SFleb x y = true <-> exists c, SFcompare x y = Some c /\ c <> Gt.
Proof.
  unfold SFleb. destruct (SFcompare x y) as [[| |] |]; split;
    try (intros _; eexists; split; [reflexivity | discriminate]);
    try discriminate; try reflexivity;
    intros (c & Hc & Hne); congruence.
Qed.

Lemma b32_fle_trans (x y z : binary32) :
  SFleb x y = true -> SFleb y z = true -> SFleb x z = true.
Proof.
  destruct x as [sx | sx | | sx mx ex], y as [sy | sy | | sy my ey],
    z as [sz | sz | | sz mz ez];
    try (simpl; discriminate); try (simpl; reflexivity);
    try (destruct sx, sy, sz; simpl; (discriminate || reflexivity)).
  rewrite !SFleb_not_Gt. intros (c1 & H1 & N1) (c2 & H2 & N2).
  simpl in H1, H2. simpl. eexists. split; [reflexivity |].
  destruct sx, sy, sz; injection H1 as <-; injection H2 as <-;
    try congruence.
  - apply (lex_compare_trans_opp mx my mz ex ey ez); assumption.
  - apply (lex_compare_trans mx my mz ex ey ez); assumption.
Qed.

Lemma b32_fle_not_flt (x y : binary32) :
  SFleb x y = true -> SFltb y x = false.
Proof.
  unfold SFleb, SFltb. rewrite (SFcompare_antisym x y).
  destruct (SFcompare x y) as [[| |] |]; simpl; congruence.
Qed.

Lemma SFcompare_defined (x y : binary32) :
  b32_finite x -> b32_finite y -> exists c, SFcompare x y = Some c.
Proof.
  destruct x as [sx | sx | | sx mx ex], y as [sy | sy | | sy my ey];
    simpl; try contradiction; intros _ _; eauto.
Qed.

Lemma b32_not_flt_fle (x y : binary32) :
  b32_finite x -> b32_finite y -> SFltb x y = false -> SFleb y x = true.
Proof.
  intros Hx Hy. unfold SFleb, SFltb. rewrite (SFcompare_antisym x y).
  destruct (SFcompare_defined x y Hx Hy) as (c & ->).
  destruct c; simpl; congruence.
Qed.

Lemma b32_not_fle_flt (x y : binary32) :
  b32_finite x -> b32_finite y -> SFleb x y = false -> SFltb y x = true.
Proof.
  intros Hx Hy. unfold SFleb, SFltb. rewrite (SFcompare_antisym x y).
  destruct (SFcompare_defined x y Hx Hy) as (c & ->).
  destruct c; simpl; congruence.
Qed.

Lemma b32_order_laws : OrderLaws binary32 b32_ops b32_sign_laws.
Proof.
  split.
  - exact I.
  - exact SFopp_finite.
  - exact b32_fle_trans.
  - exact b32_fle_not_flt.
  - exact b32_not_flt_fle.
  - exact b32_not_fle_flt.
Qed.

Lemma b32_rounding_laws : RoundingLaws binary32 b32_ops b32_sign_laws.
Proof.
  split.
  - exact b32_fadd_finite.
  - exact b32_fadd_mono_l.
  - exact b32_fadd_mono_r.
  - exact b32_fsub_mono_l.
  - exact b32_fsub_diag.
  - exact b32_fadd_fsub.
  - exact b32_fopp_fadd.
  - exact b32_zero_fadd_le.
  - exact b32_zero_fadd_ge.
Qed.

(** ** The chord test *)

Lemma product_nonpos (x y : R) :
  x * y <= 0 <-> (x <= 0 /\ 0 <= y) \/ (y <= 0 /\ 0 <= x).
Proof.
  split.
  - intros H.
    destruct (Rle_dec x 0) as [Hx | Hx]; destruct (Rle_dec 0 y) as [Hy | Hy];
      try (left; lra); right; nra.
  - intros [[Hx Hy] | [Hy Hx]]; nra.
Qed.

Lemma seg_intxn_sides (a b c d : vec2 R) :
  seg_intxn a b c d = true <->
  side a b c * side a b d <= 0 /\ side c d a * side c d b <= 0.
Proof.
  unfold seg_intxn, side. simpl.
  rewrite andb_true_iff, !Rleb_spec. reflexivity.
Qed.

(** C5, as the claim states it, fails: the chord endpoint [c = (1, 0)] lies
    on the line through [p1 = (0, 0)] and [p2 = (2, 0)], and the test
    reports a crossing. *)
Lemma seg_intxn_touching_counts :
  seg_intxn (Vec2 0 0) (Vec2 2 0) (Vec2 1 0) (Vec2 1 1) = true /\
  ~ properly_separates (Vec2 0 0) (Vec2 2 0) (Vec2 1 0) (Vec2 1 1).
Proof.
  split.
  - apply seg_intxn_sides. unfold side. simpl. lra.
  - unfold properly_separates, strictly_opposite, side. simpl. lra.
Qed.

(** In the real numbers a product is zero only when a factor is: the
    chord test reports a crossing iff the chord endpoints lie on opposite
    sides of, or on, the line through [p1] and [p2], and [p1], [p2] lie on
    opposite sides of, or on, the chord line. *)
Lemma seg_intxn_weakly_opposite (p1 p2 c d : vec2 R) :
  (seg_intxn p1 p2 c d = true <->
   weakly_opposite p1 p2 c d /\ weakly_opposite c d p1 p2) /\
  (properly_separates p1 p2 c d -> seg_intxn p1 p2 c d = true) /\
  (side p1 p2 c = 0 -> weakly_opposite c d p1 p2 ->
   seg_intxn p1 p2 c d = true).
Proof.
  rewrite seg_intxn_sides, !product_nonpos.
  unfold weakly_opposite, properly_separates, strictly_opposite.
  repeat split; try tauto; try lra.
Qed.

(** ** The chord test, for every arithmetic *)

Section ChordSwap.
Context {F : Type} {ops : FloatOps F}.
Hypothesis exact : ring_theory (fint 0) (fint 1) fadd fmul fsub fneg eq.
Add Ring exact_ring : exact.
Local Open Scope float_scope.


End ChordSwap.

Section ChordTest.
Context {F : Type} {ops : FloatOps F}.
Local Open Scope float_scope.

Lemma seg_intxn_products (a b c d : vec2 F) :
  seg_intxn a b c d = true <->
  (side_of a b c * side_of a b d <=? fint 0) = true /\
  (side_of c d a * side_of c d b <=? fint 0) = true.
Proof. unfold seg_intxn, side_of. apply andb_true_iff. Qed.


Context {signs : SignLaws F ops}.

Lemma product_sign (x y : F) :
  finite x -> finite y ->
  ((x * y <=? fint 0) = true <-> signs_opposite x y \/ is_zero (x * y)).
Proof.
  intros Hx Hy. unfold signs_opposite, is_zero. split.
  - intros Hp. destruct (fle_cases _ _ Hp) as [Hlt | Hge]; [left | right].
    + destruct (fmul_neg_inv x y Hlt) as [[H1 H2] | [H1 H2]];
        [left | right]; split; apply flt_fle; assumption.
    + split; assumption.
  - intros [[[H1 H2] | [H1 H2]] | [H1 _]].
    + apply fmul_nonpos; assumption.
    + apply fmul_nonpos'; assumption.
    + exact H1.
Qed.

(** C5, amended: the chord test compares signs, and a zero counts as
    either sign.  It reports a crossing exactly when, for each of the two
    lines, the two determinants that it computes for the ends of the other
    segment are of opposite signs or zero, or their product is rounded to
    zero.  So it reports every configuration in which the two determinants
    are of strictly opposite signs for both lines, and every one in which a
    determinant is zero, a point on the line of the other segment, while
    the signs for the other line are opposite. *)
Theorem seg_intxn_signs (p1 p2 c d : vec2 F) :
  let x1 := side_of p1 p2 c in
  let x2 := side_of p1 p2 d in
  let y1 := side_of c d p1 in
  let y2 := side_of c d p2 in
  finite x1 -> finite x2 -> finite y1 -> finite y2 ->
  (seg_intxn p1 p2 c d = true <->
   (signs_opposite x1 x2 \/ is_zero (x1 * x2)) /\
   (signs_opposite y1 y2 \/ is_zero (y1 * y2))) /\
  (signs_strictly_opposite x1 x2 -> signs_strictly_opposite y1 y2 ->
   seg_intxn p1 p2 c d = true) /\
  (is_zero x1 -> signs_opposite y1 y2 -> seg_intxn p1 p2 c d = true).
Proof.
  intros x1 x2 y1 y2 Hx1 Hx2 Hy1 Hy2.
  assert (Hiff : seg_intxn p1 p2 c d = true <->
                 (signs_opposite x1 x2 \/ is_zero (x1 * x2)) /\
                 (signs_opposite y1 y2 \/ is_zero (y1 * y2))).
  { rewrite seg_intxn_products. fold x1 x2 y1 y2.
    rewrite (product_sign x1 x2 Hx1 Hx2), (product_sign y1 y2 Hy1 Hy2).
    reflexivity. }
  assert (Hstrict : forall x y, signs_strictly_opposite x y ->
                                signs_opposite x y).
  { intros x y [[H1 H2] | [H1 H2]]; [left | right];
      split; apply flt_fle; assumption. }
  split; [exact Hiff | split].
  - intros Hx Hy. apply Hiff. split; left; apply Hstrict; assumption.
  - intros [Hle Hge] Hy. apply Hiff. split; [| left; exact Hy].
    left. destruct (fle_zero_total x2 Hx2) as [H2 | H2].
    + right. split; assumption.
    + left. split; assumption.
Qed.

End ChordTest.



(** In binary32: the end [c = (1, 0)] of the chord lies on the line through
    [p1 = (0, 0)] and [p2 = (2, 0)], and the test reports a crossing. *)
Lemma seg_intxn_signs_witness :
  seg_intxn (ops := b32_ops) (b32_point 0 0) (b32_point 2 0) (b32_point 1 0)
    (b32_point 1 1) = true.
Proof.
  unshelve epose proof (seg_intxn_signs (signs := b32_sign_laws)
                          (b32_point 0 0) (b32_point 2 0) (b32_point 1 0)
                          (b32_point 1 1) _ _ _ _) as (_ & _ & H).
  1-4: vm_compute; first [exact I | reflexivity].
  apply H; vm_compute; auto.
Defined.

(** ** Integers *)

(** [c--] takes one from [c], unless [c] is the least [int]. *)
Lemma int_dec_small (c : Z) :
  (- 2 ^ 31 < c < 2 ^ 31)%Z -> int_dec c = (c - 1)%Z.
Proof.
  intros Hc. unfold int_dec, wrap_int.
  rewrite Z.mod_small by lia. lia.
Qed.

(** ** Flags *)

Lemma has_flag_COLLI (fl : N) :
  has_flag fl COLLI = has_flag fl ATTRACT || has_flag fl RETURN.
Proof.
  unfold has_flag, COLLI. rewrite N.land_lor_distr_r.
  destruct (N.eqb_spec (N.land fl ATTRACT) 0) as [Ha | Ha];
    destruct (N.eqb_spec (N.land fl RETURN) 0) as [Hr | Hr]; simpl;
    destruct (N.eqb_spec (N.lor (N.land fl ATTRACT) (N.land fl RETURN)) 0)
      as [H | H]; try reflexivity; exfalso.
  - apply H. rewrite Ha, Hr. reflexivity.
  - apply N.lor_eq_0_iff in H. tauto.
  - apply N.lor_eq_0_iff in H. tauto.
  - apply N.lor_eq_0_iff in H. tauto.
Qed.

(** ** The firefly update: control flow, for every arithmetic *)

Section Flow.
Context {F : Type} {ops : FloatOps F}.
Local Open Scope float_scope.

Lemma resolve_flags (t_prev : F) (i : nat) (k : track F) (t1 t2 : F)
    (f : firefly F) :
  resolve t_prev i k t1 t2 f =
  match has_flag (tk_flags k) ATTRACT, has_flag (tk_flags k) RETURN with
  | true, true => bounce t_prev (attract i t1 t2 f)
  | true, false => attract i t1 t2 f
  | false, true => bounce t_prev f
  | false, false => f
  end.
Proof.
  unfold resolve.
  destruct (has_flag (tk_flags k) ATTRACT), (has_flag (tk_flags k) RETURN);
    reflexivity.
Qed.

(** The loop stops at the first track, in the order of the vector, on which
    [crossing] detects a crossing. *)
Lemma scan_first_crossing (self : nat) (t_prev : F) (p1 p2 : vec2 F)
    (f : firefly F) (ks : list (track F)) :
  forall (i0 j : nat) (k : track F) (t1 t2 : F),
    ks !! j = Some k ->
    crossing self p1 p2 (i0 + j) k = Some (t1, t2) ->
    (forall j' k', (j' < j)%nat -> ks !! j' = Some k' ->
                   crossing self p1 p2 (i0 + j') k' = None) ->
    scan self t_prev p1 p2 i0 ks f = resolve t_prev (i0 + j) k t1 t2 f.
Proof.
  induction ks as [| k0 ks IH]; intros i0 j k t1 t2 Hk Hc Hbefore.
  - discriminate.
  - destruct j as [| j]; simpl in *.
    + injection Hk as ->. rewrite Nat.add_0_r in Hc. rewrite Hc.
      rewrite Nat.add_0_r. reflexivity.
    + rewrite <- (Nat.add_0_r i0) at 1.
      rewrite (Hbefore 0%nat k0) by (lia || reflexivity).
      replace (i0 + S j)%nat with (S i0 + j)%nat in * by lia.
      apply IH; [exact Hk | exact Hc |].
      intros j' k' Hlt Hk'.
      replace (S i0 + j')%nat with (i0 + S j')%nat by lia.
      apply Hbefore; [lia | exact Hk'].
Qed.

Lemma scan_no_crossing (self : nat) (t_prev : F) (p1 p2 : vec2 F)
    (f : firefly F) (ks : list (track F)) :
  forall i0 : nat,
    (forall j k, ks !! j = Some k -> crossing self p1 p2 (i0 + j) k = None) ->
    scan self t_prev p1 p2 i0 ks f = f.
Proof.
  induction ks as [| k0 ks IH]; intros i0 Hnone; simpl.
  - reflexivity.
  - rewrite <- (Nat.add_0_r i0) at 1.
    rewrite (Hnone 0%nat k0) by reflexivity.
    apply IH. intros j k Hk.
    replace (S i0 + j)%nat with (i0 + S j)%nat by lia.
    apply Hnone. exact Hk.
Qed.

(** Every run of the loop is of one of these two kinds. *)
Lemma scan_cases (self : nat) (t_prev : F) (p1 p2 : vec2 F)
    (f : firefly F) (ks : list (track F)) :
  forall i0 : nat,
    ((forall j k, ks !! j = Some k -> crossing self p1 p2 (i0 + j) k = None) /\
     scan self t_prev p1 p2 i0 ks f = f) \/
    (exists j k t1 t2,
        ks !! j = Some k /\
        crossing self p1 p2 (i0 + j) k = Some (t1, t2) /\
        (forall j' k', (j' < j)%nat -> ks !! j' = Some k' ->
                       crossing self p1 p2 (i0 + j') k' = None) /\
        scan self t_prev p1 p2 i0 ks f = resolve t_prev (i0 + j) k t1 t2 f).
Proof.
  induction ks as [| k0 ks IH]; intros i0.
  - left. split; [intros j k Hk; discriminate | reflexivity].
  - destruct (crossing self p1 p2 i0 k0) as [[t1 t2] |] eqn:Hc.
    + right. exists 0%nat, k0, t1, t2.
      rewrite Nat.add_0_r. simpl. rewrite Hc.
      repeat split; try reflexivity. intros j' k' Hlt. lia.
    + destruct (IH (S i0)) as [[Hnone Hs] | (j & k & t1 & t2 & Hk & Hj & Hb & Hs)].
      * left. split.
        -- intros [| j] k Hk; simpl in Hk.
           ++ injection Hk as <-. rewrite Nat.add_0_r. exact Hc.
           ++ replace (i0 + S j)%nat with (S i0 + j)%nat by lia.
              apply Hnone. exact Hk.
        -- simpl. rewrite Hc. exact Hs.
      * right. exists (S j), k, t1, t2.
        replace (i0 + S j)%nat with (S i0 + j)%nat by lia.
        repeat split; try assumption.
        -- intros [| j'] k' Hlt Hk'; simpl in Hk'.
           ++ injection Hk' as <-. rewrite Nat.add_0_r. exact Hc.
           ++ replace (i0 + S j')%nat with (S i0 + j')%nat by lia.
              apply Hb; [lia | exact Hk'].
        -- simpl. rewrite Hc. exact Hs.
Qed.

(** A detected crossing is on another track, which carries [ATTRACT] or
    [RETURN] and passes the distance gate of line 246. *)
Lemma crossing_detected (self : nat) (p1 p2 : vec2 F) (i : nat) (k : track F)
    (t1 t2 : F) :
  crossing self p1 p2 i k = Some (t1, t2) ->
  i <> self /\ has_flag (tk_flags k) COLLI = true /\
  ((nearest k p1).2 >=? flit (1 # 100)) = false /\
  seg_intxn p1 p2 (track_at k t1) (track_at k t2) = true.
Proof.
  unfold crossing. intros H.
  destruct (Nat.eqb_spec i self) as [-> | Hne]; simpl in H; [discriminate |].
  destruct (has_flag (tk_flags k) COLLI); [| discriminate].
  destruct (fleb _ _); [discriminate |].
  destruct (fltb (f_abs _) _).
  - destruct (seg_intxn _ _ _ _) eqn:Hx; [| discriminate].
    injection H as <- <-. auto.
  - destruct (seg_intxn _ _ _ _) eqn:Hx; [| discriminate].
    injection H as <- <-. auto.
Qed.

Lemma update_detected_first (tracks : list (track F)) (f : firefly F)
    (i : nat) (k : track F) (t1 t2 : F) :
  detected_first tracks f i k t1 t2 ->
  update tracks f = resolve (ff_t f) i k t1 t2 (advance tracks f).
Proof.
  intros (Hk & Hc & Hb). unfold update.
  apply (scan_first_crossing _ _ _ _ _ tracks 0 i k t1 t2 Hk Hc Hb).
Qed.

Lemma update_no_crossing (tracks : list (track F)) (f : firefly F) :
  no_crossing tracks f -> update tracks f = advance tracks f.
Proof.
  intros Hn. unfold update. apply scan_no_crossing. exact Hn.
Qed.

Lemma update_cases (tracks : list (track F)) (f : firefly F) :
  (no_crossing tracks f /\ update tracks f = advance tracks f) \/
  (exists i k t1 t2,
      detected_first tracks f i k t1 t2 /\
      update tracks f = resolve (ff_t f) i k t1 t2 (advance tracks f)).
Proof.
  unfold update, no_crossing, detected_first.
  destruct (scan_cases (ff_tr f) (ff_t f) (pos tracks f)
              (pos tracks (advance tracks f)) (advance tracks f) tracks 0)
    as [[Hn Hs] | (j & k & t1 & t2 & Hk & Hc & Hb & Hs)].
  - left. split; assumption.
  - right. exists j, k, t1, t2. repeat split; assumption.
Qed.

(** The tracks after the one of the first detected crossing are not looked
    at. *)
Lemma scan_stops (self : nat) (t_prev : F) (p1 p2 : vec2 F) (f : firefly F)
    (ks : list (track F)) (j : nat) (k : track F) (t1 t2 : F)
    (later : list (track F)) :
  ks !! j = Some k ->
  crossing self p1 p2 j k = Some (t1, t2) ->
  (forall j' k', (j' < j)%nat -> ks !! j' = Some k' ->
                 crossing self p1 p2 j' k' = None) ->
  scan self t_prev p1 p2 0 (take (S j) ks ++ later) f =
  scan self t_prev p1 p2 0 ks f.
Proof.
  intros Hk Hc Hb.
  assert (Hlen : (j < length ks)%nat) by (eapply lookup_lt_Some; exact Hk).
  rewrite (scan_first_crossing self t_prev p1 p2 f ks 0 j k t1 t2 Hk Hc Hb).
  apply scan_first_crossing.
  - rewrite lookup_app_l by (rewrite length_take; lia).
    rewrite lookup_take_lt by lia. exact Hk.
  - exact Hc.
  - intros j' k' Hlt Hk'.
    rewrite lookup_app_l in Hk' by (rewrite length_take; lia).
    rewrite lookup_take_lt in Hk' by lia.
    apply (Hb j' k' Hlt Hk').
Qed.






(** The velocity after a step, for every outcome. *)
Lemma update_velocity (tracks : list (track F)) (f : firefly F) :
  ff_v (update tracks f) = ff_v f \/
  ff_v (update tracks f) = - ff_v f \/
  ff_v (update tracks f) = - - ff_v f.
Proof.
  destruct (update_cases tracks f)
    as [[_ ->] | (i & k & t1 & t2 & _ & ->)].
  - left. reflexivity.
  - rewrite resolve_flags.
    destruct (has_flag (tk_flags k) ATTRACT), (has_flag (tk_flags k) RETURN);
      unfold bounce, attract, set_v, set_t, set_tr; simpl;
      try destruct (fltb _ _); simpl; auto.
Qed.

(** C3, amended: when the first crossing detected in a step is with a
    track that carries [RETURN] and not [ATTRACT], the firefly has after
    the step the phase it had before it, references the same track, and
    has its velocity negated once. *)
Theorem return_bounce (tracks : list (track F)) (f : firefly F)
    (i : nat) (k : track F) (t1 t2 : F) :
  detected_first tracks f i k t1 t2 ->
  has_flag (tk_flags k) RETURN = true ->
  has_flag (tk_flags k) ATTRACT = false ->
  ff_t (update tracks f) = ff_t f /\
  ff_tr (update tracks f) = ff_tr f /\
  ff_v (update tracks f) = - ff_v f.
Proof.
  intros Hd Hr Ha.
  rewrite (update_detected_first tracks f i k t1 t2 Hd), resolve_flags, Ha, Hr.
  unfold bounce, advance. simpl. auto.
Qed.

(** C4, amended: at the first crossing detected in a step, the action of
    every flag that the crossed track carries is applied, the [ATTRACT]
    transfer first and then the [RETURN] bounce, both when the track
    carries both flags; the tracks after it in the vector are not looked
    at, so that a step resolves at most one crossing; and a step without
    a detected crossing only advances the firefly. *)
Theorem crossing_resolution (tracks : list (track F)) (f : firefly F) :
  (forall i k t1 t2,
      detected_first tracks f i k t1 t2 ->
      update tracks f =
        match has_flag (tk_flags k) ATTRACT, has_flag (tk_flags k) RETURN with
        | true, true =>
            bounce (ff_t f) (attract i t1 t2 (advance tracks f))
        | true, false => attract i t1 t2 (advance tracks f)
        | false, true => bounce (ff_t f) (advance tracks f)
        | false, false => advance tracks f
        end /\
      (has_flag (tk_flags k) ATTRACT || has_flag (tk_flags k) RETURN = true) /\
      forall later,
        scan (ff_tr f) (ff_t f) (pos tracks f)
          (pos tracks (advance tracks f)) 0
          (take (S i) tracks ++ later) (advance tracks f) =
        update tracks f) /\
  (no_crossing tracks f -> update tracks f = advance tracks f) /\
  (no_crossing tracks f \/ exists i k t1 t2, detected_first tracks f i k t1 t2).
Proof.
  split; [| split].
  - intros i k t1 t2 Hd. split; [| split].
    + rewrite (update_detected_first tracks f i k t1 t2 Hd).
      apply resolve_flags.
    + destruct Hd as (_ & Hc & _).
      apply crossing_detected in Hc as (_ & Hcolli & _).
      rewrite <- has_flag_COLLI. exact Hcolli.
    + intros later. destruct Hd as (Hk & Hc & Hb).
      apply (scan_stops _ _ _ _ _ tracks i k t1 t2 later Hk Hc Hb).
  - apply update_no_crossing.
  - destruct (update_cases tracks f) as [[Hn _] | (i & k & t1 & t2 & Hd & _)].
    + left. exact Hn.
    + right. exists i, k, t1, t2. exact Hd.
Qed.

End Flow.

(** ** The firefly update over the real numbers *)

(** Decide the comparisons of closed real expressions in the goal. *)
Ltac Rcmp :=
  unfold STEPS, SCALE;
  repeat match goal with
  | |- context [Rltb ?a ?b] =>
      first [rewrite (Rltb_true a b) by lra | rewrite (Rltb_false a b) by lra]
  | |- context [Rleb ?a ?b] =>
      first [rewrite (Rleb_true a b) by lra | rewrite (Rleb_false a b) by lra]
  | |- context [Rabs ?a] =>
      first [rewrite (Rabs_right a) by lra | rewrite (Rabs_left a) by lra]
  end.

(** Replace a square root in the goal by its value [c]. *)
Ltac Rsqrt c :=
  match goal with
  | |- context [sqrt ?x] =>
      replace x with (c * c) by lra; rewrite (sqrt_square c) by lra
  end.

(** Equality of records and pairs of closed real expressions. *)
Ltac vec_eq :=
  lazymatch goal with
  | |- @eq R _ _ => lra
  | |- _ => first [reflexivity | progress f_equal; vec_eq]
  end.

Lemma ex_track0_eq :
  ex_track0 = Track (Vec2 0 0) 4 0 false (Seg (Vec2 1 0)).
Proof.
  unfold ex_track0, track_seg, norm, vdiv. simpl.
  Rsqrt 2. vec_eq.
Qed.

Lemma ex_track1_eq (fl : N) :
  ex_track1 fl = Track (Vec2 0 0) 4 fl false (Seg (Vec2 0 1)).
Proof.
  unfold ex_track1, track_seg, norm, vdiv. simpl.
  Rsqrt 2. vec_eq.
Qed.

Lemma ex_advance (fl : N) :
  advance (ex_tracks fl) ex_ff = set_t ex_ff (2 + 1 / 512).
Proof.
  unfold advance, ex_tracks, track_of. rewrite ex_track0_eq. simpl.
  Rcmp. unfold set_t. simpl. vec_eq.
Qed.

Lemma ex_advance_back (fl : N) :
  advance (ex_tracks fl) ex_ff_back = set_t ex_ff_back (2 - 1 / 512).
Proof.
  unfold advance, ex_tracks, track_of. rewrite ex_track0_eq. simpl.
  Rcmp. unfold set_t. simpl. vec_eq.
Qed.

Lemma ex_pos (fl : N) (f : firefly R) (x : R) :
  ff_tr f = 0%nat -> ff_t f = 2 + x ->
  pos (ex_tracks fl) f = Vec2 x 0.
Proof.
  intros Htr Ht. unfold pos, ex_tracks, track_of.
  rewrite Htr, Ht, ex_track0_eq. simpl. unfold track_at, local_at, vadd, vmul. simpl.
  vec_eq.
Qed.

(** The vertical segment is crossed from either side; the two projections
    coincide, so the nudge of lines 249-253 is applied. *)
Lemma ex_crossing (fl : N) (x : R) :
  has_flag fl COLLI = true ->
  x = 1 / 512 \/ x = - (1 / 512) ->
  crossing 0 (Vec2 (- x) 0) (Vec2 x 0) 1 (ex_track1 fl) =
  Some (2 - 2 / 1000000, 2 + 2 / 1000000).
Proof.
  intros Hfl Hx. rewrite ex_track1_eq. unfold crossing. simpl. rewrite Hfl.
  unfold nearest, local_nearest. simpl.
  destruct Hx as [-> | ->]; Rcmp; Rsqrt (1 / 512); Rcmp;
    unfold seg_intxn, track_at, local_at, det, vsub, vadd, vmul; simpl;
    Rcmp; simpl; vec_eq.
Qed.

Lemma ex_detected_first (fl : N) :
  has_flag fl COLLI = true ->
  detected_first (ex_tracks fl) ex_ff 1 (ex_track1 fl)
    (2 - 2 / 1000000) (2 + 2 / 1000000).
Proof.
  intros Hfl. unfold detected_first.
  rewrite ex_advance.
  rewrite (ex_pos fl ex_ff (- (1 / 512))) by (simpl; lra || reflexivity).
  rewrite (ex_pos fl (set_t ex_ff (2 + 1 / 512)) (1 / 512))
    by (simpl; lra || reflexivity).
  split; [reflexivity | split].
  - apply (ex_crossing fl (1 / 512) Hfl). left. reflexivity.
  - intros [| j] k' Hlt Hk'; [reflexivity | lia].
Qed.

Lemma ex_detected_first_back (fl : N) :
  has_flag fl COLLI = true ->
  detected_first (ex_tracks fl) ex_ff_back 1 (ex_track1 fl)
    (2 - 2 / 1000000) (2 + 2 / 1000000).
Proof.
  intros Hfl. unfold detected_first.
  rewrite ex_advance_back.
  rewrite (ex_pos fl ex_ff_back (1 / 512)) by (simpl; lra || reflexivity).
  rewrite (ex_pos fl (set_t ex_ff_back (2 - 1 / 512)) (- (1 / 512)))
    by (simpl; lra || reflexivity).
  split; [reflexivity | split].
  - replace (1 / 512) with (- - (1 / 512)) at 1 by lra.
    apply (ex_crossing fl (- (1 / 512)) Hfl). right. reflexivity.
  - intros [| j] k' Hlt Hk'; [reflexivity | lia].
Qed.

(** In the real numbers a product is negative exactly when the signs of
    its factors disagree. *)
Lemma product_neg_signs (v d : R) : (v * d < 0)%R <-> signs_disagree v d.
Proof.
  unfold signs_disagree. split.
  - intros H.
    destruct (Rtotal_order v 0) as [Hv | [Hv | Hv]].
    + right. split; [exact Hv |].
      destruct (Rlt_dec 0 d) as [Hd | Hd]; [exact Hd | nra].
    + subst v. lra.
    + left. split; [exact Hv |].
      destruct (Rlt_dec d 0) as [Hd | Hd]; [exact Hd | nra].
  - intros [[Hv Hd] | [Hv Hd]]; nra.
Qed.

(** ** The transfer to an attracting track, for every arithmetic *)

Section Transfer.
Context {F : Type} {ops : FloatOps F} {signs : SignLaws F ops}.
Local Open Scope float_scope.

(** The two parameters of a detected crossing are the projections of the
    two ends of the displacement, moved apart by the nudge of lines
    249-253 when they are nearer than [1e-6] to each other. *)
Lemma crossing_values (self : nat) (p1 p2 : vec2 F) (i : nat) (k : track F)
    (t1 t2 : F) :
  crossing self p1 p2 i k = Some (t1, t2) ->
  let n1 := (nearest k p1).1 in
  let n2 := (nearest k p2).1 in
  let nudged := f_abs (n1 - n2) <? flit (1 # 1000000) in
  let d := if n1 <? fint 1 then flit (1 # 1000000)
           else n1 * flit (1 # 1000000) in
  t1 = (if nudged then n1 - d else n1) /\
  t2 = (if nudged then n2 + d else n2).
Proof.
  unfold crossing. intros H. cbv zeta.
  destruct (negb (Nat.eqb i self) && has_flag (tk_flags k) COLLI);
    [| discriminate].
  destruct (fleb _ _); [discriminate |].
  cbv zeta in H.
  destruct (fltb (f_abs _) _).
  - destruct (seg_intxn _ _ _ _); [| discriminate].
    injection H as <- <-. auto.
  - destruct (seg_intxn _ _ _ _); [| discriminate].
    injection H as <- <-. auto.
Qed.


End Transfer.

Lemma ex_update_both :
  update (ex_tracks 3) ex_ff = Firefly 1 (2 - 1 / 512) (- (15 / 8)) false ex_trail.
Proof.
  rewrite (update_detected_first _ _ _ _ _ _ (ex_detected_first 3 eq_refl)).
  rewrite ex_advance. unfold resolve, attract, bounce, set_tr, set_t, set_v.
  simpl. Rcmp. simpl. reflexivity.
Qed.

Lemma ex_update_both_back :
  update (ex_tracks 3) ex_ff_back =
  Firefly 1 (2 + 1 / 512) (- - - (15 / 8)) false ex_trail.
Proof.
  rewrite (update_detected_first _ _ _ _ _ _ (ex_detected_first_back 3 eq_refl)).
  rewrite ex_advance_back. unfold resolve, attract, bounce, set_tr, set_t, set_v.
  simpl. Rcmp. simpl. reflexivity.
Qed.




(** In binary32 the product of line 264 can be rounded to zero: with the
    velocity [-1e-40] and the positive [t2 - t1] of the crossing above, the
    signs are strictly opposite, the product is [-0], and the velocity is
    kept. *)
Lemma product_rounded_to_zero :
  let v : binary32 := S754_finite true 71362 (-149) in
  let dt : binary32 := SFsub 24 128 b32_t2 b32_t1 in
  b32_finite v /\ b32_finite dt /\
  signs_strictly_opposite (ops := b32_ops) v dt /\
  SFltb (SFmul 24 128 v dt) (b32_of_Z 0) = false /\
  is_zero (ops := b32_ops) (SFmul 24 128 v dt).
Proof. vm_compute. repeat split; auto. Qed.

(** C3, as the claim states it, fails on a track that carries both flags:
    the firefly changes track, and its velocity, negated twice, is the one
    it had. *)
Lemma return_after_attract :
  has_flag (tk_flags (ex_track1 3)) RETURN = true /\
  detected_first (ex_tracks 3) ex_ff_back 1 (ex_track1 3)
    (2 - 2 / 1000000) (2 + 2 / 1000000) /\
  ff_tr (update (ex_tracks 3) ex_ff_back) <> ff_tr ex_ff_back /\
  ff_v (update (ex_tracks 3) ex_ff_back) = ff_v ex_ff_back /\
  ff_v (update (ex_tracks 3) ex_ff_back) <> - ff_v ex_ff_back.
Proof.
  rewrite ex_update_both_back. simpl.
  split; [reflexivity |].
  split; [exact (ex_detected_first_back 3 eq_refl) |].
  split; [lia |]. split; lra.
Qed.

Lemma return_bounce_witness :
  detected_first (ex_tracks 2) ex_ff 1 (ex_track1 2)
    (2 - 2 / 1000000) (2 + 2 / 1000000) /\
  has_flag (tk_flags (ex_track1 2)) RETURN = true /\
  has_flag (tk_flags (ex_track1 2)) ATTRACT = false /\
  ff_t (update (ex_tracks 2) ex_ff) = ff_t ex_ff /\
  ff_tr (update (ex_tracks 2) ex_ff) = ff_tr ex_ff /\
  ff_v (update (ex_tracks 2) ex_ff) = - ff_v ex_ff.
Proof.
  split; [exact (ex_detected_first 2 eq_refl) |].
  split; [reflexivity |]. split; [reflexivity |].
  exact (return_bounce (ex_tracks 2) ex_ff 1 (ex_track1 2) _ _
           (ex_detected_first 2 eq_refl) eq_refl eq_refl).
Defined.

(** C4, as the claim states it, fails on a track that carries both flags:
    both actions are applied, and the result is neither that of the
    transfer nor that of the bounce. *)
Lemma both_actions_applied :
  has_flag (tk_flags (ex_track1 3)) ATTRACT = true /\
  has_flag (tk_flags (ex_track1 3)) RETURN = true /\
  detected_first (ex_tracks 3) ex_ff 1 (ex_track1 3)
    (2 - 2 / 1000000) (2 + 2 / 1000000) /\
  update (ex_tracks 3) ex_ff <>
    attract 1 (2 - 2 / 1000000) (2 + 2 / 1000000)
      (advance (ex_tracks 3) ex_ff) /\
  update (ex_tracks 3) ex_ff <>
    bounce (ff_t ex_ff) (advance (ex_tracks 3) ex_ff) /\
  update (ex_tracks 3) ex_ff =
    bounce (ff_t ex_ff)
      (attract 1 (2 - 2 / 1000000) (2 + 2 / 1000000)
         (advance (ex_tracks 3) ex_ff)).
Proof.
  split; [reflexivity |]. split; [reflexivity |].
  split; [exact (ex_detected_first 3 eq_refl) |].
  rewrite ex_update_both, ex_advance.
  unfold attract, bounce, set_tr, set_t, set_v. simpl. Rcmp. simpl.
  split; [| split].
  - intros [= H]. lra.
  - intros [= H].
  - reflexivity.
Qed.

Lemma crossing_resolution_witness :
  update (ex_tracks 3) ex_ff =
  bounce (ff_t ex_ff)
    (attract 1 (2 - 2 / 1000000) (2 + 2 / 1000000)
       (advance (ex_tracks 3) ex_ff)).
Proof.
  destruct (crossing_resolution (ex_tracks 3) ex_ff) as (Hres & _).
  destruct (Hres 1%nat (ex_track1 3) _ _ (ex_detected_first 3 eq_refl))
    as (Hu & _).
  exact Hu.
Defined.

(** ** Speed *)

Section Ticks.
Context {F : Type} {ops : FloatOps F}.

Lemma trail_step_state (ks : list (track F)) (m : trail_manager)
    (fs : list (firefly F)) :
  map ff_state (trail_step ks m fs).2 = map ff_state fs.
Proof.
  unfold trail_step. destruct (_ =? _)%Z; simpl; [| reflexivity].
  rewrite map_map. apply map_ext. intros f. reflexivity.
Qed.

Lemma tick_state (s : scene F) :
  map ff_state (fireflies (tick s)) =
  map (fun f => ff_state (update (tracks s) f)) (fireflies s).
Proof.
  unfold tick.
  pose proof (trail_step_state (tracks s) (trail_m s)
                (map (update (tracks s)) (fireflies s))) as H.
  destruct (trail_step _ _ _) as [m fs]. simpl in *.
  rewrite H, map_map. reflexivity.
Qed.

Lemma tick_fields (s : scene F) :
  tracks (tick s) = tracks s /\ fireflies_init (tick s) = fireflies_init s.
Proof.
  unfold tick. destruct (trail_step _ _ _) as [m fs]. simpl. auto.
Qed.

Lemma ticks_fields (n : nat) (s : scene F) :
  tracks (ticks n s) = tracks s /\
  fireflies_init (ticks n s) = fireflies_init s.
Proof.
  induction n as [| n [IHk IHf]]; simpl; [auto |].
  destruct (tick_fields (ticks n s)) as [Hk Hf].
  unfold ticks in *. simpl. rewrite Hk, Hf. auto.
Qed.

End Ticks.

(** C10: a step leaves the velocity of a firefly as it is or negates it,
    whatever the outcome of the step, so its absolute value is kept, by
    one step and by any number of ticks of the scene. *)
Theorem speed_invariant :
  (forall (tracks : list (track R)) (f : firefly R),
      (ff_v (update tracks f) = ff_v f \/
       ff_v (update tracks f) = (- ff_v f)%R) /\
      Rabs (ff_v (update tracks f)) = Rabs (ff_v f)) /\
  (forall (n : nat) (s : scene R),
      map (fun f => Rabs (ff_v f)) (fireflies (ticks n s)) =
      map (fun f => Rabs (ff_v f)) (fireflies s)).
Proof.
  assert (Hstep : forall (tracks : list (track R)) (f : firefly R),
             (ff_v (update tracks f) = ff_v f \/
              ff_v (update tracks f) = (- ff_v f)%R) /\
             Rabs (ff_v (update tracks f)) = Rabs (ff_v f)).
  { intros ks f.
    destruct (update_velocity ks f) as [H | [H | H]]; rewrite H; simpl.
    - auto.
    - split; [auto | apply Rabs_Ropp].
    - rewrite Ropp_involutive. auto. }
  split; [exact Hstep |].
  intros n s. induction n as [| n IH]; [reflexivity |].
  rewrite <- IH. unfold ticks. simpl. fold (ticks n s).
  set (s' := ticks n s).
  assert (Hv : forall l : list (firefly R),
             map (fun f => Rabs (ff_v f)) l =
             map (fun st : nat * R * R => Rabs st.2) (map ff_state l)).
  { intros l. rewrite map_map. apply map_ext. intros f. reflexivity. }
  rewrite (Hv (fireflies (tick s'))), tick_state, map_map.
  apply map_ext. intros f. simpl. apply Hstep.
Qed.

(** ** Bellflowers *)

Section Bells.
Context {F : Type} {ops : FloatOps F}.
Local Open Scope Z_scope.

Lemma bf_step_fixed (on : bool) (b : bellflower F) :
  bf_o (bf_step on b) = bf_o b /\ bf_r (bf_step on b) = bf_r b.
Proof.
  unfold bf_step, bf_update_on. destruct (bf_kind b); simpl; auto.
Qed.

Lemma within_fixed (ks : list (track F)) (b b' : bellflower F)
    (fs : list (firefly F)) :
  bf_o b' = bf_o b -> bf_r b' = bf_r b ->
  fireflies_within ks b' fs = fireflies_within ks b fs.
Proof. unfold fireflies_within. intros -> ->. reflexivity. Qed.

Lemma bf_reset_step (on : bool) (b : bellflower F) :
  bf_reset (bf_step on b) = bf_reset b.
Proof.
  unfold bf_reset, bf_step, bf_update_on.
  destruct (bf_kind b) eqn:E; simpl; rewrite ?E; reflexivity.
Qed.

Lemma bf_reset_idem (b : bellflower F) : bf_reset (bf_reset b) = bf_reset b.
Proof. unfold bf_reset. simpl. destruct (bf_kind b); reflexivity. Qed.

Lemma bf_run_app (ks : list (track F)) (l1 l2 : list (list (firefly F)))
    (b : bellflower F) :
  bf_run ks (l1 ++ l2) b = bf_run ks l2 (bf_run ks l1 b).
Proof. unfold bf_run. apply foldl_app. Qed.

Lemma bf_run_fixed (ks : list (track F)) (l : list (list (firefly F))) :
  forall b, bf_o (bf_run ks l b) = bf_o b /\ bf_r (bf_run ks l b) = bf_r b.
Proof.
  induction l as [| fs l IH]; intros b; simpl; [auto |].
  destruct (IH (bf_update ks fs b)) as [-> ->]. apply bf_step_fixed.
Qed.

(** One tick with a firefly within the radius, and one with none. *)
Lemma delay_tick_inside (b : bellflower F) (d d0 : Z) :
  bf_kind b = Delay d d0 -> (0 < d)%Z ->
  bf_step true b =
  Bellflower (bf_o b) (bf_r b) (bf_c0 b)
    (if negb (bf_last_on b) && (d - 1 =? 0)%Z then int_dec (bf_c b)
     else bf_c b)
    (d - 1 =? 0)%Z (Delay (d - 1) d0).
Proof.
  intros Hk Hd. unfold bf_step, bf_update_on, delay_step. rewrite Hk. simpl.
  destruct (Z.gtb_spec d 0); [reflexivity | lia].
Qed.

Lemma delay_tick_triggered (b : bellflower F) (d0 : Z) :
  bf_kind b = Delay 0 d0 -> bf_last_on b = true ->
  bf_step true b =
  Bellflower (bf_o b) (bf_r b) (bf_c0 b) (bf_c b) true (Delay 0 d0).
Proof.
  intros Hk Hl. unfold bf_step, bf_update_on, delay_step.
  rewrite Hk, Hl. reflexivity.
Qed.

Lemma delay_tick_outside (b : bellflower F) (d d0 : Z) :
  bf_kind b = Delay d d0 -> d0 <> 0 ->
  bf_step false b =
  Bellflower (bf_o b) (bf_r b) (bf_c0 b) (bf_c b) false (Delay d0 d0).
Proof.
  intros Hk Hd. unfold bf_step, bf_update_on, delay_step. rewrite Hk. simpl.
  destruct (Z.eqb_spec d0 0); [contradiction |].
  rewrite andb_false_r. reflexivity.
Qed.

Lemma Forall_within_fixed (ks : list (track F)) (b b' : bellflower F)
    (v : bool) (l : list (list (firefly F))) :
  bf_o b' = bf_o b -> bf_r b' = bf_r b ->
  Forall (fun fs => fireflies_within ks b fs = v) l ->
  Forall (fun fs => fireflies_within ks b' fs = v) l.
Proof.
  intros Ho Hr Hl. eapply Forall_impl; [exact Hl |].
  intros fs <-. apply within_fixed; assumption.
Qed.

Lemma inside_triggered (ks : list (track F)) (ins : list (list (firefly F))) :
  forall (b : bellflower F) (d0 : Z),
    bf_kind b = Delay 0 d0 -> bf_last_on b = true ->
    Forall (fun fs => fireflies_within ks b fs = true) ins ->
    bf_c (bf_run ks ins b) = bf_c b /\
    bf_last_on (bf_run ks ins b) = true /\
    bf_kind (bf_run ks ins b) = Delay 0 d0.
Proof.
  induction ins as [| fs ins IH]; intros b d0 Hk Hl Hin; simpl; [auto |].
  inversion Hin as [| ? ? Hfs Hins]; subst.
  unfold bf_update. rewrite Hfs, (delay_tick_triggered b d0 Hk Hl).
  match goal with |- context [bf_run ks ins ?b1] =>
    destruct (IH b1 d0) as (Hc & Hlo & Hkd) end; try reflexivity.
  - eapply Forall_within_fixed; [| | exact Hins]; reflexivity.
  - rewrite Hc, Hlo, Hkd. auto.
Qed.

(** The countdown from [d]: nothing happens before the [d]-th tick within
    the radius; the count is decremented once, on the [d]-th. *)
Lemma inside_countdown (ks : list (track F)) (ins : list (list (firefly F))) :
  forall (b : bellflower F) (d d0 : Z),
    bf_kind b = Delay d d0 -> bf_last_on b = false -> (0 < d)%Z ->
    Forall (fun fs => fireflies_within ks b fs = true) ins ->
    if (Z.of_nat (length ins) <? d)%Z then
      bf_c (bf_run ks ins b) = bf_c b /\
      bf_last_on (bf_run ks ins b) = false /\
      bf_kind (bf_run ks ins b) = Delay (d - Z.of_nat (length ins)) d0
    else
      bf_c (bf_run ks ins b) = int_dec (bf_c b) /\
      bf_last_on (bf_run ks ins b) = true /\
      bf_kind (bf_run ks ins b) = Delay 0 d0.
Proof.
  induction ins as [| fs ins IH]; intros b d d0 Hk Hl Hd Hin.
  - simpl. change (Z.of_nat 0) with 0.
    destruct (Z.ltb_spec 0 d); [| lia].
    rewrite Z.sub_0_r. repeat split; assumption.
  - inversion Hin as [| ? ? Hfs Hins]; subst.
    simpl bf_run. unfold bf_update.
    rewrite Hfs, (delay_tick_inside b d d0 Hk Hd), Hl. simpl negb.
    rewrite andb_true_l.
    destruct (Z.eqb_spec (d - 1) 0) as [H1 | H1].
    + (* the [d]-th tick *)
      rewrite H1.
      match goal with |- context [bf_run ks ins ?b1] =>
        destruct (inside_triggered ks ins b1 d0) as (Hc & Hlo & Hkd) end;
        try reflexivity.
      { eapply Forall_within_fixed; [| | exact Hins]; reflexivity. }
      destruct (Z.ltb_spec (Z.of_nat (length (fs :: ins))) d) as [Hlt | Hge].
      * simpl length in Hlt. lia.
      * rewrite Hc, Hlo, Hkd. auto.
    + match goal with |- context [bf_run ks ins ?b1] =>
        pose proof (IH b1 (d - 1)%Z d0) as IH1 end.
      simpl in IH1.
      specialize (IH1 eq_refl eq_refl ltac:(lia)).
      specialize (IH1 ltac:(eapply Forall_within_fixed;
                            [| | exact Hins]; reflexivity)).
      simpl length. rewrite Nat2Z.inj_succ.
      destruct (Z.ltb_spec (Z.of_nat (length ins)) (d - 1));
        destruct (Z.ltb_spec (Z.succ (Z.of_nat (length ins))) d); try lia.
      * destruct IH1 as (Hc & Hlo & Hkd). rewrite Hc, Hlo, Hkd.
        repeat split. f_equal. lia.
      * exact IH1.
Qed.

(** Any tick with no firefly within the radius puts the countdown back to
    [d0]. *)
Lemma outside_resets (ks : list (track F)) (outs : list (list (firefly F))) :
  forall (b : bellflower F) (d d0 : Z),
    bf_kind b = Delay d d0 -> d0 <> 0 -> outs <> [] ->
    Forall (fun fs => fireflies_within ks b fs = false) outs ->
    bf_c (bf_run ks outs b) = bf_c b /\
    bf_last_on (bf_run ks outs b) = false /\
    bf_kind (bf_run ks outs b) = Delay d0 d0.
Proof.
  induction outs as [| fs outs IH]; intros b d d0 Hk Hd0 Hne Hout;
    [contradiction |].
  inversion Hout as [| ? ? Hfs Houts]; subst.
  simpl bf_run. unfold bf_update.
  rewrite Hfs, (delay_tick_outside b d d0 Hk Hd0).
  destruct outs as [| fs' outs]; [simpl; auto |].
  match goal with |- context [bf_run ks ?l ?b1] =>
    destruct (IH b1 d0 d0 eq_refl Hd0 ltac:(discriminate) Houts)
      as (Hc & Hlo & Hkd) end.
  rewrite Hc, Hlo, Hkd. auto.
Qed.

(** C8: a delayed bellflower with a countdown of 5 steps that a firefly
    enters: as long as the firefly has been within the radius for fewer
    than 5 consecutive ticks the count [c] is unchanged; from the 5th tick
    on it is [c - 1], decremented once and only once however long the
    firefly stays ([c] being above the least [int]).  If the firefly
    leaves after 3 ticks, the countdown is back at 5, and after it comes
    back the decrement occurs on the 5th tick again. *)
Theorem delayed_bellflower_five (ks : list (track F)) (b : bellflower F)
    (ins : list (list (firefly F))) :
  bf_kind b = Delay 5 5 ->
  bf_last_on b = false ->
  Forall (fun fs => fireflies_within ks b fs = true) ins ->
  - 2 ^ 31 < bf_c b < 2 ^ 31 ->
  ((length ins < 5)%nat -> bf_c (bf_run ks ins b) = bf_c b) /\
  ((5 <= length ins)%nat -> bf_c (bf_run ks ins b) = bf_c b - 1) /\
  (forall outs again : list (list (firefly F)),
      length ins = 3%nat -> outs <> [] ->
      Forall (fun fs => fireflies_within ks b fs = false) outs ->
      Forall (fun fs => fireflies_within ks b fs = true) again ->
      bf_kind (bf_run ks ins b) = Delay 2 5 /\
      bf_kind (bf_run ks (ins ++ outs) b) = Delay 5 5 /\
      ((length again < 5)%nat ->
       bf_c (bf_run ks (ins ++ outs ++ again) b) = bf_c b) /\
      ((5 <= length again)%nat ->
       bf_c (bf_run ks (ins ++ outs ++ again) b) = bf_c b - 1)).
Proof.
  intros Hk Hl Hin Hrange.
  pose proof (inside_countdown ks ins b 5 5 Hk Hl ltac:(lia) Hin) as Hcount.
  split; [| split].
  - intros Hlt. destruct (Z.ltb_spec (Z.of_nat (length ins)) 5); [| lia].
    apply Hcount.
  - intros Hge. destruct (Z.ltb_spec (Z.of_nat (length ins)) 5); [lia |].
    rewrite <- (int_dec_small _ Hrange). apply Hcount.
  - intros outs again Hlen Hne Hout Hagain.
    rewrite Hlen in Hcount. simpl in Hcount.
    destruct Hcount as (Hc & Hlo & Hkd).
    destruct (bf_run_fixed ks ins b) as [Ho Hr].
    destruct (outside_resets ks outs (bf_run ks ins b) 2 5 Hkd ltac:(lia) Hne)
      as (Hc' & Hlo' & Hkd').
    { eapply Forall_within_fixed; [exact Ho | exact Hr | exact Hout]. }
    rewrite !bf_run_app.
    destruct (bf_run_fixed ks outs (bf_run ks ins b)) as [Ho' Hr'].
    pose proof (inside_countdown ks again (bf_run ks outs (bf_run ks ins b))
                  5 5 Hkd' Hlo' ltac:(lia)) as Hcount'.
    specialize (Hcount' ltac:(eapply Forall_within_fixed;
                              [rewrite Ho'; exact Ho | rewrite Hr'; exact Hr
                              | exact Hagain])).
    split; [exact Hkd | split; [exact Hkd' | split]].
    + intros Hlt.
      destruct (Z.ltb_spec (Z.of_nat (length again)) 5); [| lia].
      destruct Hcount' as (-> & _). rewrite Hc'. exact Hc.
    + intros Hge.
      destruct (Z.ltb_spec (Z.of_nat (length again)) 5); [lia |].
      destruct Hcount' as (-> & _). rewrite Hc', Hc.
      apply int_dec_small. exact Hrange.
Qed.

End Bells.

Lemma ex_bell_eq : ex_bell = Bellflower (Vec2 0 0) 1 3 3 false (Delay 5 5).
Proof.
  unfold ex_bell, bellflower_delay, bf_reset. simpl.
  assert (Ht : Rtrunc (5 / 480 * IZR STEPS) = 5%Z).
  { unfold Rtrunc, STEPS.
    destruct (Rle_dec 0 (5 / 480 * 480)) as [_ | Hn]; [| lra].
    symmetry. apply Int_part_spec. lra. }
  rewrite Ht. reflexivity.
Qed.

Lemma ex_ff_within (fl : N) :
  fireflies_within (ex_tracks fl) ex_bell [ex_ff] = true.
Proof.
  unfold fireflies_within. cbn [existsb].
  rewrite (ex_pos fl ex_ff (- (1 / 512))) by (simpl; lra || reflexivity).
  rewrite ex_bell_eq. unfold norm, vsub. simpl.
  Rsqrt (1 / 512). Rcmp. reflexivity.
Qed.

Lemma delayed_bellflower_five_witness :
  bf_kind ex_bell = Delay 5 5 /\
  bf_last_on ex_bell = false /\
  Forall (fun fs => fireflies_within (ex_tracks 0) ex_bell fs = true)
    (replicate 5 [ex_ff]) /\
  (- 2 ^ 31 < bf_c ex_bell < 2 ^ 31)%Z /\
  bf_c (bf_run (ex_tracks 0) (replicate 4 [ex_ff]) ex_bell) = 3%Z /\
  bf_c (bf_run (ex_tracks 0) (replicate 5 [ex_ff]) ex_bell) = 2%Z.
Proof.
  assert (Hk : bf_kind ex_bell = Delay 5 5) by (rewrite ex_bell_eq; reflexivity).
  assert (Hl : bf_last_on ex_bell = false) by (rewrite ex_bell_eq; reflexivity).
  assert (Hc : bf_c ex_bell = 3%Z) by (rewrite ex_bell_eq; reflexivity).
  assert (Hin : forall n, Forall (fun fs => fireflies_within (ex_tracks 0)
                                     ex_bell fs = true) (replicate n [ex_ff])).
  { intros n. apply Forall_replicate. apply ex_ff_within. }
  assert (Hrange : (- 2 ^ 31 < bf_c ex_bell < 2 ^ 31)%Z)
    by (rewrite Hc; lia).
  split; [exact Hk |]. split; [exact Hl |]. split; [apply Hin |].
  split; [exact Hrange |]. split.
  - destruct (delayed_bellflower_five (ex_tracks 0) ex_bell
                (replicate 4 [ex_ff]) Hk Hl (Hin 4%nat) Hrange) as (H4 & _).
    rewrite H4; [exact Hc | simpl; lia].
  - destruct (delayed_bellflower_five (ex_tracks 0) ex_bell
                (replicate 5 [ex_ff]) Hk Hl (Hin 5%nat) Hrange) as (_ & H5 & _).
    rewrite H5; [rewrite Hc; reflexivity | simpl; lia].
Defined.

(** ** Run and stop *)

Section Snapshot.
Context {F : Type} {ops : FloatOps F}.
Local Open Scope Z_scope.

Lemma tick_bellflowers (s : scene F) :
  map bf_reset (bellflowers (tick s)) = map bf_reset (bellflowers s) /\
  run_state (tick s) = run_state s.
Proof.
  unfold tick. destruct (trail_step _ _ _) as [m fs]. simpl.
  split; [| reflexivity].
  rewrite map_map. apply map_ext. intros b. apply bf_reset_step.
Qed.

Lemma ticks_bellflowers (n : nat) (s : scene F) :
  map bf_reset (bellflowers (ticks n s)) = map bf_reset (bellflowers s) /\
  run_state (ticks n s) = run_state s.
Proof.
  induction n as [| n [IHb IHr]]; [auto |].
  unfold ticks in *. simpl.
  destruct (tick_bellflowers (Nat.iter n tick s)) as [-> ->]. auto.
Qed.

Lemma stop_run_idle (s : scene F) : bells_idle (stop_run s).
Proof.
  unfold bells_idle, stop_run. simpl.
  rewrite map_map. apply map_ext. intros b. apply bf_reset_idem.
Qed.

Lemma run_bit_kept (r : Z) (grave one : bool) :
  Z.land (Z.lor (Z.land r 1)
            (Z.shiftl (if grave then 1 else if one then 16 else 4) 1)) 1 =
  Z.land r 1.
Proof.
  rewrite Z.land_lor_distr_l, <- Z.land_assoc.
  change (Z.land 1 1) with 1.
  destruct grave, one; simpl; apply Z.lor_0_r.
Qed.

Lemma run_tail_idle (space_down grave one : bool) (s1 : scene F) (n : nat) :
  (paused s1 -> bells_idle s1) ->
  forall rs : Z,
    rs = Z.lor (Z.land (run_state s1) 1)
           (Z.shiftl (if grave then 1 else if one then 16 else 4) 1) ->
    paused (if negb (Z.land rs 1 =? 0)
            then ticks n (with_run s1 rs space_down)
            else with_run s1 rs space_down) ->
    bells_idle (if negb (Z.land rs 1 =? 0)
                then ticks n (with_run s1 rs space_down)
                else with_run s1 rs space_down).
Proof.
  intros Hs rs Hrs.
  assert (Hbit : Z.land rs 1 = Z.land (run_state s1) 1)
    by (rewrite Hrs; apply run_bit_kept).
  rewrite Hbit.
  destruct (Z.eqb_spec (Z.land (run_state s1) 1) 0) as [He | Hne]; simpl.
  - intros _. apply Hs. exact He.
  - unfold paused. rewrite (proj2 (ticks_bellflowers _ _)). simpl.
    rewrite Hbit. intros Hp. contradiction.
Qed.

Lemma toggle_idle (s : scene F) :
  (paused s -> bells_idle s) ->
  let s' := with_run s (Z.lxor (run_state s) 1) (last_space_down s) in
  let s1 := if negb (Z.land (run_state s') 1 =? 0)
            then start_run s' else stop_run s' in
  paused s1 -> bells_idle s1.
Proof.
  intros Hs s' s1. subst s1.
  destruct (Z.eqb_spec (Z.land (run_state s') 1) 0) as [He | Hne]; simpl negb;
    cbv iota.
  - intros _. apply stop_run_idle.
  - unfold paused. simpl. intros Hp. contradiction.
Qed.

Lemma scene_update_idle (space_down grave one : bool) (s : scene F) :
  (paused s -> bells_idle s) ->
  paused (scene_update space_down grave one s) ->
  bells_idle (scene_update space_down grave one s).
Proof.
  intros Hs. unfold scene_update.
  destruct (bool_decide (sel_track s = None) && negb (last_space_down s)
            && space_down).
  - intros Hp.
    eapply (run_tail_idle space_down grave one _ _ (toggle_idle s Hs));
      [reflexivity | exact Hp].
  - intros Hp.
    eapply (run_tail_idle space_down grave one _ _ Hs);
      [reflexivity | exact Hp].
Qed.

Lemma pton_keeps (W H : Z) (x y : F) (s : scene F) :
  bellflowers (pton W H x y s) = bellflowers s /\
  run_state (pton W H x y s) = run_state s.
Proof.
  unfold pton. destruct (negb _); [auto |].
  destruct (find s (board W H x y)) as [[i |] [j |]]; simpl; auto.
Qed.

Lemma ptmove_keeps (W H : Z) (x y : F) (s : scene F) :
  bellflowers (ptmove W H x y s) = bellflowers s /\
  run_state (ptmove W H x y s) = run_state s.
Proof.
  unfold ptmove.
  destruct (sel_ff s) as [i |] eqn:Ef; destruct (sel_track s) as [j |] eqn:Et;
    simpl; rewrite ?Et; simpl; auto.
Qed.

(** Whenever no run is going on, the bellflowers are as [reset] leaves
    them: they are so after the constructor and after [stop_run], and only
    a tick of a run changes them. *)
Lemma reachable_paused_idle (W H : Z) (s : scene F) :
  reachable W H s -> paused s -> bells_idle s.
Proof.
  induction 1 as [ks ffs bells links | sp g o s Hr IH | x y s Hr IH
                 | x y s Hr IH | x y s Hr IH]; intros Hp.
  - unfold bells_idle, scene_game. simpl.
    rewrite map_map. apply map_ext. intros [o r c0 | o r c0 d0]; simpl;
      apply bf_reset_idem.
  - apply scene_update_idle; assumption.
  - unfold paused, bells_idle in *.
    destruct (pton_keeps W H x y s) as [Hb Hrs].
    rewrite Hb. rewrite Hrs in Hp. apply IH. exact Hp.
  - unfold paused, bells_idle in *.
    destruct (ptmove_keeps W H x y s) as [Hb Hrs].
    rewrite Hb. rewrite Hrs in Hp. apply IH. exact Hp.
  - apply IH. exact Hp.
Qed.

(** C9: from any scene that the program can be in while no run is going
    on, starting a run, advancing [n] ticks and stopping the run gives
    back the vector of fireflies (hence the track reference, phase and
    velocity of each) and the vector of bellflowers (hence the counter and
    the edge latch of each) as they were before the run started. *)
Theorem snapshot_restore (W H : Z) (s : scene F) (n : nat) :
  reachable W H s -> paused s ->
  fireflies (stop_run (ticks n (start_run s))) = fireflies s /\
  map ff_state (fireflies (stop_run (ticks n (start_run s)))) =
    map ff_state (fireflies s) /\
  bellflowers (stop_run (ticks n (start_run s))) = bellflowers s /\
  map (fun b => (bf_c b, bf_last_on b))
      (bellflowers (stop_run (ticks n (start_run s)))) =
    map (fun b => (bf_c b, bf_last_on b)) (bellflowers s).
Proof.
  intros Hr Hp.
  assert (Hf : fireflies (stop_run (ticks n (start_run s))) = fireflies s).
  { unfold stop_run. simpl.
    rewrite (proj2 (ticks_fields n (start_run s))). reflexivity. }
  assert (Hb : bellflowers (stop_run (ticks n (start_run s))) = bellflowers s).
  { unfold stop_run. simpl.
    rewrite (proj1 (ticks_bellflowers n (start_run s))). simpl.
    apply (reachable_paused_idle W H s Hr Hp). }
  rewrite Hf, Hb. auto.
Qed.

End Snapshot.

Lemma snapshot_restore_witness :
  reachable 800 480 ex_scene /\ paused ex_scene /\
  fireflies (stop_run (ticks 7 (start_run ex_scene))) = fireflies ex_scene /\
  bellflowers (stop_run (ticks 7 (start_run ex_scene))) =
    bellflowers ex_scene.
Proof.
  assert (Hr : reachable 800 480 ex_scene) by apply reach_scene_game.
  assert (Hp : paused ex_scene) by reflexivity.
  destruct (snapshot_restore 800 480 ex_scene 7 Hr Hp) as (Hf & _ & Hb & _).
  auto.
Defined.

(** ** Projection onto a circular track *)

Lemma sin_cos_period_Z (x : R) (k : Z) :
  sin (x + 2 * IZR k * PI) = sin x /\ cos (x + 2 * IZR k * PI) = cos x.
Proof.
  destruct (Z_le_gt_dec 0 k) as [Hk | Hk].
  - rewrite <- (Z2Nat.id k Hk), <- INR_IZR_INZ.
    split; [apply sin_period | apply cos_period].
  - assert (Hn : (0 <= - k)%Z) by lia.
    set (y := x + 2 * IZR k * PI).
    replace x with (y + 2 * INR (Z.to_nat (- k)) * PI).
    + rewrite sin_period, cos_period. auto.
    + rewrite INR_IZR_INZ, (Z2Nat.id _ Hn), opp_IZR. unfold y. ring.
Qed.

Lemma atan_tan_polar (r g : R) :
  0 < r -> - (PI / 2) < g < PI / 2 ->
  atan (r * sin g / (r * cos g)) = g.
Proof.
  intros Hr Hg.
  assert (Hc : 0 < cos g) by (apply cos_gt_0; lra).
  replace (r * sin g / (r * cos g)) with (tan g)
    by (unfold tan; field; lra).
  apply atan_tan. exact Hg.
Qed.

Ltac case_dec :=
  repeat match goal with
  | |- context [Rlt_dec ?a ?b] => destruct (Rlt_dec a b)
  | |- context [Rle_dec ?a ?b] => destruct (Rle_dec a b)
  end.

Lemma atan2_polar (r a : R) :
  0 < r -> - PI < a <= PI -> atan2 (r * sin a) (r * cos a) = a.
Proof.
  intros Hr Ha. pose proof PI_RGT_0 as Hpi. unfold atan2.
  destruct (Rtotal_order a (- (PI / 2))) as [H1 | [H1 | H1]].
  - (* third quadrant *)
    set (g := a + PI).
    assert (Hs : sin a = - sin g) by (unfold g; rewrite neg_sin; ring).
    assert (Hc : cos a = - cos g) by (unfold g; rewrite neg_cos; ring).
    assert (Hcg : 0 < cos g) by (apply cos_gt_0; unfold g; lra).
    assert (Hsg : 0 < sin g) by (apply sin_gt_0; unfold g; lra).
    destruct (Rlt_dec 0 (r * cos a)) as [Hx | Hx]; [rewrite Hc in Hx; nra |].
    destruct (Rlt_dec (r * cos a) 0) as [Hx' | Hx']; [| rewrite Hc in Hx'; nra].
    destruct (Rle_dec 0 (r * sin a)) as [Hy | Hy]; [rewrite Hs in Hy; nra |].
    replace (r * sin a / (r * cos a)) with (r * sin g / (r * cos g))
      by (rewrite Hs, Hc; field; lra).
    rewrite atan_tan_polar by (unfold g; lra). unfold g. ring.
  - (* a = - PI / 2 *)
    subst a. rewrite cos_neg, sin_neg, cos_PI2, sin_PI2.
    case_dec; try reflexivity; lra.
  - destruct (Rtotal_order a (PI / 2)) as [H2 | [H2 | H2]].
    + (* right half plane *)
      assert (Hc : 0 < cos a) by (apply cos_gt_0; lra).
      destruct (Rlt_dec 0 (r * cos a)) as [Hx | Hx]; [| nra].
      apply atan_tan_polar; lra.
    + subst a. rewrite cos_PI2, sin_PI2.
      case_dec; try reflexivity; lra.
    + (* second quadrant *)
      set (g := a - PI).
      assert (Hs : sin a = - sin g).
      { replace a with (g + PI) by (unfold g; ring). rewrite neg_sin. ring. }
      assert (Hc : cos a = - cos g).
      { replace a with (g + PI) by (unfold g; ring). rewrite neg_cos. ring. }
      assert (Hcg : 0 < cos g) by (apply cos_gt_0; unfold g; lra).
      assert (Hsg : sin g <= 0).
      { destruct (Req_dec g 0) as [-> | Hg0]; [rewrite sin_0; lra |].
        left. apply sin_lt_0_var; unfold g in *; lra. }
      destruct (Rlt_dec 0 (r * cos a)) as [Hx | Hx]; [rewrite Hc in Hx; nra |].
      destruct (Rlt_dec (r * cos a) 0) as [Hx' | Hx']; [| rewrite Hc in Hx'; nra].
      destruct (Rle_dec 0 (r * sin a)) as [Hy | Hy]; [| rewrite Hs in Hy; nra].
      replace (r * sin a / (r * cos a)) with (r * sin g / (r * cos g))
        by (rewrite Hs, Hc; field; lra).
      rewrite atan_tan_polar by (unfold g; lra). unfold g. ring.
Qed.

Lemma Rmod_range (x L : R) : 0 < L -> 0 <= Rmod x L < L.
Proof.
  intros HL. unfold Rmod.
  destruct (base_Int_part (x / L)) as [H1 H2].
  assert (Hx : x = x / L * L) by (field; lra).
  split; nra.
Qed.

Lemma Rmod_small (x L : R) : 0 <= x < L -> Rmod x L = x.
Proof.
  intros [H0 H1]. unfold Rmod.
  assert (HL : L * / L = 1) by (field; lra).
  assert (Hinv : 0 < / L) by (apply Rinv_0_lt_compat; lra).
  assert (Hq : 0 <= x / L < 1) by (unfold Rdiv; split; nra).
  assert (Hz : Int_part (x / L) = 0%Z).
  { symmetry. apply Int_part_spec. simpl. lra. }
  rewrite Hz. simpl. ring.
Qed.

(** The round trip of C7 in the real numbers: on a circular track of
    radius [r > 0], whose length is [2 * PI * r], the projection of the
    point at phase [phi] is the pair of [phi mod length], which lies in
    [0, length) and is [phi] itself when [phi] does, and of the distance 0.
    In binary32 the round trip goes through [sinf], [cosf] and [atan2f],
    which IEEE 754 does not define, and through the rounding of each
    operation: the equalities hold up to rounding only. *)
Theorem circle_projection_roundtrip (o : vec2 R) (r : R) (flags : N)
    (fix_angle : R) (fix_count : Z) (phi : R) :
  0 < r ->
  let k := track_cir o r flags fix_angle fix_count in
  tk_len k = 2 * PI * r /\
  0 <= Rmod phi (tk_len k) < tk_len k /\
  (0 <= phi < tk_len k -> Rmod phi (tk_len k) = phi) /\
  nearest k (track_at k phi) = (Rmod phi (tk_len k), 0).
Proof.
  intros Hr k. pose proof PI_RGT_0 as Hpi.
  split; [reflexivity |].
  split; [apply Rmod_range; unfold k, track_cir; simpl; nra |].
  split; [apply Rmod_small |].
  unfold nearest, track_at, local_nearest, local_at, k, track_cir. simpl.
  set (th := phi / r).
  set (n := Int_part (th / (2 * PI))).
  set (b := th - 2 * IZR n * PI).
  assert (Hb : 0 <= b < 2 * PI).
  { destruct (Rmod_range th (2 * PI) ltac:(lra)) as [H1 H2].
    unfold Rmod in H1, H2. fold n in H1, H2. unfold b. lra. }
  destruct (sin_cos_period_Z b n) as [Hsin Hcos].
  replace (b + 2 * IZR n * PI) with th in Hsin, Hcos by (unfold b; ring).
  assert (Hmod : Rmod phi (2 * PI * r) = b * r).
  { unfold Rmod. replace (phi / (2 * PI * r)) with (th / (2 * PI))
      by (unfold th; field; lra).
    fold n. unfold b, th. field. lra. }
  rewrite Hmod.
  replace (r * cos th - 0 * sin th + vx o - vx o) with (r * cos b)
    by (rewrite Hcos; ring).
  replace (r * sin th + 0 * cos th + vy o - vy o) with (r * sin b)
    by (rewrite Hsin; ring).
  assert (Ha : (if Rltb (atan2 (r * sin b) (r * cos b)) 0
                then atan2 (r * sin b) (r * cos b) + 2 * PI
                else atan2 (r * sin b) (r * cos b)) = b).
  { destruct (Rle_dec b PI) as [Hle | Hgt].
    - rewrite (atan2_polar r b Hr) by lra.
      rewrite Rltb_false by lra. reflexivity.
    - destruct (sin_cos_period_Z (b - 2 * PI) 1) as [Hs1 Hc1].
      replace (b - 2 * PI + 2 * 1 * PI) with b in Hs1, Hc1 by ring.
      rewrite Hs1, Hc1.
      rewrite (atan2_polar r (b - 2 * PI) Hr) by lra.
      rewrite Rltb_true by lra. ring. }
  rewrite Ha. f_equal.
  unfold norm, vsub, rot. simpl.
  replace ((r * cos b - (r * cos b - 0 * sin b)) *
           (r * cos b - (r * cos b - 0 * sin b)) +
           (r * sin b - (r * sin b + 0 * cos b)) *
           (r * sin b - (r * sin b + 0 * cos b))) with 0 by ring.
  apply sqrt_0.
Qed.

Lemma circle_projection_roundtrip_witness :
  0 < 1 /\
  nearest (track_cir (Vec2 0 0) 1 1 0 2)
    (track_at (track_cir (Vec2 0 0) 1 1 0 2) 7) =
  (Rmod 7 (tk_len (track_cir (Vec2 0 0) 1 1 0 2)), 0).
Proof.
  split; [lra |].
  apply (circle_projection_roundtrip (Vec2 0 0) 1 1 0 2 7). lra.
Defined.

(** ** The range of the phase *)

Lemma atan2_range (y x : R) : - PI < atan2 y x <= PI.
Proof.
  pose proof PI_RGT_0 as Hpi. unfold atan2.
  pose proof (atan_bound (y / x)) as Hb.
  destruct (Rlt_dec 0 x) as [Hx | Hx]; [lra |].
  destruct (Rlt_dec x 0) as [Hx' | Hx'].
  - assert (Hinv : / x < 0) by (apply Rinv_lt_0_compat; exact Hx').
    destruct (Rle_dec 0 y) as [Hy | Hy].
    + assert (Hq : y / x <= 0) by (unfold Rdiv; nra).
      destruct Hq as [Hq | Hq].
      * pose proof (atan_increasing _ _ Hq) as Hi. rewrite atan_0 in Hi. lra.
      * rewrite Hq, atan_0. lra.
    + assert (Hq : 0 < y / x) by (unfold Rdiv; nra).
      pose proof (atan_increasing _ _ Hq) as Hi. rewrite atan_0 in Hi. lra.
  - case_dec; lra.
Qed.

(** The projected parameter lies between 0 and the length, both
    included for a segment. *)
Lemma nearest_range (k : track R) (p : vec2 R) :
  wf_track k -> 0 <= (nearest k p).1 <= tk_len k.
Proof.
  unfold wf_track, nearest, local_nearest.
  destruct (tk_shape k) as [r fa fc | ext]; simpl.
  - intros [Hr ->]. pose proof PI_RGT_0 as Hpi.
    pose proof (atan2_range (vy p - vy (tk_o k)) (vx p - vx (tk_o k))) as Ha.
    unfold Rltb. destruct (Rlt_dec _ 0); simpl; split; nra.
  - intros Hlen. unfold Rltb.
    repeat (destruct (Rlt_dec _ _); simpl); lra.
Qed.

(** ** The link table and the drag *)

Section Links.
Context {F : Type} {ops : FloatOps F}.

Lemma foldl_invariant {A B : Type} (P : B -> Prop) (f : B -> A -> B) :
  (forall b a, P b -> P (f b a)) ->
  forall l b, P b -> P (foldl f b l).
Proof.
  intros Hf l. induction l as [| a l IH]; intros b Hb; simpl; [exact Hb |].
  apply IH, Hf, Hb.
Qed.

Lemma lookup_map {A B : Type} (f : A -> B) (l : list A) (i : nat) :
  map f l !! i = option_map f (l !! i).
Proof.
  revert i. induction l as [| a l IH]; intros [| i]; simpl; auto.
Qed.

(** [build_links] never lists a firefly among its own links: line 514
    skips [dep == indep]. *)
Lemma build_links_no_self (fs : list (firefly F)) (links : list (list nat)) :
  links_no_self (build_links fs links).
Proof.
  unfold build_links.
  apply (foldl_invariant links_no_self).
  - intros acc group Hacc.
    apply (foldl_invariant links_no_self); [| exact Hacc].
    clear acc Hacc. intros acc indep Hacc i l Hl.
    destruct (decide (indep = i)) as [-> | Hne].
    + rewrite list_lookup_alter_eq in Hl.
      destruct (acc !! i) as [l0 |] eqn:E; [| discriminate].
      simpl in Hl. injection Hl as <-.
      apply Forall_app. split; [apply (Hacc i l0 E) |].
      apply Forall_forall. intros [dep delta] Hin.
      apply list_elem_of_omap in Hin as (dep' & _ & Hdep).
      destruct (Nat.eqb_spec dep' i) as [E' | Hd]; simpl in Hdep;
        [discriminate |].
      injection Hdep as <- _. simpl. exact Hd.
    + rewrite list_lookup_alter_ne in Hl by exact Hne.
      apply (Hacc i l Hl).
  - intros i l Hl.
    apply lookup_replicate in Hl as [-> _]. constructor.
Qed.

Lemma tick_links (s : scene F) : ff_links (tick s) = ff_links s.
Proof. unfold tick. destruct (trail_step _ _ _). reflexivity. Qed.

Lemma ticks_links (n : nat) (s : scene F) : ff_links (ticks n s) = ff_links s.
Proof.
  induction n as [| n IH]; [reflexivity |].
  unfold ticks in *. simpl. rewrite tick_links. exact IH.
Qed.

Lemma scene_update_links (space_down grave one : bool) (s : scene F) :
  ff_links (scene_update space_down grave one s) = ff_links s.
Proof.
  unfold scene_update.
  destruct (bool_decide _ && _ && _); cbv zeta;
    repeat match goal with
           | |- context [if ?c then _ else _] => destruct c
           end;
    rewrite ?ticks_links; reflexivity.
Qed.

Lemma pton_links (W H : Z) (x y : F) (s : scene F) :
  ff_links (pton W H x y s) = ff_links s.
Proof.
  unfold pton. destruct (negb _); [reflexivity |].
  destruct (find s (board W H x y)) as [[i |] [j |]]; reflexivity.
Qed.

Lemma ptmove_links (W H : Z) (x y : F) (s : scene F) :
  ff_links (ptmove W H x y s) = ff_links s.
Proof.
  unfold ptmove.
  destruct (sel_ff s) as [i |] eqn:Ef; destruct (sel_track s) as [j |] eqn:Et;
    simpl; rewrite ?Et; reflexivity.
Qed.

Lemma reachable_links_no_self (W H : Z) (s : scene F) :
  reachable W H s -> links_no_self (ff_links s).
Proof.
  induction 1 as [ks ffs bells links | sp g o s Hr IH | x y s Hr IH
                 | x y s Hr IH | x y s Hr IH].
  - apply build_links_no_self.
  - rewrite scene_update_links. exact IH.
  - rewrite pton_links. exact IH.
  - rewrite ptmove_links. exact IH.
  - exact IH.
Qed.

(** Line 570 writes the phases of the linked fireflies only. *)
Lemma move_links_other (sel j : nat) (links : list (nat * F)) :
  Forall (fun link => link.1 <> j) links ->
  forall fs : list (firefly F), move_links sel links fs !! j = fs !! j.
Proof.
  unfold move_links.
  induction links as [| link links IH]; intros Hl fs; simpl; [reflexivity |].
  inversion Hl as [| ? ? Hne Hrest]; subst.
  rewrite (IH Hrest). apply list_lookup_alter_ne. exact Hne.
Qed.

(** Lines 566-572: the dragged firefly gets the parameter of the
    projection of the pointer onto its track. *)
Lemma ptmove_dragged (W H : Z) (x y : F) (s : scene F) (i : nat)
    (f : firefly F) :
  links_no_self (ff_links s) ->
  sel_ff s = Some i ->
  fireflies s !! i = Some f ->
  exists f',
    fireflies (ptmove W H x y s) !! i = Some f' /\
    ff_tr f' = ff_tr f /\
    ff_t f' = (nearest (track_of (tracks s) (ff_tr f))
                 (vadd (board W H x y) (sel_offs s))).1.
Proof.
  intros Hlinks Hsel Hf.
  set (t' := (nearest (track_of (tracks s) (ff_tr f))
                (vadd (board W H x y) (sel_offs s))).1).
  set (fs1 := alter (fun f => set_t f (nearest (track_of (tracks s) (ff_tr f))
                              (vadd (board W H x y) (sel_offs s))).1)
                i (fireflies s)).
  set (fs2 := move_links i (default [] (ff_links s !! i)) fs1).
  assert (H2 : fs2 !! i = Some (set_t f t')).
  { unfold fs2. rewrite move_links_other.
    - unfold fs1. rewrite list_lookup_alter_eq, Hf. reflexivity.
    - destruct (ff_links s !! i) as [l |] eqn:El; simpl.
      + apply (Hlinks i l El).
      + constructor. }
  unfold ptmove. rewrite Hsel. fold fs1. fold fs2.
  destruct (sel_track s) as [j |] eqn:Et; simpl; rewrite Et; simpl.
  - unfold recalc_init. rewrite !lookup_map, H2. simpl.
    eexists. split; [reflexivity |]. simpl. auto.
  - unfold recalc_init. rewrite !lookup_map, H2. simpl.
    eexists. split; [reflexivity |]. simpl. auto.
Qed.

(** Dragging changes the origin of a track, not its length or shape. *)
Lemma ptmove_tracks (W H : Z) (x y : F) (s : scene F) (j : nat) (k : track F) :
  tracks s !! j = Some k ->
  exists k',
    tracks (ptmove W H x y s) !! j = Some k' /\
    tk_len k' = tk_len k /\ tk_shape k' = tk_shape k /\
    tk_flags k' = tk_flags k.
Proof.
  intros Hk. unfold ptmove.
  destruct (sel_ff s) as [i |] eqn:Ef; destruct (sel_track s) as [j' |] eqn:Et;
    simpl; rewrite ?Et; simpl; try (exists k; auto; fail).
  - destruct (decide (j' = j)) as [-> | Hne].
    + rewrite list_lookup_alter_eq, Hk. simpl. eexists. split; [reflexivity |].
      simpl. auto.
    + rewrite list_lookup_alter_ne by exact Hne. exists k. auto.
  - destruct (decide (j' = j)) as [-> | Hne].
    + rewrite list_lookup_alter_eq, Hk. simpl. eexists. split; [reflexivity |].
      simpl. auto.
    + rewrite list_lookup_alter_ne by exact Hne. exists k. auto.
Qed.

End Links.

(** ** The drag of two linked fireflies *)

Lemma recalc_init_state {F : Type} {ops : FloatOps F} (ks : list (track F))
    (fs : list (firefly F)) :
  map ff_state (recalc_init ks fs) = map ff_state fs.
Proof.
  unfold recalc_init. rewrite map_map. apply map_ext. reflexivity.
Qed.

Lemma drag_scene0_eq :
  exists T0 T1,
    drag_scene0 =
    Scene [drag_track]
      [Firefly 0 1 1 false T0; Firefly 0 3 1 false T1] [] [] drag_links
      (TrailManager 0 0) None None (Vec2 0 0) 0 false.
Proof.
  unfold drag_scene0, scene_game, recalc_init, build_links, drag_links.
  rewrite ex_track0_eq. fold drag_track.
  cbn [map puzzle_firefly set_trail ff_tr ff_t ff_v ff_sel].
  do 2 eexists. unfold track_of. cbn -[drag_track seqZ].
  unfold set_trail. cbn [ff_tr ff_t ff_v ff_sel].
  change (tk_len drag_track) with 4. vec_eq.
Qed.

(** The pointer goes down on the first firefly and selects it. *)
Lemma drag_down_eq :
  exists T0 T1,
    drag_down =
    Scene [drag_track]
      [Firefly 0 1 1 true T0; Firefly 0 3 1 false T1] [] [] drag_links
      (TrailManager 0 0) (Some 0%nat) None (Vec2 0 0) 0 false.
Proof.
  unfold drag_down. destruct drag_scene0_eq as (T0 & T1 & ->).
  exists T0, T1.
  unfold pton, find, board, vdiv, vsub, SCALE. simpl.
  unfold pos, track_of, norm, vsub, track_at, local_at, vadd, vmul. simpl.
  Rsqrt 0. Rcmp. Rsqrt 2. Rcmp. simpl. vec_eq.
Qed.

Lemma drag_scene_states :
  map ff_state (fireflies drag_scene) = [(0%nat, 4, 1); (0%nat, 6, 1)] /\
  map tk_len (tracks drag_scene) = [4].
Proof.
  unfold drag_scene. destruct drag_down_eq as (T0 & T1 & ->).
  unfold ptmove.
  cbn [sel_ff sel_track with_fireflies fireflies tracks ff_links sel_offs].
  rewrite recalc_init_state. split; [| reflexivity].
  unfold board, vdiv, vsub, SCALE. simpl.
  unfold nearest, local_nearest, dot, vsub, vadd. simpl.
  Rcmp. unfold ff_state. simpl. vec_eq.
Qed.

(** C1, as the claim states it, fails for a drag: when the pointer is
    beyond the end of a segment, the dragged firefly gets the phase 4 on a
    track of length 4, and the firefly linked to it, two units further,
    the phase 6. *)
Lemma drag_beyond_end_of_segment :
  reachable 800 480 drag_scene /\
  map ff_state (fireflies drag_scene) = [(0%nat, 4, 1); (0%nat, 6, 1)] /\
  map tk_len (tracks drag_scene) = [4] /\
  ~ (0 <= 4 < 4) /\ ~ (0 <= 6 < 4).
Proof.
  split; [| split; [apply drag_scene_states | split;
                    [apply drag_scene_states | split; lra]]].
  unfold drag_scene, drag_down, drag_scene0.
  apply reach_ptmove, reach_pton, reach_scene_game.
Qed.

(** The single wrap of lines 239-240 does not bring back a firefly that
    moves by more than the length of its track in one step. *)
Lemma fast_firefly_leaves_range :
  ff_t (advance [drag_track] fast_ff) = 6 /\ tk_len drag_track = 4.
Proof.
  split; [| reflexivity].
  unfold advance, track_of. simpl. Rcmp. lra.
Qed.

(** ** The range of the phase, for every arithmetic that rounds in order *)

Section PhaseRange.
Context {F : Type} {ops : FloatOps F} {signs : SignLaws F ops}
        {order : OrderLaws F ops signs}
        {rounding : RoundingLaws F ops signs}.
Local Open Scope float_scope.

(** Lines 238-240: after the sum and its two wraps the phase is between 0
    and the length of the track, both included, when the step is not
    longer than the track. *)
Lemma advance_in_range (tracks : list (track F)) (f : firefly F)
    (k : track F) :
  tracks !! ff_tr f = Some k ->
  finite (tk_len k) -> finite (tk_len k + tk_len k) ->
  finite (ff_t f) -> finite (ff_v f / fint STEPS) ->
  (fint 0 <=? ff_t f) = true -> (ff_t f <=? tk_len k) = true ->
  (- tk_len k <=? ff_v f / fint STEPS) = true ->
  (ff_v f / fint STEPS <=? tk_len k) = true ->
  (fint 0 <=? ff_t (advance tracks f)) = true /\
  (ff_t (advance tracks f) <=? tk_len k) = true.
Proof.
  intros Hk Hlen Hlen2 Ht Hstep Ht0 Htl Hsl Hsu.
  unfold advance, track_of. rewrite Hk. simpl.
  set (len := tk_len k) in *. set (step := ff_v f / fint STEPS) in *.
  set (s := ff_t f + step).
  pose proof finite_zero as H0.
  pose proof (finite_neg len Hlen) as Hnlen.
  assert (Hlo : (- len <=? s) = true).
  { apply (fle_trans _ (fint 0 + - len)); [apply zero_fadd_ge; exact Hnlen |].
    apply (fle_trans _ (fint 0 + step)).
    - apply fadd_mono_r; assumption.
    - apply fadd_mono_l; assumption. }
  assert (Hup : (s <=? len + len) = true).
  { apply (fle_trans _ (len + step)).
    - apply fadd_mono_l; assumption.
    - apply fadd_mono_r; assumption. }
  assert (Hs : finite s)
    by (apply (fadd_finite _ _ (- len) (len + len)); assumption).
  destruct (len <=? s) eqn:Hge; cbv beta iota.
  - assert (H1 : (fint 0 <=? s - len) = true).
    { apply (fle_trans _ (len - len)); [apply fsub_diag; exact Hlen |].
      apply fsub_mono_l; assumption. }
    rewrite (fle_not_flt _ _ H1). split; [exact H1 |].
    apply (fle_trans _ (len + len - len)).
    + apply fsub_mono_l; assumption.
    + apply fadd_fsub; assumption.
  - destruct (s <? fint 0) eqn:Hneg; cbv beta iota.
    + split.
      * apply (fle_trans _ (- len + len)); [apply fopp_fadd; exact Hlen |].
        apply fadd_mono_l; assumption.
      * apply (fle_trans _ (fint 0 + len)); [| apply zero_fadd_le; exact Hlen].
        apply fadd_mono_l; try assumption. apply flt_fle. exact Hneg.
    + split.
      * apply not_flt_fle; assumption.
      * apply flt_fle, not_fle_flt; assumption.
Qed.

Lemma attract_tr_t (i : nat) (t1 t2 : F) (f : firefly F) :
  ff_tr (attract i t1 t2 f) = i /\ ff_t (attract i t1 t2 f) = t2.
Proof.
  unfold attract, set_v, set_t, set_tr. simpl.
  destruct (fltb _ _); simpl; auto.
Qed.

(** Lines 182-186: the parameter of the projection onto a segment is
    between 0 and the length of the segment, both included. *)
Lemma nearest_on_segment (k : track F) (p : vec2 F) :
  segment_ok k -> projects_finitely k p ->
  (fint 0 <=? (nearest k p).1) = true /\
  ((nearest k p).1 <=? tk_len k) = true.
Proof.
  intros ((ext & Hshape) & Hh & Hnh & Hhalves & Hlo & Hup) Hp.
  specialize (Hp ext Hshape).
  unfold nearest, local_nearest. rewrite Hshape. cbv zeta.
  set (h := tk_len k / fint 2) in *. set (nh := - tk_len k / fint 2) in *.
  set (t0 := dot (vsub p (tk_o k)) ext) in *.
  assert (Hmid : forall t, finite t -> (nh <=? t) = true -> (t <=? h) = true ->
                           (fint 0 <=? t + h) = true /\
                           (t + h <=? tk_len k) = true).
  { intros t Ht H1 H2. split.
    - apply (fle_trans _ (nh + h)); [exact Hlo |].
      apply fadd_mono_l; assumption.
    - apply (fle_trans _ (h + h)); [| exact Hup].
      apply fadd_mono_l; assumption. }
  assert (Hrefl : forall x, finite x -> (x <=? x) = true).
  { intros x Hx. apply not_flt_fle; try assumption.
    destruct (x <? x) eqn:E; [| reflexivity].
    rewrite (fle_not_flt x x) in E; [discriminate |].
    apply flt_fle. exact E. }
  destruct (t0 <? nh) eqn:E1; cbn [fst].
  - apply Hmid; [exact Hnh | apply Hrefl; exact Hnh | exact Hhalves].
  - destruct (h <? t0) eqn:E2.
    + apply Hmid; [exact Hh | exact Hhalves | apply Hrefl; exact Hh].
    + apply Hmid; [exact Hp | |]; apply not_flt_fle; assumption.
Qed.

(** C1, amended.  (1) After a step that leaves the firefly on its track (no
    crossing, or a bounce), a phase that was between 0 and L is between 0
    and L, both included: where the arithmetic rounds, the wrap of lines
    239-240 can give L itself.  This is for a firefly that moves by at most
    L in one step.  (2) After a step that moves the firefly to a segment
    track without [RETURN], the phase is the parameter of the projection
    onto that track of the point that the step reached, which is between 0
    and L, or that parameter plus the nudge.  (3) After a drag, the phase
    of the dragged firefly, on a segment track, is the parameter of the
    projection of the pointer onto it, between 0 and L, both included.  L
    is the length of the track that the firefly then references.  Nothing
    is said of the fireflies linked to the dragged one, nor of the
    projection onto a circle, which the source computes partly in
    [double]. *)
Theorem phase_range (W H : Z) :
  (forall (tracks : list (track F)) (f : firefly F) (k : track F),
      tracks !! ff_tr f = Some k ->
      finite (tk_len k) -> finite (tk_len k + tk_len k) ->
      finite (ff_t f) -> finite (ff_v f / fint STEPS) ->
      (fint 0 <=? ff_t f) = true -> (ff_t f <=? tk_len k) = true ->
      (- tk_len k <=? ff_v f / fint STEPS) = true ->
      (ff_v f / fint STEPS <=? tk_len k) = true ->
      ff_tr (update tracks f) = ff_tr f ->
      (fint 0 <=? ff_t (update tracks f)) = true /\
      (ff_t (update tracks f) <=? tk_len k) = true) /\
  (forall (tracks : list (track F)) (f : firefly F) (k' : track F),
      ff_tr (update tracks f) <> ff_tr f ->
      tracks !! ff_tr (update tracks f) = Some k' ->
      has_flag (tk_flags k') RETURN = false ->
      segment_ok k' ->
      projects_finitely k' (pos tracks (advance tracks f)) ->
      let n1 := (nearest k' (pos tracks f)).1 in
      let n2 := (nearest k' (pos tracks (advance tracks f))).1 in
      let d := if n1 <? fint 1 then flit (1 # 1000000)
               else n1 * flit (1 # 1000000) in
      (ff_t (update tracks f) = n2 \/ ff_t (update tracks f) = n2 + d) /\
      (fint 0 <=? n2) = true /\ (n2 <=? tk_len k') = true) /\
  (forall (x y : F) (s : scene F) (i : nat) (f : firefly F) (k : track F),
      reachable W H s ->
      sel_ff s = Some i ->
      fireflies s !! i = Some f ->
      tracks s !! ff_tr f = Some k ->
      segment_ok k ->
      projects_finitely k (vadd (board W H x y) (sel_offs s)) ->
      exists f' k',
        fireflies (ptmove W H x y s) !! i = Some f' /\
        tracks (ptmove W H x y s) !! ff_tr f' = Some k' /\
        tk_len k' = tk_len k /\
        (fint 0 <=? ff_t f') = true /\ (ff_t f' <=? tk_len k') = true).
Proof.
  split; [| split].
  - intros tracks f k Hk Hlen Hlen2 Ht Hstep Ht0 Htl Hsl Hsu.
    pose proof (advance_in_range tracks f k Hk Hlen Hlen2 Ht Hstep Ht0 Htl
                  Hsl Hsu) as Hadv.
    destruct (update_cases tracks f)
      as [[_ ->] | (i & k' & t1 & t2 & (_ & Hc & _) & ->)].
    + intros _. exact Hadv.
    + apply crossing_detected in Hc as (Hne & _).
      rewrite resolve_flags.
      destruct (has_flag (tk_flags k') ATTRACT),
               (has_flag (tk_flags k') RETURN).
      * unfold bounce, set_v, set_t. simpl.
        rewrite (proj1 (attract_tr_t _ _ _ _)). intros E. contradiction.
      * rewrite (proj1 (attract_tr_t _ _ _ _)). intros E. contradiction.
      * intros _. unfold bounce, set_v, set_t. simpl. auto.
      * intros _. exact Hadv.
  - intros tracks f k'.
    destruct (update_cases tracks f)
      as [[_ ->] | (i & k & t1 & t2 & (Hk & Hc & _) & ->)].
    + intros Hne. exfalso. apply Hne. reflexivity.
    + rewrite resolve_flags.
      destruct (has_flag (tk_flags k) ATTRACT) eqn:Ha;
        destruct (has_flag (tk_flags k) RETURN) eqn:Hr.
      * unfold bounce, set_v, set_t. simpl.
        rewrite (proj1 (attract_tr_t _ _ _ _)).
        intros _ Hk'. rewrite Hk in Hk'. injection Hk' as <-.
        intros Hr'. rewrite Hr in Hr'. discriminate.
      * destruct (attract_tr_t i t1 t2 (advance tracks f)) as [-> ->].
        intros _ Hk'. rewrite Hk in Hk'. injection Hk' as <-.
        intros _ Hok Hfin. cbv zeta.
        destruct (crossing_values _ _ _ _ _ _ _ Hc) as [_ Ht2].
        cbv zeta in Ht2.
        split; [| apply nearest_on_segment; assumption].
        rewrite Ht2. destruct (fltb (f_abs _) _); auto.
      * unfold bounce, set_v, set_t. simpl.
        intros Hne. exfalso. apply Hne. reflexivity.
      * intros Hne. exfalso. apply Hne. reflexivity.
  - intros x y s i f k Hreach Hsel Hf Hk Hok Hfin.
    destruct (ptmove_dragged W H x y s i f
                (reachable_links_no_self W H s Hreach) Hsel Hf)
      as (f' & Hf' & Htr & Ht).
    destruct (ptmove_tracks W H x y s (ff_tr f) k Hk)
      as (k' & Hk' & Hlen & _).
    exists f', k'. rewrite Htr, Hlen, Ht.
    split; [exact Hf' | split; [exact Hk' | split; [reflexivity |]]].
    unfold track_of. rewrite Hk. simpl.
    apply nearest_on_segment; assumption.
Qed.

End PhaseRange.

Ltac b32_decide := vm_compute; first [exact I | reflexivity].

(** In binary32 a segment of length 4 has exact halves. *)
Lemma b32_segment_ok_4 (k : track binary32) (ext : vec2 binary32) :
  tk_shape k = Seg ext -> tk_len k = b32_of_Z 4 ->
  segment_ok (signs := b32_sign_laws) k.
Proof.
  intros Hs Hlen. unfold segment_ok. rewrite Hlen.
  split; [exists ext; exact Hs |].
  repeat split; b32_decide.
Qed.

Lemma phase_range_witness :
  (SFleb (b32_of_Z 0) (ff_t (update (ops := b32_ops) [b32_track0] b32_slow_ff))
   = true /\
   SFleb (ff_t (update (ops := b32_ops) [b32_track0] b32_slow_ff))
     (tk_len b32_track0) = true) /\
  (SFleb (b32_of_Z 0)
     (nearest (ops := b32_ops) (b32_track1 1)
        (pos (ops := b32_ops) [b32_track0; b32_track1 1]
           (advance (ops := b32_ops) [b32_track0; b32_track1 1] b32_ff))).1
   = true /\
   SFleb (nearest (ops := b32_ops) (b32_track1 1)
            (pos (ops := b32_ops) [b32_track0; b32_track1 1]
               (advance (ops := b32_ops) [b32_track0; b32_track1 1]
                  b32_ff))).1
     (tk_len (b32_track1 1)) = true) /\
  (exists f' k',
      fireflies (ptmove (ops := b32_ops) 800 480 (b32_of_Z 575) (b32_of_Z 240)
                   b32_drag_down) !! 0%nat = Some f' /\
      tracks (ptmove (ops := b32_ops) 800 480 (b32_of_Z 575) (b32_of_Z 240)
                b32_drag_down) !! ff_tr f' = Some k' /\
      tk_len k' = tk_len b32_track0 /\
      SFleb (b32_of_Z 0) (ff_t f') = true /\
      SFleb (ff_t f') (tk_len k') = true).
Proof.
  destruct (phase_range (order := b32_order_laws)
              (rounding := b32_rounding_laws) 800 480)
    as (Hsame & Hmove & Hdrag).
  split; [| split].
  - apply (Hsame [b32_track0] b32_slow_ff b32_track0); b32_decide.
  - apply (Hmove [b32_track0; b32_track1 1] b32_ff (b32_track1 1)).
    + vm_compute. discriminate.
    + b32_decide.
    + b32_decide.
    + apply (b32_segment_ok_4 _ (b32_point 0 1)); b32_decide.
    + intros ext Hext. vm_compute in Hext. injection Hext as <-. b32_decide.
  - eapply (Hdrag (b32_of_Z 575) (b32_of_Z 240) b32_drag_down 0%nat _ b32_track0).
    + apply reach_pton, reach_scene_game.
    + b32_decide.
    + vm_compute. reflexivity.
    + b32_decide.
    + apply (b32_segment_ok_4 _ (b32_point 1 0)); b32_decide.
    + intros ext Hext. vm_compute in Hext. injection Hext as <-. b32_decide.
Defined.

(** In binary32 the wrap of lines 239-240 can give the length itself: on a
    track of length 4 a firefly at phase 0 with the velocity [-1e-5] is
    after one step at phase 4. *)
Lemma step_reaches_length :
  let k := Track (b32_point 0 0) (b32_of_Z 4) 0 false
             (Seg (b32_point 1 0)) in
  ff_t (advance (ops := b32_ops) [k]
          (Firefly 0 (b32_of_Z 0) (b32_of_Q (-1 # 100000)) false [])) =
  tk_len k.
Proof. vm_compute. reflexivity. Qed.

(** * Further properties of the source *)

(** ** The chord test and the intersection of segments *)

Lemma ratio_in_unit (x D : R) :
  D <> 0 -> x * (x - D) <= 0 -> 0 <= x / D <= 1.
Proof.
  intros HD Hx.
  destruct (Rtotal_order D 0) as [Hneg | [H0 | Hpos]]; [| contradiction |].
  - assert (Hi : / D < 0) by (apply Rinv_lt_0_compat; exact Hneg).
    assert (H1 : D * / D = 1) by (field; exact HD).
    assert (Hx0 : x <= 0) by nra.
    assert (HxD : D <= x) by nra.
    unfold Rdiv. split; nra.
  - assert (Hi : 0 < / D) by (apply Rinv_0_lt_compat; exact Hpos).
    assert (H1 : D * / D = 1) by (field; exact HD).
    assert (Hx0 : 0 <= x) by nra.
    assert (HxD : x <= D) by nra.
    unfold Rdiv. split; nra.
Qed.

(** In the real numbers: [seg_intxn] reports every common point of the two
    closed segments; when it reports a crossing and the segments are not
    parallel, they do have a common point; and it reports a crossing for any
    four points of one line, whether the segments meet or not. *)
Theorem seg_intxn_meets (a b c d : vec2 R) :
  (forall p, on_segment a b p -> on_segment c d p ->
             seg_intxn a b c d = true) /\
  (seg_intxn a b c d = true -> det (vsub b a) (vsub d c) <> 0 ->
   exists p, on_segment a b p /\ on_segment c d p) /\
  (forall u s t w : R,
      seg_intxn a (vadd a (vmul (vsub b a) u))
        (vadd a (vmul (vsub b a) s)) (vadd a (vmul (vsub b a) t)) = true).
Proof.
  destruct a as [ax ay], b as [bx by_], c as [cx cy], d as [dx dy].
  split; [| split].
  - intros p (s & Hs & Hp) (u & Hu & Hq). subst p.
    unfold vadd, vmul, vsub in Hq. simpl in Hq. injection Hq as Hx Hy.
    apply seg_intxn_sides. unfold side, det, vsub. simpl.
    set (D := (bx - ax) * (dy - cy) - (by_ - ay) * (dx - cx)).
    assert (Hw1 : (cx - ax) * (by_ - ay) - (cy - ay) * (bx - ax) = u * D)
      by (unfold D; nsatz).
    assert (Hw2 : (dx - ax) * (by_ - ay) - (dy - ay) * (bx - ax) = (u - 1) * D)
      by (unfold D; nsatz).
    assert (Hw3 : (ax - cx) * (dy - cy) - (ay - cy) * (dx - cx) = - s * D)
      by (unfold D; nsatz).
    assert (Hw4 : (bx - cx) * (dy - cy) - (by_ - cy) * (dx - cx) = (1 - s) * D)
      by (unfold D; nsatz).
    rewrite Hw1, Hw2, Hw3, Hw4.
    assert (HD : 0 <= D * D) by nra.
    assert (Hu2 : u * (u - 1) <= 0) by nra.
    assert (Hs2 : s * (s - 1) <= 0) by nra.
    replace (u * D * ((u - 1) * D)) with (u * (u - 1) * (D * D)) by ring.
    replace (- s * D * ((1 - s) * D)) with (s * (s - 1) * (D * D)) by ring.
    split; apply product_nonpos; left; split; assumption.
  - intros Hx HD. apply seg_intxn_sides in Hx as [H1 H2].
    unfold side, det, vsub in *. simpl in *.
    set (D := (bx - ax) * (dy - cy) - (by_ - ay) * (dx - cx)) in *.
    set (X := (cx - ax) * (dy - cy) - (cy - ay) * (dx - cx)).
    set (Y := (cx - ax) * (by_ - ay) - (cy - ay) * (bx - ax)).
    assert (HX : X * (X - D) <= 0).
    { unfold X, D in *.
      match type of H2 with ?e <= 0 =>
        match goal with |- ?g <= 0 => replace g with e by ring end end.
      exact H2. }
    assert (HY : Y * (Y - D) <= 0).
    { unfold Y, D in *.
      match type of H1 with ?e <= 0 =>
        match goal with |- ?g <= 0 => replace g with e by ring end end.
      exact H1. }
    exists (Vec2 (ax + (bx - ax) * (X / D)) (ay + (by_ - ay) * (X / D))).
    split.
    + exists (X / D). split; [apply ratio_in_unit; assumption | reflexivity].
    + exists (Y / D). split; [apply ratio_in_unit; assumption |].
      unfold vadd, vmul, vsub. simpl.
      f_equal; unfold X, Y, D in *; field; exact HD.
  - intros u s t w. apply seg_intxn_sides. unfold side, det, vsub, vadd, vmul.
    simpl. split.
    + replace ((ax + (bx - ax) * s - ax) * (ay + (by_ - ay) * u - ay) -
               (ay + (by_ - ay) * s - ay) * (ax + (bx - ax) * u - ax))
        with 0 by ring. lra.
    + replace ((ax - (ax + (bx - ax) * s)) *
               (ay + (by_ - ay) * t - (ay + (by_ - ay) * s)) -
               (ay - (ay + (by_ - ay) * s)) *
               (ax + (bx - ax) * t - (ax + (bx - ax) * s)))
        with 0 by ring. lra.
Qed.

(** ** Rotation, and the window *)

(** In the real numbers: [rot] is a rotation: it keeps the length of a
    vector and the determinant and dot product of two vectors, turning by 0
    changes nothing, and two turns compose to the turn by the sum of the
    angles. *)
Theorem rot_isometry (p q : vec2 R) (a b : R) :
  norm (rot p a) = norm p /\
  dot (rot p a) (rot q a) = dot p q /\
  det (rot p a) (rot q a) = det p q /\
  rot p 0 = p /\
  rot (rot p a) b = rot p (a + b).
Proof.
  destruct p as [px py], q as [qx qy].
  pose proof (sin2_cos2 a) as Hsc. unfold Rsqr in Hsc.
  unfold norm, dot, det, rot. simpl.
  split; [| split; [| split; [| split]]].
  - f_equal. nsatz.
  - nsatz.
  - nsatz.
  - rewrite sin_0, cos_0. f_equal; ring.
  - rewrite sin_plus, cos_plus. f_equal; ring.
Qed.

(** In the real numbers: [board] undoes [scr], and [scr] undoes [board]: a
    point of the board drawn at a pixel is found again under that pixel. *)
Theorem board_scr_inverse (W H : Z) (p : vec2 R) (x y : R) :
  board W H (scr W H p).1 (scr W H p).2 = p /\
  scr W H (board W H x y) = (x, y).
Proof.
  destruct p as [px py].
  unfold board, scr, vdiv, vsub, vadd, vmul, SCALE. simpl.
  split; f_equal; field.
Qed.

(** ** Projection onto a segment track *)

Lemma norm_nonzero (p : vec2 R) : p <> Vec2 0 0 -> 0 < norm p.
Proof.
  destruct p as [x y]. intros Hp. unfold norm. simpl.
  apply sqrt_lt_R0.
  destruct (Req_dec x 0) as [-> | Hx]; [| nra].
  destruct (Req_dec y 0) as [-> | Hy]; [| nra].
  contradiction Hp. reflexivity.
Qed.

Lemma norm_square (p : vec2 R) : norm p * norm p = vx p * vx p + vy p * vy p.
Proof. unfold norm. simpl. apply sqrt_sqrt. nra. Qed.

Lemma track_seg_unit (o ext : vec2 R) (fl : N) :
  ext <> Vec2 0 0 ->
  unit_segment (track_seg o ext fl) (vdiv ext (norm ext)).
Proof.
  intros Hext. pose proof (norm_nonzero ext Hext) as Hn.
  pose proof (norm_square ext) as Hsq.
  unfold unit_segment, track_seg, vdiv.
  cbn [tk_shape tk_len vx vy fdiv fmul fint R_ops].
  set (n := norm ext) in *.
  split; [reflexivity | split; [| lra]].
  replace (vx ext / n * (vx ext / n) + vy ext / n * (vy ext / n))
    with ((vx ext * vx ext + vy ext * vy ext) / (n * n)) by (field; lra).
  rewrite <- Hsq. field. lra.
Qed.

Lemma sqrt_sq_abs (x : R) : sqrt (x * x) = Rabs x.
Proof. apply sqrt_Rsqr_abs. Qed.

Lemma seg_nearest_on_line (k : track R) (e : vec2 R) (phi : R) :
  unit_segment k e ->
  nearest k (track_at k phi) =
  (clamp_phase (tk_len k) phi, Rabs (phi - clamp_phase (tk_len k) phi)).
Proof.
  intros (Hs & He & Hlen). destruct e as [ex ey]. simpl in He.
  unfold nearest, local_nearest, track_at, local_at. rewrite Hs. simpl.
  set (h := tk_len k / 2).
  assert (Hh : tk_len k = 2 * h) by (unfold h; lra).
  replace (- tk_len k / 2) with (- h) by (unfold h; lra).
  clearbody h.
  match goal with |- context [Rltb ?m (- h)] =>
    assert (Hm : m = phi - h) by nsatz; rewrite !Hm end.
  unfold clamp_phase, Rltb.
  destruct (Rlt_dec (phi - h) (- h)) as [H1 | H1];
    destruct (Rlt_dec phi 0) as [H1' | H1']; try lra.
  - f_equal; [lra |].
    match goal with |- sqrt ?A = _ =>
      replace A with ((phi - 0) * (phi - 0)) by nsatz end.
    apply sqrt_sq_abs.
  - destruct (Rlt_dec h (phi - h)) as [H2 | H2];
      destruct (Rlt_dec (tk_len k) phi) as [H2' | H2']; try lra.
    + f_equal; [lra |].
      match goal with |- sqrt ?A = _ =>
        replace A with ((phi - tk_len k) * (phi - tk_len k)) by nsatz end.
      apply sqrt_sq_abs.
    + f_equal; [lra |].
      match goal with |- sqrt ?A = _ =>
        replace A with ((phi - phi) * (phi - phi)) by nsatz end.
      apply sqrt_sq_abs.
Qed.

(** In the real numbers: on the segment track that [track_seg] builds from a
    non-zero extension, projecting the point at a phase within [0, len]
    gives back that phase at distance 0; the points of the line beyond
    either end project to the end, phase [len] or 0, at the distance of the
    overhang. *)
Theorem segment_projection_clamp (o ext : vec2 R) (fl : N) (phi : R) :
  ext <> Vec2 0 0 ->
  let k := track_seg o ext fl in
  (0 <= phi <= tk_len k -> nearest k (track_at k phi) = (phi, 0)) /\
  (tk_len k < phi ->
   nearest k (track_at k phi) = (tk_len k, phi - tk_len k)) /\
  (phi < 0 -> nearest k (track_at k phi) = (0, - phi)).
Proof.
  intros Hext k.
  pose proof (track_seg_unit o ext fl Hext) as Hu. fold k in Hu.
  pose proof Hu as (_ & _ & Hlen).
  rewrite (seg_nearest_on_line k _ phi Hu). unfold clamp_phase.
  split; [| split]; intros Hphi.
  - destruct (Rlt_dec phi 0); [lra |].
    destruct (Rlt_dec (tk_len k) phi); [lra |].
    f_equal. rewrite Rabs_right by lra. lra.
  - destruct (Rlt_dec phi 0); [lra |].
    destruct (Rlt_dec (tk_len k) phi); [| lra].
    f_equal. apply Rabs_right. lra.
  - destruct (Rlt_dec phi 0); [| lra].
    f_equal. rewrite Rabs_left by lra. lra.
Qed.

Lemma segment_projection_clamp_witness :
  nearest (track_seg (Vec2 0 0) (Vec2 2 0) 0)
    (track_at (track_seg (Vec2 0 0) (Vec2 2 0) 0) (- (3))) = (0, - - (3)).
Proof.
  assert (Hext : Vec2 2 0 <> Vec2 0 0 :> vec2 R) by (intros [= H]; lra).
  apply (segment_projection_clamp (Vec2 0 0) (Vec2 2 0) 0 (- (3)) Hext). lra.
Defined.

(** In the real numbers: the segment track that [track_seg] builds runs from
    [o - ext], at phase 0, through [o], at half its length, to [o + ext], at
    phase [len]; its length is twice that of [ext], and the distance of two
    of its points is the difference of their phases. *)
Theorem segment_ends_unit_speed (o ext : vec2 R) (fl : N) (t1 t2 : R) :
  ext <> Vec2 0 0 ->
  let k := track_seg o ext fl in
  track_at k 0 = vsub o ext /\
  track_at k (tk_len k / 2) = o /\
  track_at k (tk_len k) = vadd o ext /\
  tk_len k = 2 * norm ext /\
  norm (vsub (track_at k t1) (track_at k t2)) = Rabs (t1 - t2).
Proof.
  intros Hext k. pose proof (norm_nonzero ext Hext) as Hn.
  pose proof (track_seg_unit o ext fl Hext) as (_ & He & _).
  destruct o as [ox oy], ext as [x y].
  unfold k, track_seg, track_at, local_at, vadd, vsub, vmul, vdiv in *.
  cbn [tk_shape tk_len tk_o vx vy fdiv fmul fsub fadd fint R_ops] in *.
  set (n := norm (Vec2 x y)) in *.
  split; [f_equal; field; lra |].
  split; [f_equal; field; lra |].
  split; [f_equal; field; lra |].
  split; [lra |].
  unfold norm. cbn [vx vy fmul fadd f_sqrt R_ops].
  match goal with |- sqrt ?A = _ =>
    replace A with ((t1 - t2) * (t1 - t2) *
                    (x / n * (x / n) + y / n * (y / n))) by ring end.
  rewrite He, Rmult_1_r. apply sqrt_sq_abs.
Qed.

Lemma segment_ends_unit_speed_witness :
  track_at (track_seg (Vec2 1 1) (Vec2 0 3) 2) 0 = vsub (Vec2 1 1) (Vec2 0 3).
Proof.
  assert (Hext : Vec2 0 3 <> Vec2 0 0 :> vec2 R) by (intros [= H]; lra).
  exact (proj1 (segment_ends_unit_speed (Vec2 1 1) (Vec2 0 3) 2 0 0 Hext)).
Defined.

(** In the real numbers: on such a segment track [nearest] gives the nearest
    point: the phase lies within [0, len], the distance is the distance to
    the point of the track at that phase, and no point of the track at a
    phase within [0, len] is nearer. *)
Theorem segment_nearest_minimal (o ext : vec2 R) (fl : N) (p : vec2 R) :
  ext <> Vec2 0 0 ->
  let k := track_seg o ext fl in
  0 <= (nearest k p).1 <= tk_len k /\
  (nearest k p).2 = norm (vsub p (track_at k (nearest k p).1)) /\
  (forall phi, 0 <= phi <= tk_len k ->
               (nearest k p).2 <= norm (vsub p (track_at k phi))).
Proof.
  intros Hext k.
  pose proof (track_seg_unit o ext fl Hext) as (Hs & He & Hlen). fold k in Hs, Hlen.
  split; [apply nearest_range; unfold wf_track; rewrite Hs; exact Hlen |].
  destruct (vdiv ext (norm ext)) as [ex ey] eqn:Ee. simpl in He.
  destruct o as [ox oy], p as [px py].
  assert (Ho : tk_o k = Vec2 ox oy) by reflexivity.
  unfold nearest, local_nearest, track_at, local_at. rewrite Hs, Ho.
  cbn [fst snd vx vy vsub vadd vmul dot norm fdiv fmul fsub fadd fneg fint
       fltb f_sqrt R_ops].
  set (h := tk_len k / 2).
  assert (Hh : tk_len k = 2 * h) by (unfold h; lra).
  replace (- tk_len k / 2) with (- h) by (unfold h; lra).
  clearbody h.
  set (m := (px - ox) * ex + (py - oy) * ey).
  set (t := if Rltb m (- h) then - h else if Rltb h m then h else m).
  assert (Ht : - h <= t <= h /\
               forall s, - h <= s <= h -> (t - m) * (t - m) <= (s - m) * (s - m)).
  { assert (Hsq : forall u v : R, 0 <= u <= v -> u * u <= v * v)
      by (intros u v Huv; nra).
    unfold t, Rltb.
    destruct (Rlt_dec m (- h)) as [H1 | H1].
    - split; [lra |]. intros s Hsb. apply Hsq. lra.
    - destruct (Rlt_dec h m) as [H2 | H2]; (split; [lra |]); intros s Hsb.
      + replace ((h - m) * (h - m)) with ((m - h) * (m - h)) by ring.
        replace ((s - m) * (s - m)) with ((m - s) * (m - s)) by ring.
        apply Hsq. lra.
      + replace ((m - m) * (m - m)) with 0 by ring.
        apply (Rle_0_sqr (s - m)). }
  clearbody t. destruct Ht as [Htr Hmin].
  split.
  - f_equal. ring.
  - intros phi Hphi. apply sqrt_le_1_alt.
    specialize (Hmin (phi - h) ltac:(lra)).
    match goal with |- ?A <= ?B =>
      replace B with (A + ((phi - h - m) * (phi - h - m) - (t - m) * (t - m)))
        by (unfold m; nsatz) end.
    lra.
Qed.

Lemma segment_nearest_minimal_witness :
  0 <= (nearest (track_seg (Vec2 0 0) (Vec2 2 0) 0) (Vec2 7 1)).1
    <= tk_len (track_seg (Vec2 0 0) (Vec2 2 0) 0).
Proof.
  assert (Hext : Vec2 2 0 <> Vec2 0 0 :> vec2 R) by (intros [= H]; lra).
  exact (proj1 (segment_nearest_minimal (Vec2 0 0) (Vec2 2 0) 0 (Vec2 7 1) Hext)).
Defined.

(** ** Circular tracks *)

(** Every vector is its length times the unit vector at the angle that
    [atan2] gives. *)
Lemma atan2_polar_form (x y : R) :
  Vec2 x y <> Vec2 0 0 ->
  x = norm (Vec2 x y) * cos (atan2 y x) /\
  y = norm (Vec2 x y) * sin (atan2 y x).
Proof.
  intros Hp. pose proof (norm_nonzero _ Hp) as Hn.
  set (n := norm (Vec2 x y)) in *.
  assert (Hsq : n * n = x * x + y * y) by apply (norm_square (Vec2 x y)).
  pose proof PI_RGT_0 as Hpi.
  set (c := x / n).
  assert (Hin : 0 < / n) by (apply Rinv_0_lt_compat; exact Hn).
  assert (Hc2 : c * c + (y / n) * (y / n) = 1).
  { unfold c. replace (x / n * (x / n) + y / n * (y / n))
      with ((x * x + y * y) / (n * n)) by (field; lra).
    rewrite <- Hsq. field. lra. }
  assert (Hc : -1 <= c <= 1) by (split; nra).
  assert (Hsin : sin (acos c) = Rabs (y / n)).
  { rewrite sin_acos by exact Hc. unfold Rsqr.
    replace (1 - c * c) with (y / n * (y / n)) by lra.
    apply sqrt_Rsqr_abs. }
  assert (Hcos : cos (acos c) = c) by (apply cos_acos; exact Hc).
  pose proof (acos_bound c) as Hb.
  destruct (Rle_dec 0 y) as [Hy | Hy].
  - assert (Hyn : 0 <= y / n) by (unfold Rdiv; nra).
    rewrite Rabs_right in Hsin by lra.
    assert (E : atan2 y x = acos c).
    { replace y with (n * sin (acos c)) by (rewrite Hsin; field; lra).
      replace x with (n * cos (acos c)) by (rewrite Hcos; unfold c; field; lra).
      apply atan2_polar; lra. }
    rewrite E, Hcos, Hsin. unfold c. split; field; lra.
  - assert (Hyn : y / n < 0) by (unfold Rdiv; nra).
    rewrite Rabs_left in Hsin by lra.
    assert (Hc' : -1 < c < 1) by (split; nra).
    pose proof (acos_bound_lt c Hc') as Hb'.
    assert (E : atan2 y x = - acos c).
    { replace y with (n * sin (- acos c))
        by (rewrite sin_neg, Hsin; field; lra).
      replace x with (n * cos (- acos c))
        by (rewrite cos_neg, Hcos; unfold c; field; lra).
      apply atan2_polar; lra. }
    rewrite E, cos_neg, sin_neg, Hcos, Hsin. unfold c. split; field; lra.
Qed.

Lemma circle_point (o : vec2 R) (r : R) (fl : N) (fa : R) (fc : Z) (t : R) :
  track_at (track_cir o r fl fa fc) t =
  Vec2 (r * cos (t / r) + vx o) (r * sin (t / r) + vy o).
Proof.
  unfold track_at, local_at, track_cir, rot, vadd. simpl. f_equal; ring.
Qed.

(** The point at a phase is the point at that phase plus or minus the
    length of the track. *)
Lemma circle_shift (o : vec2 R) (r : R) (fl : N) (fa : R) (fc : Z) :
  0 < r ->
  let k := track_cir o r fl fa fc in
  (forall t, track_at k (t + tk_len k) = track_at k t) /\
  (forall t, track_at k (t - tk_len k) = track_at k t).
Proof.
  intros Hr k. pose proof PI_RGT_0 as Hpi. unfold k.
  split; intros t; rewrite !circle_point;
    cbn [tk_len track_cir fmul fint f_pi R_ops].
  - destruct (sin_cos_period_Z (t / r) 1) as [Hs Hc].
    replace ((t + 2 * PI * r) / r) with (t / r + 2 * 1 * PI) by (field; lra).
    rewrite Hs, Hc. reflexivity.
  - destruct (sin_cos_period_Z (t / r) (-1)) as [Hs Hc].
    replace ((t - 2 * PI * r) / r) with (t / r + 2 * -1 * PI) by (field; lra).
    rewrite Hs, Hc. reflexivity.
Qed.

(** In the real numbers: the points of a circular track of radius [r > 0]
    lie at distance [r] from its origin, and the point at a phase is also
    the point at that phase plus or minus the length of the track: wrapping
    the phase does not move a firefly. *)
Theorem circle_points_periodic (o : vec2 R) (r : R) (fl : N) (fa : R)
    (fc : Z) (t : R) :
  0 < r ->
  let k := track_cir o r fl fa fc in
  norm (vsub (track_at k t) o) = r /\
  track_at k (t + tk_len k) = track_at k t /\
  track_at k (t - tk_len k) = track_at k t.
Proof.
  intros Hr k.
  destruct (circle_shift o r fl fa fc Hr) as [Hp Hm]. fold k in Hp, Hm.
  split; [| split; [apply Hp | apply Hm]].
  unfold k. rewrite circle_point.
  pose proof (sin2_cos2 (t / r)) as Hsc. unfold Rsqr in Hsc.
  unfold norm, vsub. simpl.
  match goal with |- sqrt ?A = _ =>
    replace A with (r * r) by nsatz end.
  apply sqrt_square. lra.
Qed.

Lemma circle_points_periodic_witness :
  norm (vsub (track_at (track_cir (Vec2 3 4) 2 1 0 2) 5) (Vec2 3 4)) = 2.
Proof.
  exact (proj1 (circle_points_periodic (Vec2 3 4) 2 1 0 2 5 ltac:(lra))).
Defined.

Lemma dot_le_norm (x y c s : R) :
  c * c + s * s = 1 -> x * c + y * s <= norm (Vec2 x y).
Proof.
  intros Hcs.
  assert (Hn : 0 <= norm (Vec2 x y)) by apply sqrt_pos.
  set (n := norm (Vec2 x y)) in *.
  assert (Hsq : n * n = x * x + y * y) by apply (norm_square (Vec2 x y)).
  destruct (Rle_dec (x * c + y * s) n) as [H | H]; [exact H |].
  exfalso.
  assert (Hcs2 : (x * c + y * s) * (x * c + y * s) <= n * n).
  { rewrite Hsq.
    replace (x * x + y * y) with ((x * x + y * y) * (c * c + s * s))
      by (rewrite Hcs; ring).
    replace ((x * x + y * y) * (c * c + s * s))
      with ((x * c + y * s) * (x * c + y * s) +
            (x * s - y * c) * (x * s - y * c)) by ring.
    pose proof (Rle_0_sqr (x * s - y * c)) as Hp. unfold Rsqr in Hp. lra. }
  nra.
Qed.

(** In the real numbers: on a circular track of radius [r > 0] the distance
    that [nearest] gives is the radial offset, the difference of the
    distance to the origin and the radius; it is the distance to the point
    of the track at the phase that [nearest] gives, which lies in [0, len),
    and no point of the track is nearer. *)
Theorem circle_nearest_radial (o : vec2 R) (r : R) (fl : N) (fa : R)
    (fc : Z) (p : vec2 R) :
  0 < r ->
  let k := track_cir o r fl fa fc in
  (nearest k p).2 = Rabs (norm (vsub p o) - r) /\
  (nearest k p).2 = norm (vsub p (track_at k (nearest k p).1)) /\
  0 <= (nearest k p).1 < tk_len k /\
  (forall phi, (nearest k p).2 <= norm (vsub p (track_at k phi))).
Proof.
  intros Hr k. pose proof PI_RGT_0 as Hpi.
  destruct o as [ox oy], p as [px py].
  set (x := px - ox). set (y := py - oy).
  set (n := norm (Vec2 x y)).
  assert (Hsq : n * n = x * x + y * y) by apply (norm_square (Vec2 x y)).
  assert (Hn : 0 <= n) by apply sqrt_pos.
  (* the angle that the source computes *)
  set (a0 := atan2 y x).
  set (a := if Rltb a0 0 then a0 + 2 * PI else a0).
  assert (Hnear : nearest k (Vec2 px py) =
                  (a * r, norm (Vec2 (x - r * cos a) (y - r * sin a)))).
  { unfold nearest, local_nearest, k, track_cir, rot, vsub. simpl.
    fold x y a0 a. f_equal. f_equal. f_equal; ring. }
  assert (Hrange : 0 <= a < 2 * PI).
  { pose proof (atan2_range y x) as Hb. fold a0 in Hb. unfold a, Rltb.
    destruct (Rlt_dec a0 0); lra. }
  assert (Hpolar : x = n * cos a /\ y = n * sin a).
  { assert (Ha0 : x = n * cos a0 /\ y = n * sin a0).
    { destruct (Req_dec x 0) as [Hx | Hx]; [destruct (Req_dec y 0) as [Hy | Hy] |].
      - assert (Hn0 : n = 0) by nra. rewrite Hn0, Hx, Hy. lra.
      - apply atan2_polar_form. intros [= E1 E2]. contradiction.
      - apply atan2_polar_form. intros [= E1 E2]. contradiction. }
    unfold a, Rltb. destruct (Rlt_dec a0 0); [| exact Ha0].
    destruct (sin_cos_period_Z a0 1) as [Hs Hc].
    replace (a0 + 2 * PI) with (a0 + 2 * 1 * PI) by ring.
    rewrite Hs, Hc. exact Ha0. }
  destruct Hpolar as [Hx Hy].
  pose proof (sin2_cos2 a) as Hsc. unfold Rsqr in Hsc.
  assert (Hdist : norm (Vec2 (x - r * cos a) (y - r * sin a)) = Rabs (n - r)).
  { unfold norm at 1. simpl.
    match goal with |- sqrt ?A = _ =>
      replace A with ((n - r) * (n - r)) by nsatz end.
    apply sqrt_sq_abs. }
  rewrite Hnear. cbn [fst snd].
  split; [| split; [| split]].
  - rewrite Hdist. unfold vsub. simpl. fold x y. reflexivity.
  - unfold k. rewrite circle_point. unfold vsub. simpl.
    replace (a * r / r) with a by (field; lra).
    f_equal. f_equal; unfold x, y; ring.
  - unfold k, track_cir. simpl. split; nra.
  - intros phi. rewrite Hdist. unfold k. rewrite circle_point.
    unfold vsub. cbn [vx vy fsub R_ops].
    rewrite <- (sqrt_sq_abs (n - r)). apply sqrt_le_1_alt.
    set (c := cos (phi / r)). set (s := sin (phi / r)).
    assert (Hcs : c * c + s * s = 1).
    { pose proof (sin2_cos2 (phi / r)) as H. unfold Rsqr in H.
      unfold c, s. lra. }
    pose proof (dot_le_norm x y c s Hcs) as Hdot. fold n in Hdot.
    unfold norm. cbn [vx vy fmul fadd f_sqrt R_ops].
    replace (px - (r * c + ox)) with (x - r * c) by (unfold x; ring).
    replace (py - (r * s + oy)) with (y - r * s) by (unfold y; ring).
    nra.
Qed.

Lemma circle_nearest_radial_witness :
  (nearest (track_cir (Vec2 0 0) 1 1 0 2) (Vec2 3 4)).2 =
  Rabs (norm (vsub (Vec2 3 4) (Vec2 0 0)) - 1).
Proof.
  exact (proj1 (circle_nearest_radial (Vec2 0 0) 1 1 0 2 (Vec2 3 4)
                  ltac:(lra))).
Defined.

(** ** What a step does not do *)

Section Untouched.
Context {F : Type} {ops : FloatOps F}.
Local Open Scope float_scope.


Lemma resolve_valid (tracks : list (track F)) (t_prev : F) (i : nat)
    (k : track F) (t1 t2 : F) (f : firefly F) :
  tracks !! i = Some k -> ff_valid tracks f ->
  ff_valid tracks (resolve t_prev i k t1 t2 f).
Proof.
  intros Hk Hf. apply lookup_lt_Some in Hk.
  rewrite resolve_flags. unfold ff_valid in *.
  destruct (has_flag (tk_flags k) ATTRACT), (has_flag (tk_flags k) RETURN);
    unfold bounce, attract, set_v, set_t, set_tr; simpl;
    try destruct (fltb _ _); simpl; assumption.
Qed.

Lemma update_valid (tracks : list (track F)) (f : firefly F) :
  ff_valid tracks f -> ff_valid tracks (update tracks f).
Proof.
  intros Hf.
  destruct (update_cases tracks f)
    as [[_ ->] | (i & k & t1 & t2 & (Hk & _) & ->)].
  - exact Hf.
  - apply resolve_valid; [exact Hk | exact Hf].
Qed.

Lemma Forall_valid_map (ks ks' : list (track F)) (g : firefly F -> firefly F)
    (fs : list (firefly F)) :
  (forall f, ff_valid ks f -> ff_valid ks' (g f)) ->
  Forall (ff_valid ks) fs -> Forall (ff_valid ks') (map g fs).
Proof.
  intros Hg Hfs. induction Hfs as [| f fs Hf Hfs IH]; simpl; constructor.
  - apply Hg. exact Hf.
  - exact IH.
Qed.

Lemma Forall_valid_alter (ks : list (track F)) (g : firefly F -> firefly F)
    (i : nat) (fs : list (firefly F)) :
  (forall f, ff_tr (g f) = ff_tr f) ->
  Forall (ff_valid ks) fs -> Forall (ff_valid ks) (alter g i fs).
Proof.
  intros Hg Hfs. revert i.
  induction Hfs as [| f fs Hf Hfs IH]; intros [| i]; simpl; constructor;
    try assumption.
  - unfold ff_valid in *. rewrite Hg. exact Hf.
  - apply IH.
Qed.

Lemma Forall_valid_tracks (ks ks' : list (track F)) (fs : list (firefly F)) :
  length ks' = length ks ->
  Forall (ff_valid ks) fs -> Forall (ff_valid ks') fs.
Proof.
  intros Hlen Hfs. rewrite <- (map_id fs).
  apply (Forall_valid_map ks ks' (fun f => f)); [| exact Hfs].
  unfold ff_valid. intros f. rewrite Hlen. auto.
Qed.

Lemma recalc_init_valid (ks ks' : list (track F)) (fs : list (firefly F)) :
  length ks' = length ks ->
  Forall (ff_valid ks) fs -> Forall (ff_valid ks') (recalc_init ks' fs).
Proof.
  intros Hlen Hfs. unfold recalc_init.
  apply (Forall_valid_map ks ks'); [| exact Hfs].
  unfold ff_valid. intros f. rewrite Hlen. auto.
Qed.

Lemma move_links_valid (ks : list (track F)) (sel : nat)
    (links : list (nat * F)) :
  forall fs, Forall (ff_valid ks) fs ->
             Forall (ff_valid ks) (move_links sel links fs).
Proof.
  unfold move_links. induction links as [| l links IH]; intros fs Hfs; simpl;
    [exact Hfs |].
  apply IH. apply Forall_valid_alter; [reflexivity | exact Hfs].
Qed.

Lemma tick_valid (s : scene F) : scene_valid s -> scene_valid (tick s).
Proof.
  intros [Hf Hi]. unfold scene_valid, tick, trail_step.
  assert (Hu : Forall (ff_valid (tracks s))
                 (map (update (tracks s)) (fireflies s))).
  { apply (Forall_valid_map (tracks s) (tracks s)); [| exact Hf].
    apply update_valid. }
  destruct (_ =? _)%Z; simpl; (split; [| exact Hi]); [| exact Hu].
  apply (Forall_valid_map (tracks s) (tracks s)); [| exact Hu].
  intros f Hv. exact Hv.
Qed.

Lemma ticks_valid (n : nat) (s : scene F) :
  scene_valid s -> scene_valid (ticks n s).
Proof.
  intros Hs. induction n as [| n IH]; [exact Hs |].
  unfold ticks in *. simpl. apply tick_valid. exact IH.
Qed.

Lemma with_run_valid (s : scene F) (r : Z) (b : bool) :
  scene_valid s -> scene_valid (with_run s r b).
Proof. intros Hs. exact Hs. Qed.

Lemma scene_update_valid (space_down grave one : bool) (s : scene F) :
  scene_valid s -> scene_valid (scene_update space_down grave one s).
Proof.
  intros Hs. unfold scene_update.
  assert (Hstart : forall s' : scene F, scene_valid s' -> scene_valid (start_run s'))
    by (intros s' [Hf _]; split; exact Hf).
  assert (Hstop : forall s' : scene F, scene_valid s' -> scene_valid (stop_run s'))
    by (intros s' [_ Hi]; split; exact Hi).
  destruct (bool_decide _ && _ && _); cbv zeta;
    repeat match goal with
           | |- context [if ?c then _ else _] => destruct c
           end;
    try apply ticks_valid; try apply with_run_valid;
    try apply Hstart; try apply Hstop; try apply with_run_valid; exact Hs.
Qed.

Lemma alter_tracks_length (g : track F -> track F) (i : nat)
    (ks : list (track F)) : length (alter g i ks) = length ks.
Proof. apply length_alter. Qed.

Lemma pton_valid (W H : Z) (x y : F) (s : scene F) :
  scene_valid s -> scene_valid (pton W H x y s).
Proof.
  intros [Hf Hi]. unfold pton. destruct (negb _); [split; assumption |].
  destruct (find s (board W H x y)) as [[i |] [j |]]; simpl;
    unfold scene_valid; simpl; split;
    repeat first
      [ assumption
      | apply Forall_valid_alter; [reflexivity |]
      | eapply Forall_valid_tracks; [apply length_alter |] ].
Qed.

Lemma ptmove_valid (W H : Z) (x y : F) (s : scene F) :
  scene_valid s -> scene_valid (ptmove W H x y s).
Proof.
  intros [Hf Hi]. unfold ptmove.
  destruct (sel_ff s) as [i |] eqn:Ef; destruct (sel_track s) as [j |] eqn:Et;
    simpl; rewrite ?Et; unfold scene_valid; simpl; split;
    repeat first
      [ assumption
      | apply (recalc_init_valid (tracks s)); [try apply length_alter; reflexivity |]
      | apply move_links_valid
      | apply Forall_valid_alter; [reflexivity |]
      | eapply Forall_valid_tracks; [apply length_alter |] ].
Qed.

Lemma ptoff_valid (x y : F) (s : scene F) :
  scene_valid s -> scene_valid (ptoff x y s).
Proof.
  intros [Hf Hi]. unfold ptoff, scene_valid.
  destruct (sel_ff s) as [i |]; destruct (sel_track s) as [j |]; simpl; split;
    repeat first
      [ assumption
      | apply Forall_valid_alter; [reflexivity |]
      | eapply Forall_valid_tracks; [apply length_alter |] ].
Qed.

(** X2: no firefly is ever left with a reference to a track that is not
    in the vector.  A step keeps the reference or moves it to the crossed
    track; the scene that the constructor builds from fireflies on tracks
    of the puzzle has only such references, in [fireflies] and in the
    snapshot, and [update], a tick and the three pointer callbacks keep
    it so. *)
Theorem track_references_valid (W H : Z) :
  (forall (tracks : list (track F)) (f : firefly F),
      ff_valid tracks f -> ff_valid tracks (update tracks f)) /\
  (forall tracks ffs bells links,
      Forall (fun a : nat * F * F => (a.1.1 < length tracks)%nat) ffs ->
      scene_valid (scene_game tracks ffs bells links)) /\
  (forall s : scene F,
      scene_valid s ->
      scene_valid (tick s) /\
      (forall space_down grave one,
          scene_valid (scene_update space_down grave one s)) /\
      (forall x y, scene_valid (pton W H x y s)) /\
      (forall x y, scene_valid (ptmove W H x y s)) /\
      (forall x y, scene_valid (ptoff x y s))).
Proof.
  split; [exact update_valid | split].
  - intros ks ffs bells links Hffs. unfold scene_valid, scene_game. simpl.
    split; [| constructor].
    apply (recalc_init_valid ks ks); [reflexivity |].
    induction Hffs as [| [[i t] v] ffs Ha Hffs IH]; simpl; constructor.
    + exact Ha.
    + exact IH.
  - intros s Hs. split; [apply tick_valid; exact Hs |].
    split; [intros; apply scene_update_valid; exact Hs |].
    split; [intros; apply pton_valid; exact Hs |].
    split; [intros; apply ptmove_valid | intros; apply ptoff_valid]; exact Hs.
Qed.

End Untouched.


(** In the real numbers: on a circular track of radius [r > 0] a step moves
    the firefly to the point [v / STEPS] further along the circle, whatever
    the wrap of the phase does. *)
Theorem circle_step_position (tracks : list (track R)) (f : firefly R)
    (o : vec2 R) (r : R) (fl : N) (fa : R) (fc : Z) :
  0 < r ->
  tracks !! ff_tr f = Some (track_cir o r fl fa fc) ->
  pos tracks (advance tracks f) =
  track_at (track_cir o r fl fa fc) (ff_t f + ff_v f / IZR STEPS).
Proof.
  intros Hr Hk. unfold pos, advance, track_of. simpl. rewrite Hk. simpl.
  set (k := track_cir o r fl fa fc).
  set (t := ff_t f + ff_v f / IZR STEPS).
  change (2 * PI * r) with (tk_len k).
  destruct (circle_shift o r fl fa fc Hr) as [Hp Hm]. fold k in Hp, Hm.
  unfold Rleb, Rltb.
  destruct (Rle_dec (tk_len k) t) as [H1 | H1].
  - destruct (Rlt_dec (t - tk_len k) 0) as [H2 | H2].
    + rewrite Hp. apply Hm.
    + apply Hm.
  - destruct (Rlt_dec t 0) as [H2 | H2]; [apply Hp | reflexivity].
Qed.

Lemma circle_step_position_witness :
  pos [track_cir (Vec2 0 0) 1 0 0 2]
    (advance [track_cir (Vec2 0 0) 1 0 0 2] (Firefly 0 6 480 false [])) =
  track_at (track_cir (Vec2 0 0) 1 0 0 2) (6 + 480 / IZR STEPS).
Proof.
  apply (circle_step_position [track_cir (Vec2 0 0) 1 0 0 2]
           (Firefly 0 6 480 false []) (Vec2 0 0) 1 0 0 2); [lra | reflexivity].
Defined.


(** ** The trails *)

Section Trails.
Context {F : Type} {ops : FloatOps F}.
Local Open Scope Z_scope.

Lemma tick_trail_m (s : scene F) :
  trail_m (tick s) =
  (trail_step (tracks s) (trail_m s)
     (map (update (tracks s)) (fireflies s))).1.
Proof. unfold tick. destruct (trail_step _ _ _) as [m fs]. reflexivity. Qed.

Lemma tick_fireflies (s : scene F) :
  fireflies (tick s) =
  (trail_step (tracks s) (trail_m s)
     (map (update (tracks s)) (fireflies s))).2.
Proof. unfold tick. destruct (trail_step _ _ _) as [m fs]. reflexivity. Qed.

Lemma trail_step_manager (ks : list (track F)) (m : trail_manager)
    (fs : list (firefly F)) :
  (trail_step ks m fs).1 =
  if tm_counter m + 1 =? TRAIL_I
  then TrailManager 0 ((tm_pointer m + (TRAIL_N - 1)) mod TRAIL_N)
  else TrailManager (tm_counter m + 1) (tm_pointer m).
Proof. unfold trail_step. destruct (_ =? _); reflexivity. Qed.

Lemma ticks_S (n : nat) (s : scene F) : ticks (S n) s = tick (ticks n s).
Proof. reflexivity. Qed.

(** X3: during a run the trail manager counts the ticks: from the state
    [0, 0], in which a run starts, after [n] ticks the counter is [n mod 8]
    and the pointer has stepped back once for every eight ticks, around the
    [20] elements of the trail; after [160] ticks both are [0] again. *)
Theorem trail_cadence (s : scene F) (n : nat) :
  trail_m s = TrailManager 0 0 ->
  trail_m (ticks n s) =
    TrailManager (Z.of_nat n mod TRAIL_I)
                 ((- (Z.of_nat n / TRAIL_I)) mod TRAIL_N) /\
  trail_m (ticks (n + 160) s) = trail_m (ticks n s).
Proof.
  intros Hs.
  assert (Hn : forall n : nat,
             trail_m (ticks n s) =
             TrailManager (Z.of_nat n mod TRAIL_I)
               ((- (Z.of_nat n / TRAIL_I)) mod TRAIL_N)).
  { clear n. intros n. induction n as [| n IH]; [exact Hs |].
    rewrite ticks_S, tick_trail_m, trail_step_manager.
    rewrite IH. cbn [tm_counter tm_pointer]. unfold TRAIL_I, TRAIL_N.
    rewrite Nat2Z.inj_succ. unfold Z.succ.
    destruct (Z.eqb_spec (Z.of_nat n mod 8 + 1) 8) as [He | Hne]; f_equal;
      Z.div_mod_to_equations; lia. }
  split; [apply Hn |]. rewrite !Hn. unfold TRAIL_I, TRAIL_N.
  rewrite Nat2Z.inj_add. change (Z.of_nat 160) with 160.
  f_equal; Z.div_mod_to_equations; lia.
Qed.

Lemma resolve_trail (t_prev : F) (i : nat) (k : track F) (t1 t2 : F)
    (f : firefly F) :
  ff_trail (resolve t_prev i k t1 t2 f) = ff_trail f /\
  ff_sel (resolve t_prev i k t1 t2 f) = ff_sel f.
Proof.
  unfold resolve, attract, bounce.
  destruct (has_flag (tk_flags k) ATTRACT), (has_flag (tk_flags k) RETURN);
    simpl; repeat match goal with |- context [if ?c then _ else _] =>
                    destruct c end; auto.
Qed.

Lemma scan_trail (self : nat) (t_prev : F) (p1 p2 : vec2 F)
    (ks : list (track F)) :
  forall (i : nat) (f : firefly F),
    ff_trail (scan self t_prev p1 p2 i ks f) = ff_trail f /\
    ff_sel (scan self t_prev p1 p2 i ks f) = ff_sel f.
Proof.
  induction ks as [| k ks' IH]; intros i f; simpl; [auto |].
  destruct (crossing _ _ _ _ _) as [[t1 t2] |]; [apply resolve_trail | apply IH].
Qed.

Lemma update_trail (ks : list (track F)) (f : firefly F) :
  ff_trail (update ks f) = ff_trail f /\ ff_sel (update ks f) = ff_sel f.
Proof.
  unfold update.
  exact (scan_trail (ff_tr f) (ff_t f) (pos ks f) (pos ks (advance ks f)) ks
           0%nat (advance ks f)).
Qed.

(** X4: the trail is a window that slides.  On the tick at which the
    counter reaches [TRAIL_I], the dot that [draw] shows first is the
    position of the firefly, and every other dot is the one that was shown
    one place before; the last one is dropped.  On the other ticks no trail
    changes. *)
Theorem trail_window (ks : list (track F)) (m : trail_manager)
    (fs : list (firefly F)) (j : nat) (f : firefly F) :
  0 <= tm_pointer m < TRAIL_N ->
  length (ff_trail f) = Z.to_nat TRAIL_N ->
  fs !! j = Some f ->
  let r := trail_step ks m fs in
  if tm_counter m + 1 =? TRAIL_I then
    exists f',
      r.2 !! j = Some f' /\
      trail_dot f' (tm_pointer r.1) 0 = Some (pos ks f) /\
      forall i, 0 <= i < TRAIL_N - 1 ->
                trail_dot f' (tm_pointer r.1) (i + 1) =
                trail_dot f (tm_pointer m) i
  else r.2 = fs /\ tm_pointer r.1 = tm_pointer m.
Proof.
  intros Hp Hlen Hj r. subst r. unfold trail_step.
  destruct (tm_counter m + 1 =? TRAIL_I); [| auto].
  cbn [fst snd tm_pointer].
  set (p' := (tm_pointer m + (TRAIL_N - 1)) mod TRAIL_N).
  assert (Hp' : 0 <= p' < TRAIL_N)
    by (apply Z.mod_pos_bound; unfold TRAIL_N; lia).
  eexists. split; [rewrite list_lookup_fmap, Hj; reflexivity |].
  unfold trail_dot, set_trail. cbn [ff_trail]. split.
  - rewrite Z.add_0_l, Z.rem_small by exact Hp'.
    apply list_lookup_insert_eq. rewrite Hlen. unfold TRAIL_N in *. lia.
  - intros i Hi. unfold TRAIL_N in *.
    rewrite !Z.rem_mod_nonneg by lia.
    assert (He : (i + 1 + p') mod 20 = (i + tm_pointer m) mod 20)
      by (subst p'; Z.div_mod_to_equations; lia).
    rewrite He. apply list_lookup_insert_ne.
    assert (Hne : (i + tm_pointer m) mod 20 <> p')
      by (subst p'; Z.div_mod_to_equations; lia).
    pose proof (Z.mod_pos_bound (i + tm_pointer m) 20 ltac:(lia)). lia.
Qed.

Lemma recalc_init_length (ks : list (track F)) (fs : list (firefly F)) :
  Forall (fun f => length (ff_trail f) = Z.to_nat TRAIL_N) (recalc_init ks fs).
Proof.
  unfold recalc_init. apply Forall_fmap, Forall_forall. intros f _. simpl.
  reflexivity.
Qed.

Lemma Forall_trail_alter (g : firefly F -> firefly F) (i : nat)
    (fs : list (firefly F)) :
  (forall f, ff_trail (g f) = ff_trail f) ->
  Forall (fun f => length (ff_trail f) = Z.to_nat TRAIL_N) fs ->
  Forall (fun f => length (ff_trail f) = Z.to_nat TRAIL_N) (alter g i fs).
Proof.
  intros Hg Hfs. revert i.
  induction Hfs as [| f fs Hf Hfs IH]; intros [| i]; simpl; constructor;
    try assumption.
  - rewrite Hg. exact Hf.
  - apply IH.
Qed.

Lemma tick_trail_ok (s : scene F) : trail_ok s -> trail_ok (tick s).
Proof.
  intros (Hc & Hp & Hf & Hi). unfold trail_ok.
  rewrite tick_trail_m, tick_fireflies, (proj2 (tick_fields s)).
  assert (Hu : Forall (fun f => length (ff_trail f) = Z.to_nat TRAIL_N)
                 (map (update (tracks s)) (fireflies s))).
  { apply Forall_fmap. eapply Forall_impl; [exact Hf |].
    intros f Hl. simpl. rewrite (proj1 (update_trail _ _)). exact Hl. }
  unfold trail_step, TRAIL_I, TRAIL_N in *.
  destruct (Z.eqb_spec (tm_counter (trail_m s) + 1) 8) as [He | Hne];
    cbn [fst snd tm_counter tm_pointer].
  - split; [lia |]. split; [apply Z.mod_pos_bound; lia |].
    split; [| exact Hi].
    apply Forall_fmap. eapply Forall_impl; [exact Hu |].
    intros f Hl. simpl. rewrite length_insert. exact Hl.
  - split; [lia |]. split; [exact Hp |]. split; [exact Hu | exact Hi].
Qed.

Lemma ticks_trail_ok (n : nat) (s : scene F) :
  trail_ok s -> trail_ok (ticks n s).
Proof.
  intros Hs. induction n as [| n IH]; [exact Hs |].
  rewrite ticks_S. apply tick_trail_ok. exact IH.
Qed.

Lemma scene_update_trail_ok (space_down grave one : bool) (s : scene F) :
  trail_ok s -> trail_ok (scene_update space_down grave one s).
Proof.
  intros Hs. unfold scene_update.
  assert (Hstart : forall s' : scene F, trail_ok s' -> trail_ok (start_run s'))
    by (intros s' (Hc & Hp & Hf & Hi);
        split; [exact Hc | split; [exact Hp | split; exact Hf]]).
  assert (Hstop : forall s' : scene F, trail_ok s' -> trail_ok (stop_run s')).
  { intros s' (Hc & Hp & Hf & Hi). unfold trail_ok, stop_run, TRAIL_I, TRAIL_N.
    cbn [trail_m fireflies fireflies_init trail_reset tm_counter tm_pointer].
    split; [lia | split; [lia | split; exact Hi]]. }
  assert (Hrun : forall (s' : scene F) r b, trail_ok s' ->
                                            trail_ok (with_run s' r b))
    by (intros s' r b H; exact H).
  destruct (bool_decide _ && _ && _); cbv zeta;
    repeat match goal with
           | |- context [if ?c then _ else _] => destruct c
           end;
    try apply ticks_trail_ok; try apply Hrun;
    try apply Hstart; try apply Hstop; try apply Hrun; exact Hs.
Qed.

(** What holds of a scene whenever no run is going on, if [stop_run]
    establishes it and the bookkeeping of [run_state] keeps it, holds after
    [update] whenever no run is going on. *)
Lemma scene_update_paused (P : scene F -> Prop)
    (space_down grave one : bool) (s : scene F) :
  (forall s' r b, P s' -> P (with_run s' r b)) ->
  (forall s', P (stop_run s')) ->
  (paused s -> P s) ->
  paused (scene_update space_down grave one s) ->
  P (scene_update space_down grave one s).
Proof.
  intros Hrun Hstop Hs. unfold scene_update.
  set (s1 := if bool_decide (sel_track s = None) && negb (last_space_down s)
                && space_down
             then _ else s).
  assert (H1 : paused s1 -> P s1).
  { subst s1. destruct (_ && _ && _); [| exact Hs].
    cbv zeta.
    destruct (Z.eqb_spec
                (Z.land (run_state (with_run s (Z.lxor (run_state s) 1)
                                      (last_space_down s))) 1) 0)
      as [He | Hne]; simpl negb; cbv iota.
    - intros _. apply Hstop.
    - unfold paused. simpl. intros Hp. contradiction. }
  clearbody s1. cbv zeta.
  rewrite run_bit_kept.
  destruct (Z.eqb_spec (Z.land (run_state s1) 1) 0) as [He | Hne]; simpl negb;
    cbv iota.
  - intros _. apply Hrun, H1. exact He.
  - unfold paused. rewrite (proj2 (ticks_bellflowers _ _)). simpl.
    rewrite run_bit_kept. intros Hp. contradiction.
Qed.

(** X5: in every scene that the program can be in, the counter of the
    trail manager is in [0, TRAIL_I) and its pointer in [0, TRAIL_N), so
    that [step] and [draw] index the trails inside their [TRAIL_N] elements;
    and whenever no run is going on, both are [0]. *)
Theorem trail_manager_in_range (W H : Z) (s : scene F) :
  reachable W H s ->
  trail_ok s /\ (paused s -> trail_m s = TrailManager 0 0).
Proof.
  induction 1 as [ks ffs bells links | sp g o s Hr [IHo IHp]
                 | x y s Hr [IHo IHp] | x y s Hr [IHo IHp]
                 | x y s Hr [IHo IHp]].
  - split; [| reflexivity].
    unfold trail_ok, scene_game, TRAIL_I.
    cbn [trail_m fireflies fireflies_init tm_counter tm_pointer].
    split; [lia | split; [unfold TRAIL_N; lia |]].
    split; [apply recalc_init_length | constructor].
  - split; [apply scene_update_trail_ok; exact IHo |].
    intros Hpp.
    exact (scene_update_paused (fun s => trail_m s = TrailManager 0 0)
             sp g o s (fun s' r b Hs' => Hs') (fun s' => eq_refl) IHp Hpp).
  - destruct IHo as (Hc & Hp & Hf & Hi).
    assert (Hm : trail_m (pton W H x y s) = trail_m s /\
                 fireflies_init (pton W H x y s) = fireflies_init s /\
                 Forall (fun f => length (ff_trail f) = Z.to_nat TRAIL_N)
                   (fireflies (pton W H x y s))).
    { unfold pton. destruct (negb _); [auto |].
      destruct (find s (board W H x y)) as [[i |] [j |]]; simpl;
        (split; [reflexivity | split; [reflexivity |]]);
        first [assumption
              | apply Forall_trail_alter; [reflexivity | assumption]]. }
    destruct Hm as (Hm & Hi' & Hf').
    split.
    + unfold trail_ok. rewrite Hm, Hi'. auto.
    + rewrite Hm. unfold paused. rewrite (proj2 (pton_keeps W H x y s)).
      exact IHp.
  - destruct IHo as (Hc & Hp & Hf & Hi).
    assert (Hm : trail_m (ptmove W H x y s) = trail_m s /\
                 fireflies_init (ptmove W H x y s) = fireflies_init s /\
                 Forall (fun f => length (ff_trail f) = Z.to_nat TRAIL_N)
                   (fireflies (ptmove W H x y s))).
    { unfold ptmove.
      destruct (sel_ff s) as [i |] eqn:Ef;
        destruct (sel_track s) as [j |] eqn:Et;
        simpl; rewrite ?Et; simpl;
        (split; [reflexivity | split; [reflexivity |]]);
        first [assumption | apply recalc_init_length]. }
    destruct Hm as (Hm & Hi' & Hf').
    split.
    + unfold trail_ok. rewrite Hm, Hi'. auto.
    + rewrite Hm. unfold paused. rewrite (proj2 (ptmove_keeps W H x y s)).
      exact IHp.
  - split; [| exact IHp].
    destruct IHo as (Hc & Hp & Hf & Hi). unfold trail_ok, ptoff.
    cbn [trail_m fireflies fireflies_init].
    split; [exact Hc | split; [exact Hp | split; [| exact Hi]]].
    destruct (sel_ff s) as [i |]; [| exact Hf].
    apply Forall_trail_alter; [reflexivity | exact Hf].
Qed.

End Trails.

Lemma trail_cadence_witness :
  trail_m (ticks 8%nat (scene_game (F:=R) [] [] [] [])) =
    TrailManager (Z.of_nat 8%nat mod TRAIL_I)
                 ((- (Z.of_nat 8%nat / TRAIL_I)) mod TRAIL_N) /\
  trail_m (ticks (8 + 160)%nat (scene_game (F:=R) [] [] [] [])) =
    trail_m (ticks 8%nat (scene_game (F:=R) [] [] [] [])).
Proof.
  apply (trail_cadence (scene_game (F:=R) [] [] [] []) 8%nat). reflexivity.
Defined.

Lemma trail_window_witness :
  exists f',
    (trail_step (F:=R) [] (TrailManager 7%Z 0%Z)
       [Firefly 0%nat 0%R 0%R false (replicate 20%nat (Vec2 0%R 0%R))]).2 !! 0%nat
      = Some f' /\
    trail_dot f' 19%Z 0%Z =
      Some (pos [] (Firefly 0%nat 0%R 0%R false (replicate 20%nat (Vec2 0%R 0%R)))).
Proof.
  destruct (trail_window (F:=R) [] (TrailManager 7%Z 0%Z)
              [Firefly 0%nat 0%R 0%R false (replicate 20%nat (Vec2 0%R 0%R))] 0%nat
              (Firefly 0%nat 0%R 0%R false (replicate 20%nat (Vec2 0%R 0%R))))
    as (f' & Hf' & H0 & _);
    [unfold TRAIL_N; simpl; lia | reflexivity | reflexivity |].
  exists f'. split; [exact Hf' | exact H0].
Defined.

Lemma trail_manager_in_range_witness :
  trail_ok (scene_game (F:=R) [] [] [] []) /\
  (paused (scene_game (F:=R) [] [] [] []) ->
   trail_m (scene_game (F:=R) [] [] [] []) = TrailManager 0%Z 0%Z).
Proof.
  apply (trail_manager_in_range 0%Z 0%Z). constructor.
Defined.


(** ** Bellflowers over any sequence of ticks *)

Section Counting.
Context {F : Type} {ops : FloatOps F}.
Local Open Scope Z_scope.



Lemma bf_run_cons (ks : list (track F)) (fs : list (firefly F))
    (l : list (list (firefly F))) (b : bellflower F) :
  bf_run ks (fs :: l) b = bf_run ks l (bf_update ks fs b).
Proof. reflexivity. Qed.




Lemma bf_run_no_delay (ks : list (track F)) (l : list (list (firefly F))) :
  forall b : bellflower F,
    bf_kind b = Delay 0 0 -> bf_last_on b = true ->
    bf_run ks l b = b.
Proof.
  induction l as [| fs l IH]; intros b Hk Hl; [reflexivity |].
  rewrite bf_run_cons.
  assert (Hb : bf_update ks fs b = b).
  { unfold bf_update, bf_step, bf_update_on, delay_step. rewrite Hk, Hl.
    destruct b as [o r c0 c lo kd]. simpl in *. subst kd lo.
    destruct (fireflies_within _ _ _); reflexivity. }
  rewrite Hb. apply IH; assumption.
Qed.

Lemma bf_run_negative (ks : list (track F)) (l : list (list (firefly F))) :
  forall (b : bellflower F) (d0 : Z),
    d0 < 0 -> bf_kind b = Delay d0 d0 -> bf_last_on b = false ->
    bf_run ks l b = b.
Proof.
  induction l as [| fs l IH]; intros b d0 Hd Hk Hl; [reflexivity |].
  rewrite bf_run_cons.
  assert (Hb : bf_update ks fs b = b).
  { unfold bf_update, bf_step, bf_update_on, delay_step. rewrite Hk, Hl.
    destruct b as [o r c0 c lo kd]. simpl in *. subst kd lo.
    assert (Hg : (d0 >? 0) = false) by (destruct (Z.gtb_spec d0 0); lia).
    assert (He : (d0 =? 0) = false) by (apply Z.eqb_neq; lia).
    destruct (fireflies_within _ _ _); simpl; rewrite ?Hg, ?He; reflexivity. }
  rewrite Hb. apply (IH b d0); assumption.
Qed.

(** X7: a delay of less than one tick.  When [d0 * STEPS] is truncated to
    [0], the delayed bellflower counts once at the first tick of a run,
    whether or not a firefly is near, and is never counted again in that
    run: its count is [c0 - 1], for a [c0] above the least [int].  When
    [d0 * STEPS] is negative, the bellflower never counts. *)
Theorem delayed_bellflower_no_delay (ks : list (track F)) (o : vec2 F)
    (r : F) (c0 : Z) (d0 : F) (fs : list (firefly F))
    (fss : list (list (firefly F))) :
  let b := bellflower_delay o r c0 d0 in
  (f_to_int (d0 * fint STEPS)%fl = 0 -> - 2 ^ 31 < c0 < 2 ^ 31 ->
   bf_c (bf_run ks (fs :: fss) b) = c0 - 1 /\
   bf_last_on (bf_run ks (fs :: fss) b) = true) /\
  (f_to_int (d0 * fint STEPS)%fl < 0 ->
   bf_run ks (fs :: fss) b = b /\ bf_c b = c0).
Proof.
  intros b. subst b. unfold bellflower_delay, bf_reset. cbn [bf_kind bf_o bf_r bf_c0].
  split; intros Hd.
  - intros Hc0. rewrite <- (int_dec_small c0 Hc0).
    rewrite Hd. rewrite bf_run_cons.
    set (b1 := bf_update ks fs _).
    assert (Hb1 : b1 = Bellflower o r c0 (int_dec c0) true (Delay 0 0)).
    { unfold b1, bf_update, bf_step, bf_update_on, delay_step.
      destruct (fireflies_within _ _ _); reflexivity. }
    rewrite (bf_run_no_delay ks fss b1) by (rewrite Hb1; reflexivity).
    rewrite Hb1. split; reflexivity.
  - split; [| reflexivity].
    apply (bf_run_negative ks (fs :: fss) _ _ Hd); reflexivity.
Qed.

Lemma delay_step_range (on : bool) (d d0 : Z) :
  0 <= d <= d0 -> 0 <= delay_step on d d0 <= d0.
Proof.
  intros Hd. unfold delay_step.
  destruct on; [| lia]. destruct (Z.gtb_spec d 0); lia.
Qed.

(** X8: the countdown of a delayed bellflower stays between [0] and [d0],
    and the bellflower is latched on exactly when the countdown is at [0]:
    the disc that [draw] fills by [(d0 - d) / d0] is full exactly then. *)
Theorem delay_countdown_range (ks : list (track F))
    (fss : list (list (firefly F))) (b : bellflower F) (d d0 : Z) :
  bf_kind b = Delay d d0 ->
  0 <= d <= d0 ->
  (bf_last_on b = true <-> d = 0) ->
  exists d',
    bf_kind (bf_run ks fss b) = Delay d' d0 /\
    0 <= d' <= d0 /\
    (bf_last_on (bf_run ks fss b) = true <-> d' = 0).
Proof.
  revert b d. induction fss as [| fs l IH]; intros b d Hk Hd Hl.
  - exists d. auto.
  - rewrite bf_run_cons.
    set (on := fireflies_within ks b fs).
    apply (IH (bf_update ks fs b) (delay_step on d d0)).
    + unfold bf_update, bf_step. fold on. rewrite Hk. reflexivity.
    + apply delay_step_range. exact Hd.
    + unfold bf_update, bf_step. fold on. rewrite Hk.
      cbn [bf_update_on bf_last_on]. apply Z.eqb_eq.
Qed.

(** X9: a delayed bellflower as its constructor leaves it, with a delay
    of [d0 > 0] ticks, and fireflies within its range at every one of [n]
    consecutive ticks: the count is untouched while [n < d0] and is
    [c0 - 1] from tick [d0] on, however long they stay, for a [c0] above
    the least [int]. *)
Theorem delayed_bellflower_threshold (ks : list (track F)) (o : vec2 F)
    (r : F) (c0 : Z) (d0 : F) (ins : list (list (firefly F))) :
  let b := bellflower_delay o r c0 d0 in
  let n := f_to_int (d0 * fint STEPS)%fl in
  0 < n ->
  - 2 ^ 31 < c0 < 2 ^ 31 ->
  Forall (fun fs => fireflies_within ks b fs = true) ins ->
  bf_c (bf_run ks ins b) =
    if Z.of_nat (length ins) <? n then c0 else c0 - 1.
Proof.
  intros b n Hn Hc0 Hins. rewrite <- (int_dec_small c0 Hc0).
  pose proof (inside_countdown ks ins b n n eq_refl eq_refl Hn Hins) as H.
  destruct (Z.of_nat (length ins) <? n); destruct H as [H _]; exact H.
Qed.

End Counting.


Lemma delayed_bellflower_no_delay_witness :
  bf_c (bf_run (F:=R) [] [[]] (bellflower_delay (Vec2 0 0) 1 3%Z 0)) =
  2%Z.
Proof.
  destruct (delayed_bellflower_no_delay (F:=R) [] (Vec2 0 0) 1 3%Z 0 [] [])
    as [H _].
  apply H; [| lia]. simpl. unfold Rtrunc.
  destruct (Rle_dec 0 (0 * IZR STEPS)) as [_ | Hn]; [| lra].
  symmetry. apply Int_part_spec. lra.
Defined.

Lemma delay_countdown_range_witness :
  exists d' : Z,
    bf_kind (bf_run (F:=R) [] [[]]
               (Bellflower (Vec2 0 0) 1 3%Z 3%Z false (Delay 5 5)))
      = Delay d' 5 /\ (0 <= d' <= 5)%Z.
Proof.
  destruct (delay_countdown_range (F:=R) [] [[]]
              (Bellflower (Vec2 0 0) 1 3%Z 3%Z false (Delay 5 5)) 5 5)
    as (d' & Hk & Hd & _);
    [reflexivity | lia | split; [discriminate | lia] |].
  exists d'. split; [exact Hk | exact Hd].
Defined.

Lemma delayed_bellflower_threshold_witness :
  bf_c (bf_run (ex_tracks 0) (replicate 7 [ex_ff]) ex_bell) = 2%Z.
Proof.
  assert (Ht : Rtrunc (5 / 480 * IZR STEPS) = 5%Z).
  { unfold Rtrunc, STEPS.
    destruct (Rle_dec 0 (5 / 480 * 480)) as [_ | Hn]; [| lra].
    symmetry. apply Int_part_spec. lra. }
  pose proof (delayed_bellflower_threshold (ex_tracks 0) (Vec2 0 0) 1 3%Z
                (5 / 480) (replicate 7 [ex_ff])) as H.
  cbv zeta in H. cbn [f_to_int fmul fint R_ops] in H. rewrite Ht in H.
  apply H; [lia | lia |]. apply Forall_replicate. apply ex_ff_within.
Defined.


(** ** Links between fireflies *)

Section LinkTable.
Context {F : Type} {ops : FloatOps F}.
Local Open Scope float_scope.

Lemma added_elem (fs : list (firefly F)) (group : list nat) (indep : nat)
    (x : nat * F) :
  x ∈ links_added fs group indep <->
  x.1 ∈ group /\ x.1 <> indep /\ x.2 = link_phase fs x.1 - link_phase fs indep.
Proof.
  unfold links_added. rewrite list_elem_of_omap. split.
  - intros (dep & Hin & Hx).
    destruct (Nat.eqb_spec dep indep) as [E | Hne]; simpl in Hx;
      [discriminate |].
    injection Hx as <-. simpl. auto.
  - intros (Hin & Hne & Hd). exists x.1. split; [exact Hin |].
    destruct (Nat.eqb_spec x.1 indep) as [E | _]; [contradiction |].
    simpl. rewrite <- Hd. destruct x; reflexivity.
Qed.

Lemma group_links_length (fs : list (firefly F)) (group indeps : list nat) :
  forall acc : list (list (nat * F)),
    length (foldl (fun ff_links indep =>
                     alter (fun l => l ++ links_added fs group indep) indep ff_links)
                  acc indeps) = length acc.
Proof.
  induction indeps as [| a rest IH]; intros acc; simpl; [reflexivity |].
  rewrite IH. apply length_alter.
Qed.

Lemma group_links_elem (fs : list (firefly F)) (group indeps : list nat)
    (i : nat) (x : nat * F) :
  forall acc : list (list (nat * F)),
    (exists l', foldl (fun ff_links indep =>
                         alter (fun l => l ++ links_added fs group indep) indep
                           ff_links) acc indeps !! i = Some l' /\ x ∈ l') <->
    (exists l, acc !! i = Some l /\ x ∈ l) \/
    ((i < length acc)%nat /\ i ∈ indeps /\ x ∈ links_added fs group i).
Proof.
  induction indeps as [| a rest IH]; intros acc; simpl.
  - split; [auto |]. intros [H | (_ & Hin & _)]; [exact H |].
    inversion Hin.
  - rewrite IH, length_alter. clear IH.
    destruct (decide (a = i)) as [-> | Hne].
    + rewrite list_lookup_alter_eq. split.
      * intros [(l & Hl & Hx) | (Hlen & Hin & Hx)].
        -- destruct (acc !! i) as [l0 |] eqn:E; [| discriminate].
           simpl in Hl. injection Hl as <-.
           apply elem_of_app in Hx as [Hx | Hx]; [left; eauto |].
           right. split; [apply (lookup_lt_Some _ _ _ E) |].
           split; [left | exact Hx].
        -- right. split; [exact Hlen |]. split; [right; exact Hin | exact Hx].
      * intros [(l & Hl & Hx) | (Hlen & Hin & Hx)].
        -- left. rewrite Hl. simpl. eexists. split; [reflexivity |].
           apply elem_of_app. left. exact Hx.
        -- left. destruct (lookup_lt_is_Some_2 acc i Hlen) as [l0 Hl0].
           rewrite Hl0. simpl. eexists. split; [reflexivity |].
           apply elem_of_app. right. exact Hx.
    + rewrite list_lookup_alter_ne by exact Hne. split.
      * intros [H | (Hlen & Hin & Hx)]; [left; exact H |].
        right. split; [exact Hlen |]. split; [right; exact Hin | exact Hx].
      * intros [H | (Hlen & Hin & Hx)]; [left; exact H |].
        right. split; [exact Hlen |]. split; [| exact Hx].
        inversion Hin; subst; [contradiction | assumption].
Qed.

Lemma all_links_elem (fs : list (firefly F)) (links : list (list nat))
    (i : nat) (x : nat * F) :
  forall acc : list (list (nat * F)),
    (exists l', foldl (fun ff_links group =>
                   foldl (fun ff_links indep =>
                            alter (fun l => l ++ links_added fs group indep) indep
                              ff_links) ff_links group) acc links !! i
                = Some l' /\ x ∈ l') <->
    (exists l, acc !! i = Some l /\ x ∈ l) \/
    ((i < length acc)%nat /\
     exists group, group ∈ links /\ i ∈ group /\ x ∈ links_added fs group i).
Proof.
  induction links as [| g rest IH]; intros acc; simpl.
  - split; [auto |]. intros [H | (_ & group & Hin & _)]; [exact H |].
    inversion Hin.
  - rewrite IH, group_links_length, group_links_elem. clear IH. split.
    + intros [[H | (Hlen & Hin & Hx)] | (Hlen & group & Hg & Hin & Hx)].
      * left. exact H.
      * right. split; [exact Hlen |]. exists g. split; [left | auto].
      * right. split; [exact Hlen |]. exists group. split; [right |]; auto.
    + intros [H | (Hlen & group & Hg & Hin & Hx)]; [left; left; exact H |].
      inversion Hg; subst.
      * left. right. auto.
      * right. split; [exact Hlen |]. exists group. auto.
Qed.

(** The links of the table: the list of the firefly [i] holds [(dep, d)]
    exactly when some group holds both [i] and [dep], the two are not the
    same, and [d] is the phase of [dep] less the phase of [i]. *)
Lemma build_links_elem (fs : list (firefly F)) (links : list (list nat))
    (i : nat) (x : nat * F) :
  (exists l, build_links fs links !! i = Some l /\ x ∈ l) <->
  (i < length fs)%nat /\
  exists group, group ∈ links /\ i ∈ group /\
                x.1 ∈ group /\ x.1 <> i /\
                x.2 = link_phase fs x.1 - link_phase fs i.
Proof.
  unfold build_links.
  change (foldl _ (replicate (length fs) []) links)
    with (foldl (fun ff_links group =>
                   foldl (fun ff_links indep =>
                            alter (fun l => l ++ links_added fs group indep) indep
                              ff_links) ff_links group)
            (replicate (length fs) []) links).
  rewrite all_links_elem, length_replicate. split.
  - intros [(l & Hl & Hx) | (Hlen & group & Hg & Hin & Hx)].
    + apply lookup_replicate in Hl as [-> _]. inversion Hx.
    + split; [exact Hlen |]. exists group.
      apply added_elem in Hx. tauto.
  - intros (Hlen & group & Hg & Hin & Hx). right.
    split; [exact Hlen |]. exists group.
    split; [exact Hg |]. split; [exact Hin |]. apply added_elem. exact Hx.
Qed.

Lemma build_links_length (fs : list (firefly F)) (links : list (list nat)) :
  length (build_links fs links) = length fs.
Proof.
  unfold build_links.
  rewrite <- (length_replicate (length fs) ([] : list (nat * F))) at 2.
  generalize (replicate (length fs) ([] : list (nat * F))).
  induction links as [| g rest IH]; intros acc; simpl; [reflexivity |].
  rewrite IH. apply (group_links_length fs g g).
Qed.

(** X10: the table of links has a list for every firefly; the list of
    firefly [i] holds the link [(dep, d)] exactly when [i] and [dep] are
    two different members, both of them fireflies, of one group, with [d]
    the phase of [dep] less the phase of [i]; and it never links a firefly
    to itself. *)
Theorem build_links_table (fs : list (firefly F)) (links : list (list nat))
    (i dep : nat) (fi fdep : firefly F) (d : F) :
  fs !! i = Some fi ->
  fs !! dep = Some fdep ->
  length (build_links fs links) = length fs /\
  ((exists l, build_links fs links !! i = Some l /\ (dep, d) ∈ l) <->
   (exists group, group ∈ links /\ i ∈ group /\ dep ∈ group) /\
   dep <> i /\ d = ff_t fdep - ff_t fi) /\
  ((exists l, build_links fs links !! i = Some l /\ (dep, d) ∈ l) ->
   exists l', build_links fs links !! dep = Some l' /\
              (i, ff_t fi - ff_t fdep) ∈ l').
Proof.
  intros Hi Hdep.
  assert (Hpi : link_phase fs i = ff_t fi) by (unfold link_phase; rewrite Hi; reflexivity).
  assert (Hpd : link_phase fs dep = ff_t fdep)
    by (unfold link_phase; rewrite Hdep; reflexivity).
  assert (Hli := lookup_lt_Some _ _ _ Hi).
  assert (Hld := lookup_lt_Some _ _ _ Hdep).
  split; [apply build_links_length |]. split.
  - rewrite build_links_elem. simpl. rewrite Hpi, Hpd. split.
    + intros (_ & group & Hg & Hin & Hd & Hne & Hx). eauto 10.
    + intros ((group & Hg & Hin & Hd) & Hne & Hx). eauto 10.
  - rewrite !build_links_elem. simpl. rewrite Hpi, Hpd.
    intros (_ & group & Hg & Hin & Hd & Hne & Hx).
    split; [exact Hld |]. exists group. auto 10.
Qed.

Lemma move_links_self (sel : nat) (links : list (nat * F)) :
  Forall (fun link => link.1 <> sel) links ->
  forall fs : list (firefly F), move_links sel links fs !! sel = fs !! sel.
Proof. apply move_links_other. Qed.



End LinkTable.

Lemma build_links_table_witness :
  exists l',
    build_links [Firefly 0%nat 1 1 false []; Firefly 0%nat 3 1 false []]
      [[0%nat; 1%nat]] !! 1%nat = Some l' /\
    (0%nat, 1 - 3) ∈ l'.
Proof.
  destruct (build_links_table
              [Firefly 0%nat 1 1 false []; Firefly 0%nat 3 1 false []]
              [[0%nat; 1%nat]] 0%nat 1%nat
              (Firefly 0%nat 1 1 false []) (Firefly 0%nat 3 1 false [])
              (3 - 1) eq_refl eq_refl) as (_ & _ & H).
  apply H. eexists. split; [reflexivity |]. simpl. constructor.
Defined.



(** ** What the pointer picks up *)

Lemma find_ff_spec (ks : list (track R)) (p : vec2 R) (fs : list (firefly R)) :
  forall (i : nat) (best_dist : R) (best_ff : option nat),
    (find_ff ks p i fs best_dist best_ff = best_ff /\
     forall j f, fs !! j = Some f -> best_dist <= norm (vsub p (pos ks f))) \/
    (exists j f,
        find_ff ks p i fs best_dist best_ff = Some (i + j)%nat /\
        fs !! j = Some f /\
        norm (vsub p (pos ks f)) < best_dist /\
        (forall j' f', fs !! j' = Some f' ->
                       norm (vsub p (pos ks f)) <= norm (vsub p (pos ks f'))) /\
        (forall j' f', (j' < j)%nat -> fs !! j' = Some f' ->
                       norm (vsub p (pos ks f)) < norm (vsub p (pos ks f')))).
Proof.
  induction fs as [| f fs' IH]; intros i best_dist best_ff.
  - left. split; [reflexivity |]. intros j f Hj. destruct j; discriminate.
  - cbn [find_ff]. cbv zeta. cbn [fltb R_ops].
    set (dist := norm (vsub p (pos ks f))).
    unfold Rltb; destruct (Rlt_dec dist best_dist) as [Hlt | Hge];
      [| apply Rnot_lt_le in Hge].
    + right.
      destruct (IH (S i) dist (Some i))
        as [[Hr Hall] | (j & g & Hr & Hj & Hd & Hmin & Hfirst)].
      * exists 0%nat, f. rewrite Hr, Nat.add_0_r.
        split; [reflexivity |]. split; [reflexivity |].
        split; [exact Hlt |]. split.
        -- intros [| j'] f' Hj'; simpl in Hj'.
           ++ injection Hj' as <-. apply Rle_refl.
           ++ apply (Hall j' f' Hj').
        -- intros j' f' Hlt'. lia.
      * exists (S j), g. rewrite Hr.
        split; [f_equal; lia |]. split; [exact Hj |].
        split; [unfold dist in *; lra |]. split.
        -- intros [| j'] f' Hj'; simpl in Hj'.
           ++ injection Hj' as <-. unfold dist in *; lra.
           ++ apply (Hmin j' f' Hj').
        -- intros [| j'] f' Hlt' Hj'; simpl in Hj'.
           ++ injection Hj' as <-. exact Hd.
           ++ apply (Hfirst j' f'); [lia | exact Hj'].
    + destruct (IH (S i) best_dist best_ff)
        as [[Hr Hall] | (j & g & Hr & Hj & Hd & Hmin & Hfirst)].
      * left. split; [exact Hr |].
        intros [| j'] f' Hj'; simpl in Hj'.
        -- injection Hj' as <-. unfold dist in *; lra.
        -- apply (Hall j' f' Hj').
      * right. exists (S j), g. rewrite Hr.
        split; [f_equal; lia |]. split; [exact Hj |].
        split; [exact Hd |]. split.
        -- intros [| j'] f' Hj'; simpl in Hj'.
           ++ injection Hj' as <-. unfold dist in *; lra.
           ++ apply (Hmin j' f' Hj').
        -- intros [| j'] f' Hlt' Hj'; simpl in Hj'.
           ++ injection Hj' as <-. unfold dist in *; lra.
           ++ apply (Hfirst j' f'); [lia | exact Hj'].
Qed.

Lemma find_track_spec (p : vec2 R) (ks : list (track R)) :
  forall (i : nat) (best_result : R * R) (best_track : option nat),
    (find_track p i ks best_result best_track = best_track /\
     forall j k, ks !! j = Some k -> has_flag (tk_flags k) FIXED = false ->
                 best_result.2 <= (nearest k p).2) \/
    (exists j k,
        find_track p i ks best_result best_track = Some (i + j)%nat /\
        ks !! j = Some k /\
        has_flag (tk_flags k) FIXED = false /\
        (nearest k p).2 < best_result.2 /\
        (forall j' k', ks !! j' = Some k' ->
                       has_flag (tk_flags k') FIXED = false ->
                       (nearest k p).2 <= (nearest k' p).2) /\
        (forall j' k', (j' < j)%nat -> ks !! j' = Some k' ->
                       has_flag (tk_flags k') FIXED = false ->
                       (nearest k p).2 < (nearest k' p).2)).
Proof.
  induction ks as [| k ks' IH]; intros i best_result best_track.
  - left. split; [reflexivity |]. intros j k Hj. destruct j; discriminate.
  - cbn [find_track]. cbv zeta. cbn [fltb R_ops].
    destruct (has_flag (tk_flags k) FIXED) eqn:Efix; cbn [negb].
    + destruct (IH (S i) best_result best_track)
        as [[Hr Hall] | (j & g & Hr & Hj & Hfree & Hd & Hmin & Hfirst)].
      * left. split; [exact Hr |].
        intros [| j'] k' Hj' Hf'; simpl in Hj'.
        -- injection Hj' as Hk; subst k'. congruence.
        -- apply (Hall j' k' Hj' Hf').
      * right. exists (S j), g. rewrite Hr.
        split; [f_equal; lia |]. split; [exact Hj |].
        split; [exact Hfree |]. split; [exact Hd |]. split.
        -- intros [| j'] k' Hj' Hf'; simpl in Hj'.
           ++ injection Hj' as Hk; subst k'. congruence.
           ++ apply (Hmin j' k' Hj' Hf').
        -- intros [| j'] k' Hlt' Hj' Hf'; simpl in Hj'.
           ++ injection Hj' as Hk; subst k'. congruence.
           ++ apply (Hfirst j' k'); [lia | exact Hj' | exact Hf'].
    + set (dist := (nearest k p).2).
      unfold Rltb; destruct (Rlt_dec dist best_result.2) as [Hlt | Hge];
      [| apply Rnot_lt_le in Hge].
      * right.
        destruct (IH (S i) (nearest k p) (Some i))
          as [[Hr Hall] | (j & g & Hr & Hj & Hfree & Hd & Hmin & Hfirst)].
        -- exists 0%nat, k. rewrite Hr, Nat.add_0_r.
           split; [reflexivity |]. split; [reflexivity |].
           split; [exact Efix |]. split; [exact Hlt |]. split.
           ++ intros [| j'] k' Hj' Hf'; simpl in Hj'.
              ** injection Hj' as Hk; subst k'. apply Rle_refl.
              ** apply (Hall j' k' Hj' Hf').
           ++ intros j' k' Hlt'. lia.
        -- exists (S j), g. rewrite Hr.
           split; [f_equal; lia |]. split; [exact Hj |].
           split; [exact Hfree |].
           split; [unfold dist in *; lra |]. split.
           ++ intros [| j'] k' Hj' Hf'; simpl in Hj'.
              ** injection Hj' as Hk; subst k'. unfold dist in *; lra.
              ** apply (Hmin j' k' Hj' Hf').
           ++ intros [| j'] k' Hlt' Hj' Hf'; simpl in Hj'.
              ** injection Hj' as Hk; subst k'. exact Hd.
              ** apply (Hfirst j' k'); [lia | exact Hj' | exact Hf'].
      * destruct (IH (S i) best_result best_track)
          as [[Hr Hall] | (j & g & Hr & Hj & Hfree & Hd & Hmin & Hfirst)].
        -- left. split; [exact Hr |].
           intros [| j'] k' Hj' Hf'; simpl in Hj'.
           ++ injection Hj' as Hk; subst k'. unfold dist in *; lra.
           ++ apply (Hall j' k' Hj' Hf').
        -- right. exists (S j), g. rewrite Hr.
           split; [f_equal; lia |]. split; [exact Hj |].
           split; [exact Hfree |]. split; [exact Hd |]. split.
           ++ intros [| j'] k' Hj' Hf'; simpl in Hj'.
              ** injection Hj' as Hk; subst k'. unfold dist in *; lra.
              ** apply (Hmin j' k' Hj' Hf').
           ++ intros [| j'] k' Hlt' Hj' Hf'; simpl in Hj'.
              ** injection Hj' as Hk; subst k'. unfold dist in *; lra.
              ** apply (Hfirst j' k'); [lia | exact Hj' | exact Hf'].
Qed.

Lemma flit_075 : flit (75 # 100) = 75 / 100.
Proof. cbn [flit R_ops]. unfold Q2R. simpl. lra. Qed.

Lemma flit_05 : flit (5 # 10) = 5 / 10.
Proof. cbn [flit R_ops]. unfold Q2R. simpl. lra. Qed.

(** In the real numbers: the firefly that the pointer picks up is the one
    nearest to it, the first of the vector among those equally near, and it
    is nearer than [0.75]; with a firefly no track is picked up. No firefly
    is picked up exactly when none is nearer than [0.75]. *)
Theorem find_firefly_nearest (s : scene R) (p : vec2 R) :
  match (find s p).1 with
  | Some i =>
      (find s p).2 = None /\
      exists f,
        fireflies s !! i = Some f /\
        norm (vsub p (pos (tracks s) f)) < 75 / 100 /\
        (forall j g, fireflies s !! j = Some g ->
                     norm (vsub p (pos (tracks s) f)) <=
                     norm (vsub p (pos (tracks s) g))) /\
        (forall j g, (j < i)%nat -> fireflies s !! j = Some g ->
                     norm (vsub p (pos (tracks s) f)) <
                     norm (vsub p (pos (tracks s) g)))
  | None =>
      forall j g, fireflies s !! j = Some g ->
                  75 / 100 <= norm (vsub p (pos (tracks s) g))
  end.
Proof.
  unfold find.
  destruct (find_ff_spec (tracks s) p (fireflies s) 0 (flit (75 # 100)) None)
    as [[Hr Hall] | (j & f & Hr & Hj & Hd & Hmin & Hfirst)];
    rewrite Hr; cbn [fst snd].
  - rewrite flit_075 in Hall. exact Hall.
  - split; [reflexivity |]. exists f. rewrite flit_075 in Hd. auto.
Qed.

(** In the real numbers: a track is picked up only when no firefly is; it is
    then a track without the flag [FIXED], the one nearest to the pointer
    among those, the first of the vector among those equally near, and it is
    nearer than [0.5]. Nothing is picked up exactly when a firefly is, or no
    such track is nearer than [0.5]. *)
Theorem find_track_nearest (s : scene R) (p : vec2 R) :
  match (find s p).2 with
  | Some j =>
      (find s p).1 = None /\
      exists k,
        tracks s !! j = Some k /\
        has_flag (tk_flags k) FIXED = false /\
        (nearest k p).2 < 5 / 10 /\
        (forall j' k', tracks s !! j' = Some k' ->
                       has_flag (tk_flags k') FIXED = false ->
                       (nearest k p).2 <= (nearest k' p).2) /\
        (forall j' k', (j' < j)%nat -> tracks s !! j' = Some k' ->
                       has_flag (tk_flags k') FIXED = false ->
                       (nearest k p).2 < (nearest k' p).2)
  | None =>
      (find s p).1 <> None \/
      forall j k, tracks s !! j = Some k ->
                  has_flag (tk_flags k) FIXED = false ->
                  5 / 10 <= (nearest k p).2
  end.
Proof.
  unfold find.
  destruct (find_ff (tracks s) p 0 (fireflies s) (flit (75 # 100)) None)
    as [i |]; cbn [fst snd]; [left; discriminate |].
  destruct (find_track_spec p (tracks s) 0 (IZR 0, flit (5 # 10)) None)
    as [[Hr Hall] | (j & k & Hr & Hj & Hfree & Hd & Hmin & Hfirst)];
    cbn [fint R_ops]; rewrite Hr.
  - right. cbn [snd] in Hall. rewrite flit_05 in Hall. exact Hall.
  - split; [reflexivity |]. exists k. cbn [snd] in Hd.
    rewrite flit_05 in Hd. auto.
Qed.


(** ** Frames *)

Section Frames.
Context {F : Type} {ops : FloatOps F}.
Local Open Scope Z_scope.

Lemma tick_sim (s s' : scene F) :
  sim_state s = sim_state s' -> sim_state (tick s) = sim_state (tick s').
Proof.
  unfold sim_state. intros Hs. injection Hs as Hk Hf Hb Hm.
  unfold tick. rewrite Hk, Hf, Hb, Hm.
  destruct (trail_step _ _ _) as [m fs]. reflexivity.
Qed.

Lemma ticks_sim (n : nat) (s s' : scene F) :
  sim_state s = sim_state s' ->
  sim_state (ticks n s) = sim_state (ticks n s').
Proof.
  intros Hs. induction n as [| n IH]; [exact Hs |].
  rewrite !ticks_S. apply tick_sim. exact IH.
Qed.

Lemma ticks_add (n m : nat) (s : scene F) :
  ticks (n + m) s = ticks n (ticks m s).
Proof. unfold ticks. apply Nat.iter_add. Qed.

Lemma tick_ctrl (s : scene F) :
  run_state (tick s) = run_state s /\
  last_space_down (tick s) = last_space_down s /\
  sel_track (tick s) = sel_track s.
Proof. unfold tick. destruct (trail_step _ _ _) as [m fs]. auto. Qed.

Lemma ticks_ctrl (n : nat) (s : scene F) :
  run_state (ticks n s) = run_state s /\
  last_space_down (ticks n s) = last_space_down s /\
  sel_track (ticks n s) = sel_track s.
Proof.
  induction n as [| n (IHr & IHl & IHt)]; [auto |].
  rewrite ticks_S. destruct (tick_ctrl (ticks n s)) as (-> & -> & ->). auto.
Qed.

Lemma run_bit_cases (r : Z) : Z.land r 1 = 0 \/ Z.land r 1 = 1.
Proof.
  assert (H : Z.land r 1 = r mod 2) by exact (Z.land_ones r 1 ltac:(lia)).
  rewrite H. pose proof (Z.mod_pos_bound r 2 ltac:(lia)). lia.
Qed.

Lemma run_bit_toggled (r : Z) : Z.land (Z.lxor r 1) 1 = 1 - Z.land r 1.
Proof.
  assert (H : forall a, Z.land a 1 = Z.b2z (Z.testbit a 0)).
  { intros a. rewrite Z.bit0_mod. exact (Z.land_ones a 1 ltac:(lia)). }
  rewrite !H, Z.lxor_spec. change (Z.testbit 1 0) with true.
  destruct (Z.testbit r 0); reflexivity.
Qed.

Lemma run_speed (r : Z) (grave one : bool) :
  Z.shiftr (Z.lor (Z.land r 1) (Z.shiftl (frame_ticks grave one) 1)) 1 =
  frame_ticks grave one.
Proof.
  unfold frame_ticks.
  destruct (run_bit_cases r) as [-> | ->]; destruct grave, one; reflexivity.
Qed.

(** [update] in terms of its parts. *)
Lemma scene_update_eq (space_down grave one : bool) (s : scene F) :
  let s1 :=
    if toggles space_down s
    then if Z.land (run_state s) 1 =? 0
         then start_run (with_run s (Z.lxor (run_state s) 1)
                           (last_space_down s))
         else stop_run (with_run s (Z.lxor (run_state s) 1)
                          (last_space_down s))
    else s in
  let rs := Z.lor (Z.land (run_state s1) 1)
                  (Z.shiftl (frame_ticks grave one) 1) in
  scene_update space_down grave one s =
  if Z.land (run_state s1) 1 =? 0 then with_run s1 rs space_down
  else ticks (Z.to_nat (frame_ticks grave one)) (with_run s1 rs space_down).
Proof.
  unfold scene_update, toggles, frame_ticks. cbv zeta.
  set (c := bool_decide (sel_track s = None) && negb (last_space_down s)
            && space_down).
  set (s' := with_run s (Z.lxor (run_state s) 1) (last_space_down s)).
  assert (Hs1 : (if c then if negb (Z.land (run_state s') 1 =? 0)
                           then start_run s' else stop_run s' else s) =
                (if c then if Z.land (run_state s) 1 =? 0
                           then start_run s' else stop_run s' else s)).
  { destruct c; [| reflexivity]. unfold s'. cbn [run_state with_run].
    rewrite run_bit_toggled.
    destruct (run_bit_cases (run_state s)) as [E | E]; rewrite E;
      reflexivity. }
  rewrite Hs1. clear Hs1.
  generalize (if c then if Z.land (run_state s) 1 =? 0
                        then start_run s' else stop_run s' else s).
  intros s1. rewrite run_bit_kept.
  pose proof (run_speed (run_state s1) grave one) as Hn.
  unfold frame_ticks in Hn. rewrite Hn.
  destruct (Z.land (run_state s1) 1 =? 0); reflexivity.
Qed.

Lemma frame_sim (space_down grave one : bool) (s : scene F) :
  sim_state (scene_update space_down grave one s) =
  let n := Z.to_nat (frame_ticks grave one) in
  if toggles space_down s then
    if Z.land (run_state s) 1 =? 0 then sim_state (ticks n s)
    else sim_state (stop_run s)
  else
    if Z.land (run_state s) 1 =? 0 then sim_state s
    else sim_state (ticks n s).
Proof.
  rewrite scene_update_eq. cbv zeta.
  destruct (toggles space_down s).
  - destruct (run_bit_cases (run_state s)) as [E | E]; rewrite E;
      cbn [Z.eqb run_state start_run stop_run with_run];
      rewrite run_bit_toggled, E; cbn [Z.sub Z.eqb Z.opp Z.add Z.pos_sub].
    + apply ticks_sim. reflexivity.
    + reflexivity.
  - destruct (run_bit_cases (run_state s)) as [E | E]; rewrite E;
      cbn [Z.eqb].
    + reflexivity.
    + apply ticks_sim. reflexivity.
Qed.

(** X12: what one frame does to the simulation.  When [update] starts a
    run, the ticks of that same frame are run; when it stops one, the
    frame ends as [stop_run] leaves the scene; otherwise a frame of a run
    is its ticks, [1] with the grave key, else [16] with the key [1], else
    [4], and a frame without a run changes nothing, whatever key is down. *)
Theorem frame_simulation (space_down grave one : bool) (s : scene F) :
  sim_state (scene_update space_down grave one s) =
  let n := Z.to_nat (frame_ticks grave one) in
  if toggles space_down s then
    if Z.land (run_state s) 1 =? 0 then sim_state (ticks n s)
    else sim_state (stop_run s)
  else
    if Z.land (run_state s) 1 =? 0 then sim_state s
    else sim_state (ticks n s).
Proof. apply frame_sim. Qed.

Lemma scene_update_ctrl (space_down grave one : bool) (s : scene F) :
  let s' := scene_update space_down grave one s in
  Z.land (run_state s') 1 =
    (if toggles space_down s then 1 - Z.land (run_state s) 1
     else Z.land (run_state s) 1) /\
  Z.shiftr (run_state s') 1 = frame_ticks grave one /\
  last_space_down s' = space_down.
Proof.
  cbv zeta. rewrite scene_update_eq. cbv zeta.
  set (s1 := if toggles space_down s then _ else s).
  assert (H1 : Z.land (run_state s1) 1 =
               if toggles space_down s then 1 - Z.land (run_state s) 1
               else Z.land (run_state s) 1).
  { subst s1. destruct (toggles space_down s); [| reflexivity].
    destruct (Z.land (run_state s) 1 =? 0); apply run_bit_toggled. }
  set (rs := Z.lor (Z.land (run_state s1) 1)
                   (Z.shiftl (frame_ticks grave one) 1)).
  assert (Hs' : forall s2,
             s2 = (if Z.land (run_state s1) 1 =? 0
                   then with_run s1 rs space_down
                   else ticks (Z.to_nat (frame_ticks grave one))
                          (with_run s1 rs space_down)) ->
             run_state s2 = rs /\ last_space_down s2 = space_down).
  { intros s2 Hs2.
    pose proof (ticks_ctrl (Z.to_nat (frame_ticks grave one))
                  (with_run s1 rs space_down)) as (Hr & Hl & _).
    destruct (Z.land (run_state s1) 1 =? 0); subst s2.
    - split; reflexivity.
    - split; [exact Hr | exact Hl]. }
  destruct (Hs' _ eq_refl) as [Hr Hl]. rewrite Hr, Hl.
  split; [unfold rs, frame_ticks; rewrite run_bit_kept; exact H1 |].
  split; [apply run_speed | reflexivity].
Qed.


(** X13: the key [Space] acts on its way down, and not while a track is
    held.  After [update] the bit of [run_state] is flipped exactly when
    the condition of line 605 holds, [last_space_down] is the state of the
    key, and the rest of [run_state] is the number of ticks of a frame; so
    a key held down over two frames toggles once. *)
Theorem space_edge_triggered (space_down grave one : bool) (s : scene F) :
  let s' := scene_update space_down grave one s in
  Z.land (run_state s') 1 =
    (if toggles space_down s then 1 - Z.land (run_state s) 1
     else Z.land (run_state s) 1) /\
  Z.shiftr (run_state s') 1 = frame_ticks grave one /\
  last_space_down s' = space_down /\
  (space_down = true -> forall sd g o,
      Z.land (run_state (scene_update sd g o s')) 1 = Z.land (run_state s') 1) /\
  (sel_track s <> None -> Z.land (run_state s') 1 = Z.land (run_state s) 1).
Proof.
  cbv zeta.
  destruct (scene_update_ctrl space_down grave one s) as (Hb & Hn & Hl).
  cbv zeta in Hb, Hn, Hl.
  split; [exact Hb |]. split; [exact Hn |]. split; [exact Hl |]. split.
  - intros Hsd sd g o.
    destruct (scene_update_ctrl sd g o (scene_update space_down grave one s))
      as (Hb' & _).
    cbv zeta in Hb'. rewrite Hb'. unfold toggles at 1. rewrite Hl, Hsd.
    rewrite andb_false_r. reflexivity.
  - intros Hsel. rewrite Hb. unfold toggles.
    rewrite bool_decide_eq_false_2 by exact Hsel. reflexivity.
Qed.

Lemma frames_running (grave one : bool) (m : nat) (s : scene F) :
  Z.land (run_state s) 1 = 1 ->
  let s' := Nat.iter m (scene_update false grave one) s in
  Z.land (run_state s') 1 = 1 /\
  sim_state s' =
  sim_state (ticks (m * Z.to_nat (frame_ticks grave one)) s).
Proof.
  intros Hrun. cbv zeta. induction m as [| m [IHr IHs]]; [auto |].
  cbn [Nat.iter nat_rect].
  change (nat_rect _ s (fun _ => scene_update false grave one) m)
    with (Nat.iter m (scene_update false grave one) s).
  set (sm := Nat.iter m (scene_update false grave one) s) in *.
  assert (Ht : toggles false sm = false)
    by (unfold toggles; apply andb_false_r).
  split.
  - destruct (scene_update_ctrl false grave one sm) as (Hb & _).
    cbv zeta in Hb. rewrite Hb, Ht. exact IHr.
  - rewrite frame_sim. cbv zeta. rewrite Ht, IHr. cbn [Z.eqb].
    change (S m * ?k)%nat with (k + m * k)%nat. rewrite ticks_add.
    apply ticks_sim. exact IHs.
Qed.

(** X14: the speeds of a run are exact multiples.  During a run, and with
    [Space] up, four frames at the default speed do to the simulation what
    one frame with the key [1] does, and four frames with the grave key
    what one frame at the default speed does. *)
Theorem frame_speeds_compose (s : scene F) :
  Z.land (run_state s) 1 = 1 ->
  sim_state (Nat.iter 4 (scene_update false false false) s) =
    sim_state (scene_update false false true s) /\
  sim_state (Nat.iter 4 (scene_update false true false) s) =
    sim_state (scene_update false false false s).
Proof.
  intros Hrun.
  assert (Ht : toggles false s = false)
    by (unfold toggles; apply andb_false_r).
  rewrite !frame_sim. cbv zeta. rewrite Ht, Hrun. cbn [Z.eqb].
  destruct (frames_running false false 4 s Hrun) as [_ H4].
  destruct (frames_running true false 4 s Hrun) as [_ H1].
  cbv zeta in H4, H1.
  change (4 * Z.to_nat (frame_ticks false false))%nat with 16%nat in H4.
  change (4 * Z.to_nat (frame_ticks true false))%nat with 4%nat in H1.
  change (Z.to_nat (frame_ticks false true)) with 16%nat.
  change (Z.to_nat (frame_ticks false false)) with 4%nat.
  split; [exact H4 | exact H1].
Qed.

End Frames.

Lemma frame_speeds_compose_witness :
  sim_state (Nat.iter 4 (scene_update false false false)
               (Scene (F:=R) [] [] [] [] [] (TrailManager 0 0) None None
                  (Vec2 0 0) 1%Z false)) =
  sim_state (scene_update false false true
               (Scene (F:=R) [] [] [] [] [] (TrailManager 0 0) None None
                  (Vec2 0 0) 1%Z false)).
Proof.
  exact (proj1 (frame_speeds_compose
                  (Scene (F:=R) [] [] [] [] [] (TrailManager 0 0) None None
                     (Vec2 0 0) 1%Z false) eq_refl)).
Defined.
